(** * The block-production miner of ganache-core (chains/ethereum/src/miner.ts)

    A shallow embedding of the miner's transaction-selection state machine:
    the priced heap, the origin set, the checkpoint discipline over the EVM
    state manager, and the controller entry point [mine].

    State that the TypeScript code mutates in place (the private fields of
    [Miner], the pool's [pending] map, the [locked] flag of transaction
    objects, the state manager) is threaded through explicitly, and the
    calls that leave the miner are recorded in a trace.

    The code is asynchronous.  It is embedded twice.  [iteration],
    [selection], [mineTxs], [mine_private] and [mine] follow one call from
    its start to its return, as it runs when no other call of [mine]
    arrives before it has returned.  [iteration_task] to [mine_task] are
    the same code cut at its [await]s: a call runs from one [await] to the
    next, and calls of [mine] that overlap take turns there ([move],
    [play]).  The two agree on a call that runs alone
    ([mine_task_alone]).

    [pause] and [resume] are modelled on their own, over the [#paused]
    flag and the promises they make and resolve; [mine] is taken from the
    point where the miner is not (or no longer) paused.

    Left out: the handler armed on the [finalized] signal of an accepted
    transaction, and the byte encodings of trie keys, transactions and
    receipts (the tries are kept as lists of the entries put into them). *)

From stdpp Require Import base gmap sets list strings.
From Stdlib Require Import NArith ZArith Lia ZifyNat.

Open Scope N_scope.

(** ** utils.Heap *)

(** Modelled from the spec: [utils.Heap] is a class of the package
    @ganache/utils, of which miner.ts has the import only.  The spec
    (section 4.1) asks for a binary heap over a dynamic array with [push],
    [peek],
    [removeBest] (remove the root; tell whether a new root exists),
    [replaceBest] (overwrite the root and sift down), [clear], [init] and
    [length].  The comparator receives the array and two indices, as
    [byPrice] in miner.ts does; [less a i j] says that slot [i] belongs
    nearer the root than slot [j].  The two sifting loops are bounded by
    the number of slots. *)
Module Heap.
Section heap.
Context {T : Type}.
Variable less : list T → nat → nat → bool.

Definition swap (a : list T) (i j : nat) : list T :=
  match a !! i, a !! j with
  | Some x, Some y => <[i := y]> (<[j := x]> a)
  | _, _ => a
  end.

(** Sift the element of slot [j] towards the root. *)
Fixpoint up (fuel : nat) (a : list T) (j : nat) : list T :=
  match fuel with
  | O => a
  | S fuel' =>
      let i := ((j - 1) / 2)%nat in
      if negb (i =? j)%nat && less a j i
      then up fuel' (swap a i j) i
      else a
  end.

(** Sift the element of slot [i] towards the leaves. *)
Fixpoint down (fuel : nat) (a : list T) (i : nat) : list T :=
  match fuel with
  | O => a
  | S fuel' =>
      let j1 := (2 * i + 1)%nat in
      if (j1 <? length a)%nat then
        let j2 := (j1 + 1)%nat in
        let j := if (j2 <? length a)%nat && less a j2 j1 then j2 else j1 in
        if less a j i then down fuel' (swap a i j) j else a
      else a
  end.

Definition peek (a : list T) : option T := a !! 0%nat.

Definition push (x : T) (a : list T) : list T :=
  up (length a) (a ++ [x]) (length a).

(** On an empty heap there is no root to remove and none to report. *)
Definition removeBest (a : list T) : list T * bool :=
  match a with
  | [] => ([], false)
  | _ :: rest =>
      match last rest with
      | None => ([], false)
      | Some l =>
          let a' := l :: removelast rest in
          (down (length a') a' 0, true)
      end
  end.

Definition replaceBest (x : T) (a : list T) : list T * bool :=
  match a with
  | [] => ([x], true)
  | _ :: rest => (down (length a) (x :: rest) 0, true)
  end.

Definition clear (a : list T) : list T := [].

(** Heapify an arbitrary array, last inner node first. *)
Definition init (a : list T) : list T :=
  foldl (λ h i, down (length h) h i) a (rev (seq 0 (length a / 2))).

End heap.
End Heap.

(** ** Data model *)

(** A transaction object.  [hash] stands for the identity of the object;
    [from] is the sender as the hex string [Data.from(tx.from).toString()];
    [intrinsicGas] is what [calculateIntrinsicGas()] returns.  The mutable
    [locked] flag is kept in the state: [locked] below lists the
    transactions whose flag is set. *)
Record Transaction := mkTransaction {
  hash : N;
  from : string;
  gasPrice : N;
  nonce : N;
  intrinsicGas : N
}.

#[global] Instance Transaction_eq_dec : EqDecision Transaction.
Proof. solve_decision. Defined.

Record Block := mkBlock {
  header_timestamp : N;
  header_bloom : list N
}.

(** What [vm.runTx] hands back: the gas used and the logs bloom. *)
Record RunTxResult := mkRunTxResult {
  result_gasUsed : N;
  result_bloom : list N
}.

Inductive VMOutcome :=
| Returned (result : RunTxResult)
| Thrown (message : string).

(** The receipt made by [best.fillFromResult(result, blockData.gasUsed)],
    kept as the values it is made from. *)
Record Receipt := mkReceipt {
  receipt_tx : Transaction;
  receipt_result : RunTxResult;
  receipt_cumulativeGasUsed : N
}.

Record BlockData := mkBlockData {
  blockTransactions : list Transaction;
  transactionsTrie : list (nat * Transaction);
  receiptTrie : list (nat * Receipt);
  gasUsed : N;
  timestamp : N
}.

Inductive RETURN_TYPES := TRANSACTION_HASH | RETURN_VALUE.

(** The object [e] built in the catch block of [#runTx], wrapped in a
    [RuntimeError]. *)
Record RuntimeError := mkRuntimeError {
  error_hash : N;
  error_programCounter : N;
  error_exceptionError : string;
  error_returnValue : list N;
  error_returnType : RETURN_TYPES
}.

(** Calls that leave the miner: to the state manager, the VM, the
    transaction and the event emitter. *)
Inductive Event :=
| Checkpoint
| Commit
| Revert
| RunTx (tx : Transaction) (outcome : VMOutcome)
| Finalize (tx : Transaction) (status : string) (error : RuntimeError)
| EmitBlock (blockData : BlockData)
| EmitIdle.

(** What a call comes to: a value, the [TypeError] of calling a method on
    [undefined], or an exhausted iteration budget of the embedding; the
    last two with the state [s] that the call leaves behind. *)
Inductive Outcome (S A : Type) :=
| Ok (a : A)
| TypeError (s : S)
| OutOfFuel (s : S).
Arguments Ok {S A} a.
Arguments TypeError {S A} s.
Arguments OutOfFuel {S A} s.

Inductive Flow := Next | Break | Exit.

(** [byPrice] of miner.ts: the heap's comparator, on the array and two
    slots. *)
Definition byPrice (values : list Transaction) (a b : nat) : bool :=
  match values !! a, values !! b with
  | Some x, Some y => gasPrice y <? gasPrice x
  | _, _ => false
  end.

(** Modelled from the spec: the comparator of the pool's per-origin heaps,
    which the transaction pool sets up (section 3: a per-origin min-heap
    ordered by nonce). *)
Definition byNonce (values : list Transaction) (a b : nat) : bool :=
  match values !! a, values !! b with
  | Some x, Some y => nonce x <? nonce y
  | _, _ => false
  end.

(** A JavaScript [Map] from origin to heap, in insertion order. *)
Fixpoint map_get {V} (k : string) (m : list (string * V)) : option V :=
  match m with
  | [] => None
  | (k', v) :: m' => if decide (k' = k) then Some v else map_get k m'
  end.

(** The heap stored under [k] after it has been mutated in place. *)
Fixpoint map_set {V} (k : string) (v : V) (m : list (string * V))
  : list (string * V) :=
  match m with
  | [] => []
  | (k', v') :: m' =>
      if decide (k' = k) then (k', v) :: m' else (k', v') :: map_set k v m'
  end.

(** [array[i] = x] for [i] up to the length of the array (the miner writes
    at [numTransactions], which counts the elements written so far). *)
Definition array_set {A} (l : list A) (i : nat) (x : A) : list A :=
  if (i <? length l)%nat then <[i := x]> l else l ++ [x].

(** [blockBloom[i] |= bloom[i]] for the 256 bytes of the bloom filter. *)
Definition bloom_or (blockBloom bloom : list N) : list N :=
  imap (λ i x, if (i <? 256)%nat then N.lor x (default 0 (bloom !! i)) else x)
       blockBloom.

Section miner.
Context {World : Type}.

(** The collaborators and options handed to the constructor.  [vm_runTx]
    is [vm.runTx({tx, block})] on the state manager's current state. *)
Variable vm_runTx : Transaction → Block → World → World * VMOutcome.
Variable createBlock : Block → Block.
Variable blockGasLimit : N.
Variable instamine : bool.
(** [params.TRANSACTION_GAS], a constant of the module ./things/params. *)
Variable TRANSACTION_GAS : N.

(** The state manager behind [#checkpoint], [#commit] and [#revert]: the
    current EVM state and the stack of checkpointed states. *)
Record StateManager := mkStateManager {
  world : World;
  checkpoints : list World
}.

Definition sm_checkpoint (sm : StateManager) : StateManager :=
  mkStateManager (world sm) (world sm :: checkpoints sm).

Definition sm_commit (sm : StateManager) : StateManager :=
  mkStateManager (world sm) (tail (checkpoints sm)).

Definition sm_revert (sm : StateManager) : StateManager :=
  match checkpoints sm with
  | w :: rest => mkStateManager w rest
  | [] => sm
  end.

(** The private fields of [Miner] together with the objects it shares
    with its collaborators. *)
Record State := mkState {
  currentlyExecutingPrice : N;
  origins : gset string;
  pending : bool;
  isBusy : bool;
  priced : list Transaction;
  executables_pending : list (string * list Transaction);
  executables_inProgress : list Transaction;
  locked : list Transaction;
  stateManager : StateManager;
  trace : list Event
}.

Definition set_currentlyExecutingPrice (v : N) (s : State) : State :=
  mkState v (origins s) (pending s) (isBusy s) (priced s)
    (executables_pending s) (executables_inProgress s) (locked s)
    (stateManager s) (trace s).
Definition set_origins (v : gset string) (s : State) : State :=
  mkState (currentlyExecutingPrice s) v (pending s) (isBusy s) (priced s)
    (executables_pending s) (executables_inProgress s) (locked s)
    (stateManager s) (trace s).
Definition set_pending (v : bool) (s : State) : State :=
  mkState (currentlyExecutingPrice s) (origins s) v (isBusy s) (priced s)
    (executables_pending s) (executables_inProgress s) (locked s)
    (stateManager s) (trace s).
Definition set_isBusy (v : bool) (s : State) : State :=
  mkState (currentlyExecutingPrice s) (origins s) (pending s) v (priced s)
    (executables_pending s) (executables_inProgress s) (locked s)
    (stateManager s) (trace s).
Definition set_priced (v : list Transaction) (s : State) : State :=
  mkState (currentlyExecutingPrice s) (origins s) (pending s) (isBusy s) v
    (executables_pending s) (executables_inProgress s) (locked s)
    (stateManager s) (trace s).
Definition set_executables_pending
    (v : list (string * list Transaction)) (s : State) : State :=
  mkState (currentlyExecutingPrice s) (origins s) (pending s) (isBusy s)
    (priced s) v (executables_inProgress s) (locked s)
    (stateManager s) (trace s).
Definition set_executables_inProgress
    (v : list Transaction) (s : State) : State :=
  mkState (currentlyExecutingPrice s) (origins s) (pending s) (isBusy s)
    (priced s) (executables_pending s) v (locked s)
    (stateManager s) (trace s).
Definition set_locked (v : list Transaction) (s : State) : State :=
  mkState (currentlyExecutingPrice s) (origins s) (pending s) (isBusy s)
    (priced s) (executables_pending s) (executables_inProgress s) v
    (stateManager s) (trace s).
Definition set_stateManager (v : StateManager) (s : State) : State :=
  mkState (currentlyExecutingPrice s) (origins s) (pending s) (isBusy s)
    (priced s) (executables_pending s) (executables_inProgress s)
    (locked s) v (trace s).
Definition set_trace (v : list Event) (s : State) : State :=
  mkState (currentlyExecutingPrice s) (origins s) (pending s) (isBusy s)
    (priced s) (executables_pending s) (executables_inProgress s)
    (locked s) (stateManager s) v.

(** [tx.locked] and the two assignments to it. *)
Definition is_locked (tx : Transaction) (s : State) : bool :=
  bool_decide (tx ∈ locked s).
Definition lock (tx : Transaction) (s : State) : State :=
  set_locked (tx :: locked s) s.
Definition unlock (tx : Transaction) (s : State) : State :=
  set_locked (filter (λ t, t ≠ tx) (locked s)) s.

Definition emit (e : Event) (s : State) : State :=
  set_trace (trace s ++ [e]) s.

Definition checkpoint (s : State) : State :=
  emit Checkpoint (set_stateManager (sm_checkpoint (stateManager s)) s).
Definition commit (s : State) : State :=
  emit Commit (set_stateManager (sm_commit (stateManager s)) s).
Definition revert (s : State) : State :=
  emit Revert (set_stateManager (sm_revert (stateManager s)) s).

(** Locals of one pass through the body of the [do] loop of [#mineTxs]. *)
Record Locals := mkLocals {
  keepMining : bool;
  blockData : BlockData;
  numTransactions : nat;
  blockGasLeft : N;
  block : Block
}.

Definition set_keepMining (v : bool) (l : Locals) : Locals :=
  mkLocals v (blockData l) (numTransactions l) (blockGasLeft l) (block l).

(** [replaceFromHeap(priced, source)] *)
Definition replaceFromHeap (source : list Transaction) (s : State)
  : State * bool :=
  match Heap.peek source with
  | Some next =>
      let s := set_priced (Heap.replaceBest byPrice next (priced s)).1 s in
      let s := lock next s in
      (s, true)
  | None =>
      let r := Heap.removeBest byPrice (priced s) in
      (set_priced r.1 s, r.2)
  end.

(** [priced.removeBest()] on the miner's heap. *)
Definition priced_removeBest (s : State) : State * bool :=
  let r := Heap.removeBest byPrice (priced s) in
  (set_priced r.1 s, r.2).

(** [#runTx], as it runs when no other call of [mine] arrives while the VM
    runs; [runTx_task] is the same code with its [await]. *)
Definition runTx (tx : Transaction) (blk : Block) (origin : string)
    (s : State) : Outcome State (State * option RunTxResult) :=
  let r := vm_runTx tx blk (world (stateManager s)) in
  let s := set_stateManager
             (mkStateManager r.1 (checkpoints (stateManager s))) s in
  let s := emit (RunTx tx r.2) s in
  match r.2 with
  | Returned result => Ok (s, Some result)
  | Thrown errorMessage =>
      match map_get origin (executables_pending s) with
      | None => TypeError s
      | Some pendingOrigin =>
          let po := Heap.removeBest byNonce pendingOrigin in
          let s := set_executables_pending
                     (map_set origin po.1 (executables_pending s)) s in
          let s := if po.2 then (replaceFromHeap po.1 s).1
                   else (priced_removeBest s).1 in
          let e := mkRuntimeError (hash tx) 0 errorMessage []
                     TRANSACTION_HASH in
          Ok (emit (Finalize tx "rejected" e) s, None)
      end
  end.

(** [#reset] *)
Definition reset (s : State) : State :=
  set_isBusy false (set_priced (Heap.clear (priced s)) (set_origins ∅ s)).

(** The body of the [for] loop of [#setPricedHeap]. *)
Definition setPricedHeap_body (s : State)
    (mapping : string * list Transaction) : State :=
  match Heap.peek mapping.2 with
  | Some next =>
      if is_locked next s then s
      else
        let s := set_origins ({[from next]} ∪ origins s) s in
        let s := set_priced (Heap.push byPrice next (priced s)) s in
        lock next s
  | None => s
  end.

(** [#setPricedHeap] *)
Definition setPricedHeap (s : State) : State :=
  foldl setPricedHeap_body s (executables_pending s).

(** The body of the [for] loop of [#updatePricedHeap]. *)
Definition updatePricedHeap_body (s : State)
    (mapping : string * list Transaction) : State :=
  match Heap.peek mapping.2 with
  | Some next =>
      if is_locked next s then s
      else if gasPrice next <? currentlyExecutingPrice s then s
      else if bool_decide (from next ∈ origins s) then s
      else
        let s := set_origins ({[from next]} ∪ origins s) s in
        let s := set_priced (Heap.push byPrice next (priced s)) s in
        lock next s
  | None => s
  end.

(** [#updatePricedHeap] *)
Definition updatePricedHeap (s : State) : State :=
  foldl updatePricedHeap_body s (executables_pending s).

(** The [if]/[else] that follows an accepted transaction: put the
    origin's next transaction at the root, or drop the root. *)
Definition refill (pendingOrigin : list Transaction) (more : bool)
    (s : State) : State * bool :=
  if more then replaceFromHeap pendingOrigin s else priced_removeBest s.

(** [inProgress.add(best)] on a JavaScript [Set]. *)
Definition inProgress_add (tx : Transaction) (l : list Transaction)
  : list Transaction :=
  if bool_decide (tx ∈ l) then l else l ++ [tx].

(** One pass through the [while ((best = priced.peek()))] loop of
    [#mineTxs], with the way it leaves the body, as it runs when no other
    call of [mine] arrives during the pass; [iteration_task] is the same
    code with its [await]s. *)
Definition iteration (maxTransactions : Z) (s : State) (l : Locals)
  : Outcome State (Flow * State * Locals) :=
  match Heap.peek (priced s) with
  | None => Ok (Exit, s, l)
  | Some best =>
      let origin := from best in
      if blockGasLeft l <? intrinsicGas best then
        let s := (priced_removeBest s).1 in
        let s := unlock best s in
        let s := set_origins (origins s ∖ {[origin]}) s in
        Ok (Next, s, l)
      else
        let s := set_currentlyExecutingPrice (gasPrice best) s in
        let s := checkpoint s in
        match runTx best (block l) origin s with
        | Ok (s, Some result) =>
            let used := result_gasUsed result in
            if used <=? blockGasLeft l then
              let s := commit s in
              let bd := blockData l in
              let n := numTransactions l in
              let left := blockGasLeft l - used in
              let total := gasUsed bd + used in
              let bd := mkBlockData
                          (array_set (blockTransactions bd) n best)
                          (transactionsTrie bd ++ [(n, best)])
                          (receiptTrie bd ++ [(n, mkReceipt best result total)])
                          total (timestamp bd) in
              let blk := mkBlock (header_timestamp (block l))
                           (bloom_or (header_bloom (block l))
                                     (result_bloom result)) in
              let n := S n in
              match map_get origin (executables_pending s) with
              | None => TypeError s
              | Some pendingOrigin =>
                  let po := Heap.removeBest byNonce pendingOrigin in
                  let s := set_executables_pending
                             (map_set origin po.1 (executables_pending s)) s in
                  let s := set_executables_inProgress
                             (inProgress_add best (executables_inProgress s)) s in
                  let r := refill po.1 po.2 s in
                  let l := mkLocals r.2 bd n left blk in
                  if (left <=? TRANSACTION_GAS)
                     || (Z.of_nat n =? maxTransactions)%Z
                  then Ok (Break, r.1, l)
                  else Ok (Next, r.1, l)
              end
            else
              let s := revert s in
              let s := unlock best s in
              let r := priced_removeBest s in
              Ok (Next, r.1, set_keepMining r.2 l)
        | Ok (s, None) => Ok (Next, revert s, l)
        | TypeError s => TypeError s
        | OutOfFuel s => OutOfFuel s
        end
  end.

(** The [while] loop itself. *)
Fixpoint selection (fuel : nat) (maxTransactions : Z) (s : State)
    (l : Locals) : Outcome State (State * Locals) :=
  match fuel with
  | O => OutOfFuel s
  | S fuel' =>
      match iteration maxTransactions s l with
      | Ok (Next, s, l) => selection fuel' maxTransactions s l
      | Ok (_, s, l) => Ok (s, l)
      | TypeError s => TypeError s
      | OutOfFuel s => OutOfFuel s
      end
  end.

(** Transactions waiting in the pool, over all origins. *)
Definition pool_size (s : State) : nat :=
  sum_list (map (λ mapping, length mapping.2) (executables_pending s)).

(** Every pass of the [while] loop takes a transaction out of the priced
    heap or out of the pool, so this many passes are enough
    ([selection_terminates] below). *)
Definition selection_fuel (s : State) : nat :=
  S (length (priced s) + pool_size s).

(** [#mineTxs]: the [do ... while (keepMining)] loop, one block per pass. *)
Fixpoint mineTxs (fuel : nat) (blk : Block) (maxTransactions : Z)
    (onlyOneBlock : bool) (s : State)
  : Outcome State (State * (Block * list Transaction)) :=
  match fuel with
  | O => OutOfFuel s
  | S fuel' =>
      let s := set_isBusy true s in
      let blockData0 := mkBlockData [] [] [] 0 (header_timestamp blk) in
      if (maxTransactions =? 0)%Z then
        let s := checkpoint s in
        let s := commit s in
        let s := emit (EmitBlock blockData0) s in
        Ok (reset s, (blk, []))
      else
        let l := mkLocals false blockData0 0 blockGasLimit blk in
        let s := checkpoint s in
        match selection (selection_fuel s) maxTransactions s l with
        | Ok (s, l) =>
            let s := commit s in
            let s := emit (EmitBlock (blockData l)) s in
            let s := set_currentlyExecutingPrice 0 s in
            if onlyOneBlock then
              Ok (reset s, (block l, blockTransactions (blockData l)))
            else
              let s := updatePricedHeap s in
              if negb (length (priced s) =? 0)%nat then
                let blk' := createBlock (block l) in
                let maxTransactions' := (if instamine then 1 else -1)%Z in
                if keepMining l
                then mineTxs fuel' blk' maxTransactions' onlyOneBlock s
                else Ok (s, (blk', blockTransactions (blockData l)))
              else
                let s := reset s in
                if keepMining l
                then mineTxs fuel' (block l) maxTransactions onlyOneBlock s
                else Ok (s, (block l, blockTransactions (blockData l)))
        | TypeError s => TypeError s
        | OutOfFuel s => OutOfFuel s
        end
  end.

(** [#mine] *)
Fixpoint mine_private (fuel : nat) (blk : Block) (maxTransactions : Z)
    (onlyOneBlock : bool) (s : State)
  : Outcome State (State * list Transaction) :=
  match fuel with
  | O => OutOfFuel s
  | S fuel' =>
      match mineTxs fuel blk maxTransactions onlyOneBlock s with
      | Ok (s, (lastBlock, transactions)) =>
          if negb onlyOneBlock && pending s then
            let s := setPricedHeap s in
            let s := set_pending false s in
            let nextBlock := createBlock lastBlock in
            match mine_private fuel' nextBlock
                    (if instamine then 1 else -1)%Z false s with
            | Ok (s, _) => Ok (s, transactions)
            | TypeError s => TypeError s
            | OutOfFuel s => OutOfFuel s
            end
          else Ok (s, transactions)
      | TypeError s => TypeError s
      | OutOfFuel s => OutOfFuel s
      end
  end.

(** [mine], from the point where the miner is not (or no longer) paused.
    The result is [None] for the [undefined] of the busy path. *)
Definition mine (fuel : nat) (blk : Block) (maxTransactions : Z)
    (onlyOneBlock : bool) (s : State)
  : Outcome State (State * option (list Transaction)) :=
  if isBusy s then
    Ok (updatePricedHeap (set_pending true s), None)
  else
    let s := setPricedHeap s in
    match mine_private fuel blk maxTransactions onlyOneBlock s with
    | Ok (s, result) => Ok (emit EmitIdle s, Some result)
    | TypeError s => TypeError s
    | OutOfFuel s => OutOfFuel s
    end.

(** The constructor: the fields as their initialisers leave them, the
    [pending] flag unset, and the heap initialised with an empty array.
    The pool, the transactions whose [locked] flag is set and the state
    manager are what the miner finds. *)
Definition new_Miner (pool : list (string * list Transaction))
    (inProgress locks : list Transaction) (sm : StateManager)
  : State :=
  mkState 0 ∅ false false (Heap.init byPrice []) pool inProgress locks sm [].

End miner.

(** ** [pause] and [resume] *)

(** The [#paused] flag and the promises that [pause] has made, oldest
    first, each with whether it has been resolved.  [#resumer] is the
    last of them and [#resolver] resolves it: the two fields are assigned
    together.  A call of [mine] that finds the miner paused awaits the
    promise that is [#resumer] at that moment. *)
Record Pausing := mkPausing {
  paused : bool;
  resumers : list bool
}.

(** The fields as the constructor leaves them. *)
Definition not_paused : Pausing := mkPausing false [].

(** [pause], on a miner whose [#isBusy] flag is [busy]: the new state,
    and whether the call goes on to await the [idle] event. *)
Definition pause (busy : bool) (p : Pausing) : Pausing * bool :=
  if paused p then (p, false)
  else (mkPausing true (resumers p ++ [false]), busy).

(** [resume] *)
Definition resume (p : Pausing) : Pausing :=
  if negb (paused p) then p
  else mkPausing false (<[pred (length (resumers p)) := true]> (resumers p)).

(** The promise that a call of [mine] awaits before it does anything
    else, if any. *)
Definition mine_awaits (p : Pausing) : option nat :=
  if paused p then Some (pred (length (resumers p))) else None.

(** ** A small instance

    A VM whose state is the list of the hashes of the transactions it has
    run, which throws for nonce 99 and otherwise uses the intrinsic gas of
    the transaction plus 1000 per unit of its nonce; and a few
    transactions. *)
Module Example.

Definition vm (tx : Transaction) (blk : Block) (w : list N)
  : list N * VMOutcome :=
  (w ++ [hash tx],
   if nonce tx =? 99 then Thrown "always failing"
   else Returned (mkRunTxResult (intrinsicGas tx + 1000 * nonce tx) [])).

Definition createBlock (blk : Block) : Block :=
  mkBlock (header_timestamp blk + 1) (header_bloom blk).

Definition genesis : Block := mkBlock 0 [].

(** An idle miner over a pool. *)
Definition idle (pool : list (string * list Transaction))
  : @State (list N) :=
  mkState 0 ∅ false false [] pool [] [] (mkStateManager [] []) [].

(** The locals at the start of a block. *)
Definition start (limit : N) : @Locals :=
  mkLocals false (mkBlockData [] [] [] 0 0) 0 limit genesis.

Definition tA : Transaction := mkTransaction 1 "0xaa" 5 0 21000.
Definition tA2 : Transaction := mkTransaction 2 "0xaa" 100 1 21000.
Definition tB : Transaction := mkTransaction 3 "0xbb" 20 0 21000.
(** uses 50000 gas *)
Definition tC : Transaction := mkTransaction 4 "0xcc" 10 29 21000.
(** makes the VM throw *)
Definition tD : Transaction := mkTransaction 5 "0xdd" 50 99 21000.
Definition tD2 : Transaction := mkTransaction 6 "0xdd" 1 100 21000.
(** needs 90000 gas before it runs *)
Definition tE : Transaction := mkTransaction 7 "0xee" 7 0 90000.
(** uses 60000 gas *)
Definition tF : Transaction := mkTransaction 8 "0xff" 20 39 21000.

End Example.

(** * Facts about the heap *)

Section heap_facts.
Context {T : Type}.
Variable less : list T → nat → nat → bool.

Local Abbreviation swap := (@Heap.swap T).
Local Abbreviation up := (Heap.up less).
Local Abbreviation down := (Heap.down less).
Local Abbreviation push := (Heap.push less).
Local Abbreviation removeBest := (Heap.removeBest less).
Local Abbreviation replaceBest := (Heap.replaceBest less).
Local Abbreviation peek := (@Heap.peek T).

(** ** Sizes *)

Lemma length_swap a i j : length (swap a i j) = length a.
Proof.
  unfold Heap.swap. destruct (a !! i), (a !! j); try done.
  by rewrite !length_insert.
Qed.

Lemma length_up fuel a j : length (up fuel a j) = length a.
Proof.
  revert a j. induction fuel as [|fuel IH]; intros a j; simpl; [done|].
  destruct (_ && _); [|done]. by rewrite IH, length_swap.
Qed.

Lemma length_down fuel a i : length (down fuel a i) = length a.
Proof.
  revert a i. induction fuel as [|fuel IH]; intros a i; simpl; [done|].
  destruct (_ <? _)%nat; [|done].
  destruct (less a _ i); [|done]. by rewrite IH, length_swap.
Qed.

Lemma length_push x a : length (push x a) = S (length a).
Proof. unfold Heap.push. rewrite length_up, length_app. simpl. lia. Qed.

Lemma last_removelast (l : list T) x :
  last l = Some x → l = removelast l ++ [x].
Proof.
  intros [l' ->]%last_Some. by rewrite List.removelast_last.
Qed.

Lemma length_removeBest a :
  length (removeBest a).1 = pred (length a).
Proof.
  destruct a as [|x rest]; [done|]. unfold Heap.removeBest.
  destruct (last rest) as [l|] eqn:Hl.
  - cbn [fst]. rewrite length_down. cbn [length].
    apply last_removelast in Hl. rewrite Hl at 2.
    rewrite length_app. simpl. lia.
  - apply last_None in Hl. by subst.
Qed.

Lemma length_replaceBest x a :
  a ≠ [] → length (replaceBest x a).1 = length a.
Proof.
  destruct a as [|y rest]; [done|]. intros _.
  unfold Heap.replaceBest. cbn [fst]. by rewrite length_down.
Qed.

Lemma removeBest_true a : (removeBest a).2 = true ↔ (1 < length a)%nat.
Proof.
  destruct a as [|x rest]; simpl; [split; [done|lia]|].
  destruct (last rest) as [l|] eqn:Hl; simpl.
  - split; [|done]. intros _. destruct rest; [done|]. simpl. lia.
  - apply last_None in Hl. subst. simpl. split; [done|lia].
Qed.

Lemma peek_Some_length a x : peek a = Some x → (0 < length a)%nat.
Proof. unfold Heap.peek. intros H. by apply lookup_lt_Some in H. Qed.

Lemma peek_None a : peek a = None ↔ a = [].
Proof. unfold Heap.peek. by destruct a. Qed.

Lemma peek_cons a x : peek a = Some x → ∃ rest, a = x :: rest.
Proof. unfold Heap.peek. destruct a; naive_solver. Qed.

(** ** Contents: the operations move elements around, and add or drop
    exactly the one they are meant to. *)

Lemma insert_perm_cons (a : list T) j x y :
  a !! j = Some y → y :: <[j := x]> a ≡ₚ x :: a.
Proof.
  revert j. induction a as [|z a IH]; intros [|j] Hj; simplify_eq/=.
  - apply perm_swap.
  - rewrite (perm_swap z y). rewrite (IH _ Hj). apply perm_swap.
Qed.

Lemma swap_perm a i j : swap a i j ≡ₚ a.
Proof.
  unfold Heap.swap.
  destruct (a !! i) as [x|] eqn:Hi; [|done].
  destruct (a !! j) as [y|] eqn:Hj; [|done].
  destruct (decide (i = j)) as [->|Hne].
  - simplify_eq. by rewrite list_insert_insert_eq, list_insert_id.
  - apply (Permutation_cons_inv (a := x)).
    rewrite (insert_perm_cons (<[j := x]> a) i y x).
    + by apply insert_perm_cons.
    + by rewrite list_lookup_insert_ne.
Qed.

Lemma up_perm fuel a j : up fuel a j ≡ₚ a.
Proof.
  revert a j. induction fuel as [|fuel IH]; intros a j; simpl; [done|].
  destruct (_ && _); [|done]. by rewrite IH, swap_perm.
Qed.

Lemma down_perm fuel a i : down fuel a i ≡ₚ a.
Proof.
  revert a i. induction fuel as [|fuel IH]; intros a i; simpl; [done|].
  destruct (_ <? _)%nat; [|done].
  destruct (less a _ i); [|done]. by rewrite IH, swap_perm.
Qed.

Lemma push_perm x a : push x a ≡ₚ x :: a.
Proof.
  unfold Heap.push. rewrite up_perm. symmetry. apply Permutation_cons_append.
Qed.

Lemma removeBest_perm a x :
  peek a = Some x → a ≡ₚ x :: (removeBest a).1.
Proof.
  intros [rest ->]%peek_cons. unfold Heap.removeBest.
  destruct (last rest) as [l|] eqn:Hl; cbn [fst].
  - rewrite down_perm. apply last_removelast in Hl.
    rewrite Hl at 1. by rewrite <-Permutation_cons_append.
  - apply last_None in Hl. by subst.
Qed.

Lemma replaceBest_perm a x y :
  peek a = Some x → y :: a ≡ₚ x :: (replaceBest y a).1.
Proof.
  intros [rest ->]%peek_cons. unfold Heap.replaceBest. cbn [fst].
  rewrite down_perm. apply perm_swap.
Qed.

End heap_facts.

(** ** Order: every slot holds an element that its parent slot may sit
    above, and so the root is a best element. *)

Section heap_order.
Context {T : Type}.
Variable less : list T → nat → nat → bool.
(** The comparator looks at the two slots only, through [lt]. *)
Variable lt : T → T → bool.
Hypothesis less_spec : ∀ a i j,
  less a i j = match a !! i, a !! j with
               | Some x, Some y => lt x y
               | _, _ => false
               end.
Hypothesis lt_asym : ∀ x y, lt x y = true → lt y x = false.
Hypothesis lt_negtrans : ∀ x y z,
  lt y x = false → lt z y = false → lt z x = false.

Definition ordered (a : list T) : Prop :=
  ∀ i x p, (0 < i)%nat → a !! i = Some x → a !! ((i - 1) / 2)%nat = Some p →
           lt x p = false.

Lemma lt_irrefl x : lt x x = false.
Proof. pose proof (lt_asym x x) as H. destruct (lt x x); auto. Qed.

Lemma ordered_nil : ordered [].
Proof. intros i x p _ Hx. done. Qed.

Lemma ordered_root a r :
  ordered a → a !! 0%nat = Some r → ∀ i x, a !! i = Some x → lt x r = false.
Proof.
  intros Ha Hr i. induction (lt_wf i) as [i _ IH]. intros x Hx.
  destruct (decide (i = 0%nat)) as [->|Hi].
  - simplify_eq. apply lt_irrefl.
  - assert (((i - 1) / 2) < i)%nat as Hlt by lia.
    destruct (lookup_lt_is_Some_2 a ((i - 1) / 2)%nat) as [p Hp].
    { apply lookup_lt_Some in Hx. lia. }
    apply (lt_negtrans r p x).
    + by apply (IH _ Hlt).
    + apply (Ha i); [lia|done..].
Qed.

Lemma lookup_swap (a : list T) (i j : nat) (x y : T) (k : nat) :
  a !! i = Some x → a !! j = Some y →
  Heap.swap a i j !! k
  = if decide (k = i) then Some y
    else if decide (k = j) then Some x else a !! k.
Proof.
  intros Hi Hj. unfold Heap.swap. rewrite Hi, Hj.
  pose proof (lookup_lt_Some _ _ _ Hi). pose proof (lookup_lt_Some _ _ _ Hj).
  destruct (decide (k = i)) as [->|].
  - rewrite list_lookup_insert_eq; [done|by rewrite length_insert].
  - rewrite list_lookup_insert_ne by done.
    destruct (decide (k = j)) as [->|].
    + by rewrite list_lookup_insert_eq.
    + by rewrite list_lookup_insert_ne.
Qed.

Lemma lookup_swap_l (a : list T) (i j : nat) (x y : T) :
  a !! i = Some x → a !! j = Some y → Heap.swap a i j !! i = Some y.
Proof. intros Hi Hj. rewrite (lookup_swap a i j x y) by done. by case_decide. Qed.

Lemma lookup_swap_r (a : list T) (i j : nat) (x y : T) :
  a !! i = Some x → a !! j = Some y → i ≠ j →
  Heap.swap a i j !! j = Some x.
Proof.
  intros Hi Hj Hne. rewrite (lookup_swap a i j x y) by done.
  repeat case_decide; done.
Qed.

Lemma lookup_swap_ne (a : list T) (i j k : nat) :
  k ≠ i → k ≠ j → Heap.swap a i j !! k = a !! k.
Proof.
  intros Hi Hj. unfold Heap.swap.
  destruct (a !! i), (a !! j); try done.
  by rewrite !list_lookup_insert_ne.
Qed.

(** The array is in order except, perhaps, between slot [j] and its
    parent; the children of [j] may already sit below that parent. *)
Definition up_inv (a : list T) (j : nat) : Prop :=
  (∀ i x p, (0 < i)%nat → i ≠ j → a !! i = Some x →
            a !! ((i - 1) / 2)%nat = Some p → lt x p = false)
  ∧ (∀ c x g, (0 < j)%nat → (0 < c)%nat → ((c - 1) / 2)%nat = j →
              a !! c = Some x → a !! ((j - 1) / 2)%nat = Some g →
              lt x g = false).

Lemma up_ordered fuel a j :
  (j ≤ fuel)%nat → up_inv a j → ordered (Heap.up less fuel a j).
Proof.
  revert a j. induction fuel as [|fuel IH]; intros a j Hf Hinv.
  { destruct Hinv as [H1 _]. cbn [Heap.up]. intros i x p Hi.
    apply H1; [done|lia]. }
  cbn [Heap.up]. destruct (negb _ && less a j _) eqn:Hc.
  - apply andb_true_iff in Hc as [Hne Hl].
    apply negb_true_iff, Nat.eqb_neq in Hne.
    rewrite less_spec in Hl.
    destruct (a !! j) as [x|] eqn:Hx; [|done].
    destruct (a !! ((j - 1) / 2)%nat) as [p|] eqn:Hp; [|done].
    destruct Hinv as [H1 H2].
    assert (0 < j)%nat as Hj by (destruct j; [done|lia]).
    assert ((j - 1) / 2 < j)%nat as Hpj by lia.
    pose proof (lt_asym _ _ Hl) as Hpx.
    apply IH; [lia|]. split.
    + intros i y q Hi Hne' Hy Hq.
      destruct (decide (i = j)) as [->|Hij].
      { rewrite (lookup_swap_r _ _ _ p x) in Hy by done.
        rewrite (lookup_swap_l _ _ _ p x) in Hq by done. by simplify_eq. }
      rewrite lookup_swap_ne in Hy by done.
      destruct (decide (((i - 1) / 2)%nat = ((j - 1) / 2)%nat)) as [Hpar|Hpar].
      { rewrite Hpar in Hq.
        rewrite (lookup_swap_l _ _ _ p x) in Hq by done. simplify_eq.
        apply (lt_negtrans _ p); [done|].
        apply (H1 i); [done..|]. by rewrite Hpar. }
      destruct (decide (((i - 1) / 2)%nat = j)) as [Hch|Hch].
      { rewrite Hch in Hq.
        rewrite (lookup_swap_r _ _ _ p x) in Hq by done. simplify_eq.
        by apply (H2 i). }
      rewrite lookup_swap_ne in Hq by done. by apply (H1 i).
    + intros c y g Hpos Hc Hcp Hy Hg.
      rewrite lookup_swap_ne in Hg by lia.
      assert (lt p g = false) as Hpg by (apply (H1 ((j - 1) / 2)%nat); done || lia).
      destruct (decide (c = j)) as [->|Hcj].
      { rewrite (lookup_swap_r _ _ _ p x) in Hy by done. by simplify_eq. }
      rewrite lookup_swap_ne in Hy by lia.
      apply (lt_negtrans _ p); [done|].
      apply (H1 c); [done..|]. by rewrite Hcp.
  - destruct Hinv as [H1 _]. intros i x p Hi Hx Hp.
    destruct (decide (i = j)) as [->|Hne]; [|by apply (H1 i)].
    apply andb_false_iff in Hc as [Hc|Hc].
    + apply negb_false_iff, Nat.eqb_eq in Hc. lia.
    + rewrite less_spec, Hx, Hp in Hc. done.
Qed.

Lemma push_ordered x a : ordered a → ordered (Heap.push less x a).
Proof.
  intros Ha. unfold Heap.push. apply up_ordered; [done|]. split.
  - intros i y p Hi Hne Hy Hp.
    assert (i < length a)%nat.
    { apply lookup_lt_Some in Hy. rewrite length_app in Hy. simpl in Hy. lia. }
    rewrite lookup_app_l in Hy, Hp by lia. by apply (Ha i).
  - intros c y g Hj Hc Hcp Hy _.
    apply lookup_lt_Some in Hy. rewrite length_app in Hy. simpl in Hy. lia.
Qed.

(** The array is in order except, perhaps, between slot [i] and its
    children; they may already sit below the parent of [i]. *)
Definition down_inv (a : list T) (i : nat) : Prop :=
  (∀ k x p, (0 < k)%nat → ((k - 1) / 2)%nat ≠ i → a !! k = Some x →
            a !! ((k - 1) / 2)%nat = Some p → lt x p = false)
  ∧ (∀ c x g, (0 < i)%nat → (0 < c)%nat → ((c - 1) / 2)%nat = i →
              a !! c = Some x → a !! ((i - 1) / 2)%nat = Some g →
              lt x g = false).

Lemma down_ordered fuel a i :
  (length a ≤ fuel + i)%nat → down_inv a i →
  ordered (Heap.down less fuel a i).
Proof.
  revert a i. induction fuel as [|fuel IH]; intros a i Hf [H1 H2].
  { cbn [Heap.down]. intros k x p Hk Hx Hp. apply (H1 k); try done.
    apply lookup_lt_Some in Hx. lia. }
  cbn [Heap.down]. destruct (2 * i + 1 <? length a)%nat eqn:Hlen.
  2:{ apply Nat.ltb_ge in Hlen. intros k x p Hk Hx Hp.
      apply (H1 k); try done. apply lookup_lt_Some in Hx. lia. }
  apply Nat.ltb_lt in Hlen.
  destruct (lookup_lt_is_Some_2 a i) as [x Hx]; [lia|].
  destruct (lookup_lt_is_Some_2 a (2 * i + 1)%nat) as [y1 Hy1]; [lia|].
  set (j := if (2 * i + 1 + 1 <? length a)%nat
               && less a (2 * i + 1 + 1) (2 * i + 1)
            then (2 * i + 1 + 1)%nat else (2 * i + 1)%nat).
  (* what the choice of [j] tells about the two children *)
  assert (∃ y, a !! j = Some y
               ∧ (j = (2 * i + 1)%nat ∨ j = (2 * i + 2)%nat)
               ∧ ∀ c z, (0 < c)%nat → ((c - 1) / 2)%nat = i →
                        a !! c = Some z → lt z y = false)
    as (y & Hy & Hj & Hbest).
  { subst j. destruct (_ && _) eqn:Hc.
    - apply andb_true_iff in Hc as [Hlen2 Hl]. apply Nat.ltb_lt in Hlen2.
      rewrite less_spec, Hy1 in Hl.
      destruct (a !! (2 * i + 1 + 1)%nat) as [y2|] eqn:Hy2; [|done].
      exists y2. split; [done|]. split; [right; lia|].
      intros c z Hc Hcp Hz.
      assert (c = (2 * i + 1)%nat ∨ c = (2 * i + 1 + 1)%nat) as [->| ->] by lia.
      + simplify_eq. by apply lt_asym.
      + simplify_eq. apply lt_irrefl.
    - exists y1. split; [done|]. split; [by left|].
      intros c z Hc' Hcp Hz.
      assert (c = (2 * i + 1)%nat ∨ c = (2 * i + 1 + 1)%nat) as [->| ->] by lia.
      + simplify_eq. apply lt_irrefl.
      + apply andb_false_iff in Hc as [Hc|Hc].
        * apply Nat.ltb_ge in Hc. apply lookup_lt_Some in Hz. lia.
        * rewrite less_spec, Hz, Hy1 in Hc. done. }
  clearbody j.
  assert (((j - 1) / 2)%nat = i ∧ i ≠ j ∧ (0 < j)%nat) as (Hji & Hij & Hj0) by lia.
  destruct (less a j i) eqn:Hl; rewrite less_spec, Hy, Hx in Hl.
  - pose proof (lt_asym _ _ Hl) as Hxy.
    apply IH; [rewrite length_swap; lia|]. split.
    + intros k z q Hk Hne Hz Hq.
      destruct (decide (k = j)) as [->|Hkj].
      { rewrite (lookup_swap_r _ _ _ x y) in Hz by done.
        rewrite Hji, (lookup_swap_l _ _ _ x y) in Hq by done. by simplify_eq. }
      destruct (decide (k = i)) as [->|Hki].
      { rewrite (lookup_swap_l _ _ _ x y) in Hz by done.
        rewrite lookup_swap_ne in Hq by lia. simplify_eq.
        by apply (H2 j). }
      rewrite lookup_swap_ne in Hz by done.
      destruct (decide (((k - 1) / 2)%nat = i)) as [Hpar|Hpar].
      { rewrite Hpar, (lookup_swap_l _ _ _ x y) in Hq by done. simplify_eq.
        by apply (Hbest k). }
      rewrite lookup_swap_ne in Hq by done. by apply (H1 k).
    + intros c z g Hpos Hc Hcp Hz Hg.
      rewrite Hji, (lookup_swap_l _ _ _ x y) in Hg by done.
      rewrite lookup_swap_ne in Hz by lia.
      assert (g = y) as -> by congruence.
      apply (H1 c); [done|lia|done|]. by rewrite Hcp.
  - intros k z q Hk Hz Hq.
    destruct (decide (((k - 1) / 2)%nat = i)) as [Hki|Hki]; [|by apply (H1 k)].
    rewrite Hki in Hq. simplify_eq.
    apply (lt_negtrans _ y); [done|]. by apply (Hbest k).
Qed.

Lemma removeBest_ordered a :
  ordered a → ordered (Heap.removeBest less a).1.
Proof.
  intros Ha. destruct a as [|x rest]; [done|]. unfold Heap.removeBest.
  destruct (last rest) as [l|] eqn:Hl; cbn [fst]; [|apply ordered_nil].
  apply down_ordered; [lia|]. split; [|intros; lia].
  apply last_Some in Hl as [rest' ->].
  rewrite List.removelast_last.
  intros k z q Hk Hne Hz Hq.
  destruct k as [|k]; [lia|].
  destruct ((S k - 1) / 2)%nat as [|m] eqn:Hm; [done|].
  simpl in Hz, Hq.
  apply (Ha (S k)); [lia|..].
  - simpl. by apply lookup_app_l_Some.
  - rewrite Hm. simpl. by apply lookup_app_l_Some.
Qed.

Lemma replaceBest_ordered x a :
  ordered a → ordered (Heap.replaceBest less x a).1.
Proof.
  intros Ha. destruct a as [|y rest]; cbn [Heap.replaceBest fst].
  - intros i z p Hi Hz. destruct i; [lia|done].
  - apply down_ordered; [simpl; lia|]. split; [|intros; lia].
    intros k z q Hk Hne Hz Hq.
    destruct k as [|k]; [lia|].
    destruct ((S k - 1) / 2)%nat as [|m] eqn:Hm; [done|].
    apply (Ha (S k)); [lia|done|]. by rewrite Hm.
Qed.

End heap_order.

(** * Facts about the miner *)

Section miner_facts.
Context {World : Type}.
Variable vm_runTx : Transaction → Block → World → World * VMOutcome.
Variable createBlock : Block → Block.
Variable blockGasLimit : N.
Variable instamine : bool.
Variable TRANSACTION_GAS : N.

Local Abbreviation State := (@State World).
Local Abbreviation runTx := (runTx vm_runTx).
Local Abbreviation iteration := (iteration vm_runTx TRANSACTION_GAS).
Local Abbreviation selection := (selection vm_runTx TRANSACTION_GAS).
Local Abbreviation mineTxs :=
  (mineTxs vm_runTx createBlock blockGasLimit instamine TRANSACTION_GAS).
Local Abbreviation mine_private :=
  (mine_private vm_runTx createBlock blockGasLimit instamine TRANSACTION_GAS).
Local Abbreviation mine :=
  (mine vm_runTx createBlock blockGasLimit instamine TRANSACTION_GAS).

Implicit Types (s : State) (l : Locals) (tx best : Transaction).

(** Proofs depend on the collaborators only where their statements do. *)
#[local] Set Default Proof Using "Type".

(** ** The two loops over the pool leave everything but the heap, the
    origin set and the locks alone *)

Definition same_surroundings s s' : Prop :=
  trace s' = trace s ∧ stateManager s' = stateManager s
  ∧ pending s' = pending s ∧ isBusy s' = isBusy s
  ∧ currentlyExecutingPrice s' = currentlyExecutingPrice s
  ∧ executables_pending s' = executables_pending s
  ∧ executables_inProgress s' = executables_inProgress s.

Lemma same_surroundings_refl s : same_surroundings s s.
Proof. by repeat split. Qed.

Lemma same_surroundings_trans s1 s2 s3 :
  same_surroundings s1 s2 → same_surroundings s2 s3 →
  same_surroundings s1 s3.
Proof. unfold same_surroundings. intuition congruence. Qed.

Lemma setPricedHeap_body_surroundings s m :
  same_surroundings s (setPricedHeap_body s m).
Proof.
  unfold setPricedHeap_body. destruct (Heap.peek m.2); [|apply same_surroundings_refl].
  destruct (is_locked _ s); by repeat split.
Qed.

Lemma updatePricedHeap_body_surroundings s m :
  same_surroundings s (updatePricedHeap_body s m).
Proof.
  unfold updatePricedHeap_body.
  destruct (Heap.peek m.2); [|apply same_surroundings_refl].
  repeat (case_match; [apply same_surroundings_refl|]). by repeat split.
Qed.

Lemma foldl_surroundings (body : State → string * list Transaction → State) :
  (∀ s m, same_surroundings s (body s m)) →
  ∀ ms s, same_surroundings s (foldl body s ms).
Proof.
  intros Hb ms. induction ms as [|m ms IH]; intros s; simpl.
  - apply same_surroundings_refl.
  - eapply same_surroundings_trans; [apply Hb|apply IH].
Qed.

Lemma setPricedHeap_surroundings s : same_surroundings s (setPricedHeap s).
Proof. apply foldl_surroundings, setPricedHeap_body_surroundings. Qed.

Lemma updatePricedHeap_surroundings s :
  same_surroundings s (updatePricedHeap s).
Proof. apply foldl_surroundings, updatePricedHeap_body_surroundings. Qed.

(** ** One pass of the selection loop, case by case *)

Lemma is_locked_unlock tx s : is_locked tx (unlock tx s) = false.
Proof. clear vm_runTx.
  unfold is_locked, unlock. simpl. apply bool_decide_eq_false.
  rewrite list_elem_of_filter. tauto.
Qed.

Lemma is_locked_lock tx s : is_locked tx (lock tx s) = true.
Proof.
  unfold is_locked, lock. simpl. apply bool_decide_eq_true. left.
Qed.

(** C4: when the intrinsic gas of the best transaction exceeds the gas
    left in the block, the pass removes it from the priced heap, clears
    its [locked] flag, deletes its origin from the origin set and goes on
    with the loop; there is no checkpoint and no EVM run (the trace and
    the state manager are as before), the block under construction is
    unchanged, and the pool is not touched. *)
Theorem C4_intrinsic_gas_skip maxTransactions s l best :
  Heap.peek (priced s) = Some best →
  blockGasLeft l < intrinsicGas best →
  ∃ s', iteration maxTransactions s l = Ok (Next, s', l)
    ∧ priced s' = (Heap.removeBest byPrice (priced s)).1
    ∧ priced s ≡ₚ best :: priced s'
    ∧ is_locked best s' = false
    ∧ locked s' = filter (λ t, t ≠ best) (locked s)
    ∧ origins s' = origins s ∖ {[from best]}
    ∧ trace s' = trace s
    ∧ stateManager s' = stateManager s
    ∧ executables_pending s' = executables_pending s
    ∧ executables_inProgress s' = executables_inProgress s.
Proof.
  intros Hpeek Hgas. unfold iteration. rewrite Hpeek.
  apply N.ltb_lt in Hgas. rewrite Hgas.
  eexists. split; [reflexivity|].
  split; [done|]. split; [by apply removeBest_perm|].
  split; [exact (is_locked_unlock best _)|]. done.
Qed.

(** A pass during which no other call of [mine] arrives: when the EVM
    result uses more gas than is left in the block, the pass reverts the
    transaction-level checkpoint (the state manager is back to what it was
    before the pass), clears the [locked] flag of the transaction, removes
    it from the priced heap without putting another transaction of the
    origin in its place, leaves the block under construction as it is, and
    does not touch the pool, where the transaction stays for a later
    block. *)
Lemma overflow_pass maxTransactions s l best w result :
  Heap.peek (priced s) = Some best →
  intrinsicGas best ≤ blockGasLeft l →
  vm_runTx best (block l) (world (stateManager s)) = (w, Returned result) →
  blockGasLeft l < result_gasUsed result →
  ∃ s' l', iteration maxTransactions s l = Ok (Next, s', l')
    ∧ stateManager s' = stateManager s
    ∧ trace s' = trace s ++ [Checkpoint; RunTx best (Returned result); Revert]
    ∧ is_locked best s' = false
    ∧ locked s' = filter (λ t, t ≠ best) (locked s)
    ∧ priced s' = (Heap.removeBest byPrice (priced s)).1
    ∧ priced s ≡ₚ best :: priced s'
    ∧ blockData l' = blockData l
    ∧ numTransactions l' = numTransactions l
    ∧ blockGasLeft l' = blockGasLeft l
    ∧ executables_pending s' = executables_pending s
    ∧ executables_inProgress s' = executables_inProgress s.
Proof.
  intros Hpeek Hintr Hvm Hgas. unfold iteration. rewrite Hpeek.
  apply N.ltb_ge in Hintr. rewrite Hintr.
  unfold runTx. cbn [stateManager set_stateManager emit checkpoint
    set_trace set_currentlyExecutingPrice world sm_checkpoint checkpoints].
  rewrite Hvm. cbn [fst snd].
  apply N.leb_gt in Hgas. rewrite Hgas.
  eexists _, _. split; [reflexivity|].
  split; [simpl; by destruct (stateManager s)|].
  split; [simpl; by rewrite <-!app_assoc|].
  split; [exact (is_locked_unlock best _)|].
  split; [done|]. split; [done|].
  split; [by apply removeBest_perm|]. done.
Qed.

Lemma removeBest_more_peek (less : list Transaction → nat → nat → bool) h :
  (Heap.removeBest less h).2 = true →
  ∃ next, Heap.peek (Heap.removeBest less h).1 = Some next.
Proof.
  intros Hm. apply removeBest_true in Hm.
  pose proof (length_removeBest less h) as Hlen.
  destruct (Heap.removeBest less h).1 as [|next rest] eqn:E.
  - simpl in Hlen. lia.
  - by exists next.
Qed.

(** A pass during which no other call of [mine] arrives: when the EVM
    throws for a transaction, [#runTx] returns [null]
    after it has removed the head of the origin's heap in the pool, has
    put the next transaction of that heap (locked) at the root of the
    priced heap if there is one and dropped the root otherwise, and has
    finalized the transaction as "rejected" with a runtime error that
    carries the EVM's message and program counter 0.  Nothing is thrown:
    the pass reverts the transaction-level checkpoint, leaves the block
    under construction as it is and goes on with the loop. *)
Lemma throwing_pass maxTransactions s l best w message pendingOrigin :
  Heap.peek (priced s) = Some best →
  intrinsicGas best ≤ blockGasLeft l →
  vm_runTx best (block l) (world (stateManager s)) = (w, Thrown message) →
  map_get (from best) (executables_pending s) = Some pendingOrigin →
  let s1 := checkpoint (set_currentlyExecutingPrice (gasPrice best) s) in
  let po := Heap.removeBest byNonce pendingOrigin in
  ∃ s2,
    runTx best (block l) (from best) s1 = Ok (s2, None)
    ∧ iteration maxTransactions s l = Ok (Next, revert s2, l)
    ∧ executables_pending s2
      = map_set (from best) po.1 (executables_pending s)
    ∧ (∀ head, Heap.peek pendingOrigin = Some head →
               pendingOrigin ≡ₚ head :: po.1)
    ∧ (if po.2
       then ∃ next, Heap.peek po.1 = Some next
              ∧ priced s2 = (Heap.replaceBest byPrice next (priced s)).1
              ∧ is_locked next s2 = true
              ∧ locked s2 = next :: locked s
       else priced s2 = (Heap.removeBest byPrice (priced s)).1
            ∧ locked s2 = locked s)
    ∧ trace s2
      = trace s ++ [Checkpoint; RunTx best (Thrown message);
                    Finalize best "rejected"
                      (mkRuntimeError (hash best) 0 message []
                         TRANSACTION_HASH)]
    ∧ trace (revert s2) = trace s2 ++ [Revert]
    ∧ stateManager (revert s2) = stateManager s.
Proof.
  intros Hpeek Hintr Hvm Hget s1 po.
  assert (runTx best (block l) (from best) s1
          = Ok (emit (Finalize best "rejected"
                        (mkRuntimeError (hash best) 0 message []
                           TRANSACTION_HASH))
                  (let s := set_executables_pending
                              (map_set (from best) po.1 (executables_pending s))
                              (emit (RunTx best (Thrown message))
                                 (set_stateManager
                                    (mkStateManager w
                                       (checkpoints (stateManager s1))) s1)) in
                   if po.2 then (replaceFromHeap po.1 s).1
                   else (priced_removeBest s).1), None)) as Hrun.
  { unfold runTx. subst s1.
    cbn [stateManager set_stateManager emit checkpoint set_trace
         set_currentlyExecutingPrice world sm_checkpoint checkpoints].
    rewrite Hvm. simpl. by rewrite Hget. }
  eexists. split; [exact Hrun|].
  split.
  { unfold iteration. rewrite Hpeek.
    apply N.ltb_ge in Hintr. rewrite Hintr.
    fold s1. by rewrite Hrun. }
  split.
  { subst po. destruct (Heap.removeBest byNonce pendingOrigin).2;
      [unfold replaceFromHeap;
       destruct (Heap.peek (Heap.removeBest byNonce pendingOrigin).1)|];
      reflexivity. }
  split; [intros head Hhead; by apply removeBest_perm|].
  split.
  { destruct po.2 eqn:Hmore.
    - destruct (removeBest_more_peek byNonce pendingOrigin Hmore)
        as [next Hnext].
      exists next. fold po in Hnext. split; [done|].
      unfold replaceFromHeap. rewrite Hnext. cbn.
      split; [done|]. split; [|done].
      apply bool_decide_eq_true. left.
    - done. }
  split.
  { destruct po.2; [unfold replaceFromHeap; destruct (Heap.peek po.1)|];
      cbn; by rewrite <-!app_assoc. }
  split; [done|].
  destruct po.2; [unfold replaceFromHeap; destruct (Heap.peek po.1)|];
    cbn; by destruct (stateManager s).
Qed.

(** ** [#updatePricedHeap], origin by origin *)

(** The three conditions under which the head of a mapping of [pending]
    enters the priced heap. *)
Definition admits s (mapping : string * list Transaction) : bool :=
  match Heap.peek mapping.2 with
  | Some next =>
      negb (is_locked next s)
      && negb (gasPrice next <? currentlyExecutingPrice s)
      && negb (bool_decide (from next ∈ origins s))
  | None => false
  end.

(** C7: [#updatePricedHeap] goes through the mappings of [pending] in
    order.  When it reaches a mapping, it pushes the head of that heap
    into the priced heap, sets its [locked] flag and adds its origin to
    the origin set exactly when the head exists and is not locked,
    [currentlyExecutingPrice] is not greater than its gas price, and its
    origin is not in the origin set; otherwise that step changes
    nothing. *)
Theorem C7_updatePricedHeap_step s before mapping after :
  executables_pending s = before ++ mapping :: after →
  let s1 := foldl updatePricedHeap_body s before in
  let s2 := updatePricedHeap_body s1 mapping in
  updatePricedHeap s = foldl updatePricedHeap_body s2 after
  ∧ (admits s1 mapping = true ↔
     ∃ next, Heap.peek mapping.2 = Some next
             ∧ is_locked next s1 = false
             ∧ ¬ gasPrice next < currentlyExecutingPrice s1
             ∧ from next ∉ origins s1)
  ∧ (if admits s1 mapping
     then ∃ next, Heap.peek mapping.2 = Some next
            ∧ priced s2 = Heap.push byPrice next (priced s1)
            ∧ priced s2 ≡ₚ next :: priced s1
            ∧ is_locked next s2 = true
            ∧ locked s2 = next :: locked s1
            ∧ origins s2 = {[from next]} ∪ origins s1
     else s2 = s1).
Proof. clear vm_runTx.
  intros Hpending s1 s2. split; [|split].
  - unfold updatePricedHeap. rewrite Hpending.
    by rewrite foldl_app.
  - unfold admits. destruct (Heap.peek mapping.2) as [next|]; [|naive_solver].
    rewrite !andb_true_iff, !negb_true_iff, N.ltb_ge, bool_decide_eq_false.
    split.
    + intros [[? ?] ?]. exists next. repeat split; try done. lia.
    + intros (? & [= <-] & ? & ? & ?). repeat split; try done. lia.
  - subst s2. unfold admits, updatePricedHeap_body.
    destruct (Heap.peek mapping.2) as [next|]; [|done].
    destruct (is_locked next s1); [done|].
    destruct (gasPrice next <? currentlyExecutingPrice s1); [done|].
    destruct (bool_decide (from next ∈ origins s1)); [done|].
    cbn. exists next. split; [done|]. split; [done|].
    split; [apply push_perm|]. split; [|done].
    apply bool_decide_eq_true. left.
Qed.

(** A call of [mine] on a busy miner does not enter the selection loop:
    whatever the arguments, it sets [pending], runs [#updatePricedHeap]
    and returns [undefined]; it makes no call to the state manager, the VM
    or the emitter, and leaves [isBusy] set. *)
Lemma mine_while_busy fuel blk maxTransactions onlyOneBlock s :
  isBusy s = true →
  let s' := updatePricedHeap (set_pending true s) in
  mine fuel blk maxTransactions onlyOneBlock s = Ok (s', None)
  ∧ pending s' = true
  ∧ isBusy s' = true
  ∧ trace s' = trace s
  ∧ stateManager s' = stateManager s
  ∧ executables_pending s' = executables_pending s
  ∧ executables_inProgress s' = executables_inProgress s.
Proof.
  intros Hbusy s'. unfold mine. rewrite Hbusy. split; [done|].
  destruct (updatePricedHeap_surroundings (set_pending true s))
    as (Ht & Hsm & Hp & Hb & _ & Hep & Hip).
  subst s'. by rewrite Ht, Hsm, Hp, Hb, Hep, Hip.
Qed.

(** ** The seed phase and [maxTransactions = 0] *)

(** Every head of the pool has its [locked] flag set. *)
Definition heads_locked (ms : list (string * list Transaction)) s : Prop :=
  ∀ m tx, m ∈ ms → Heap.peek m.2 = Some tx → is_locked tx s = true.

(** What the seed phase does to the locks and the heap: locks are only
    added, and a transaction that it locks is in the heap afterwards. *)
Definition seeded s s' : Prop :=
  locked s ⊆ locked s'
  ∧ (∀ tx, tx ∈ priced s → tx ∈ priced s')
  ∧ (∀ tx, tx ∈ locked s' → tx ∉ locked s → tx ∈ priced s').

Lemma seeded_refl s : seeded s s.
Proof. unfold seeded. set_solver. Qed.

Lemma seeded_trans s1 s2 s3 : seeded s1 s2 → seeded s2 s3 → seeded s1 s3.
Proof. clear vm_runTx.
  intros (Ha & Hb & Hc) (Ha' & Hb' & Hc'). split; [set_solver|].
  split; [auto|]. intros tx H3 H1.
  destruct (decide (tx ∈ locked s2)); auto.
Qed.

Lemma setPricedHeap_body_seeded s m : seeded s (setPricedHeap_body s m).
Proof. clear vm_runTx.
  unfold setPricedHeap_body.
  destruct (Heap.peek m.2) as [next|]; [|apply seeded_refl].
  destruct (is_locked next s); [apply seeded_refl|].
  split; [simpl; set_solver|]. simpl.
  split; intros tx; rewrite (push_perm byPrice next (priced s)); set_solver.
Qed.

Lemma setPricedHeap_body_locks s m tx :
  Heap.peek m.2 = Some tx → is_locked tx (setPricedHeap_body s m) = true.
Proof.
  intros Hm. unfold setPricedHeap_body. rewrite Hm.
  destruct (is_locked tx s) eqn:E; [done|]. apply is_locked_lock.
Qed.

Lemma is_locked_mono s s' tx :
  locked s ⊆ locked s' → is_locked tx s = true → is_locked tx s' = true.
Proof. clear vm_runTx.
  unfold is_locked. rewrite !bool_decide_eq_true. set_solver.
Qed.

Lemma foldl_setPricedHeap_seeded ms s :
  seeded s (foldl setPricedHeap_body s ms).
Proof.
  revert s. induction ms as [|m ms IH]; intros s; simpl.
  - apply seeded_refl.
  - eapply seeded_trans; [apply setPricedHeap_body_seeded|apply IH].
Qed.

Lemma foldl_setPricedHeap_locks ms s :
  heads_locked ms (foldl setPricedHeap_body s ms).
Proof.
  revert s. induction ms as [|m ms IH]; intros s m' tx Hin Hpeek; simpl.
  - by apply elem_of_nil in Hin.
  - apply elem_of_cons in Hin as [->|Hin]; [|by eapply IH].
    eapply is_locked_mono; [apply foldl_setPricedHeap_seeded|].
    by apply setPricedHeap_body_locks.
Qed.

Lemma setPricedHeap_heads_locked s :
  heads_locked (executables_pending s) (setPricedHeap s).
Proof. apply foldl_setPricedHeap_locks. Qed.

Lemma foldl_setPricedHeap_idle ms s :
  heads_locked ms s → foldl setPricedHeap_body s ms = s.
Proof.
  induction ms as [|m ms IH]; intros Hl; simpl; [done|].
  assert (setPricedHeap_body s m = s) as ->.
  { unfold setPricedHeap_body.
    destruct (Heap.peek m.2) as [next|] eqn:E; [|done].
    by rewrite (Hl m next) by (done || left). }
  apply IH. intros m' tx Hin. apply Hl. by right.
Qed.

Lemma foldl_updatePricedHeap_idle ms s :
  heads_locked ms s → foldl updatePricedHeap_body s ms = s.
Proof.
  induction ms as [|m ms IH]; intros Hl; simpl; [done|].
  assert (updatePricedHeap_body s m = s) as ->.
  { unfold updatePricedHeap_body.
    destruct (Heap.peek m.2) as [next|] eqn:E; [|done].
    by rewrite (Hl m next) by (done || left). }
  apply IH. intros m' tx Hin. apply Hl. by right.
Qed.

Lemma heads_locked_ext ms s s' :
  locked s' = locked s → heads_locked ms s → heads_locked ms s'.
Proof.
  intros Heq Hl m tx Hin Hpeek. unfold is_locked. rewrite Heq.
  by apply (Hl m tx).
Qed.


Lemma selection_empty fuel maxTransactions s l :
  priced s = [] → selection (S fuel) maxTransactions s l = Ok (s, l).
Proof.
  intros Hp. cbn [selection]. unfold iteration. by rewrite Hp.
Qed.



(** ** Gas accounting *)

Definition receipt_gas (r : nat * Receipt) : N :=
  result_gasUsed (receipt_result r.2).

(** The gas used by the transactions of a block, summed over their
    receipts. *)
Definition receipts_gas (receipts : list (nat * Receipt)) : N :=
  foldr (λ r acc, receipt_gas r + acc) 0 receipts.

(** The accepted transactions of a block are those of its receipts, in
    order; their gas adds up to the block's [gasUsed], which stays within
    the limit. *)
Definition block_gas_ok (b : BlockData) : Prop :=
  blockTransactions b = (λ r, receipt_tx r.2) <$> receiptTrie b
  ∧ receipts_gas (receiptTrie b) = gasUsed b
  ∧ gasUsed b ≤ blockGasLimit.

Definition locals_ok l : Prop :=
  numTransactions l = length (blockTransactions (blockData l))
  ∧ blockTransactions (blockData l)
    = (λ r, receipt_tx r.2) <$> receiptTrie (blockData l)
  ∧ receipts_gas (receiptTrie (blockData l)) = gasUsed (blockData l)
  ∧ gasUsed (blockData l) + blockGasLeft l = blockGasLimit.

Lemma receipts_gas_snoc receipts r :
  receipts_gas (receipts ++ [r]) = receipts_gas receipts + receipt_gas r.
Proof.
  induction receipts as [|r' receipts IH]; simpl; [lia|]. rewrite IH. lia.
Qed.

Lemma array_set_length {A} (xs : list A) x :
  array_set xs (length xs) x = xs ++ [x].
Proof. unfold array_set. by rewrite Nat.ltb_irrefl. Qed.

(** The ways a pass of the selection loop can go, read off the code. *)
Ltac pass_cases H :=
  unfold iteration, runTx, refill, replaceFromHeap, priced_removeBest in H;
  cbn [fst snd] in H;
  repeat match type of H with
    | context [vm_runTx ?tx ?b ?w] =>
        let Hvm := fresh "Hvm" in
        destruct (vm_runTx tx b w) as [? ?] eqn:Hvm; cbn [fst snd] in H
    | context [match ?x with _ => _ end] =>
        lazymatch x with
        | context [match _ with _ => _ end] => fail
        | _ => let E := fresh "E" in destruct x eqn:E
        end
    end;
  simplify_eq.

Lemma iteration_locals_ok maxTransactions s l f s' l' :
  locals_ok l → iteration maxTransactions s l = Ok (f, s', l') →
  locals_ok l'.
Proof.
  intros (Hn & Htx & Hsum & Hgas) H. pass_cases H; try done.
  all: unfold locals_ok; cbn.
  all: try match goal with E : (_ <=? _) = true |- _ => apply N.leb_le in E end.
  all: rewrite Hn, array_set_length, length_app, fmap_app, receipts_gas_snoc;
    cbn; rewrite <-Htx, Hsum; split_and!; try done; unfold receipt_gas; cbn; lia.
Qed.

(** ** What a call adds to the trace *)

(** The state a call leaves behind, however it ends. *)
Definition outcome_state {A} (get : A → State) (o : Outcome State A) : State :=
  match o with
  | Ok a => get a
  | TypeError s => s
  | OutOfFuel s => s
  end.

(** [s'] comes after [s], and every block emitted in between keeps the gas
    accounts. *)
Definition extends_ok s s' : Prop :=
  ∃ evs, trace s' = trace s ++ evs ∧ ∀ b, EmitBlock b ∈ evs → block_gas_ok b.

Lemma extends_ok_refl s : extends_ok s s.
Proof. exists []. rewrite app_nil_r. split; [done|]. set_solver. Qed.

Lemma extends_ok_trans s1 s2 s3 :
  extends_ok s1 s2 → extends_ok s2 s3 → extends_ok s1 s3.
Proof.
  intros (e1 & H1 & Hb1) (e2 & H2 & Hb2). exists (e1 ++ e2).
  rewrite H2, H1, app_assoc. split; [done|].
  intros b [?|?]%elem_of_app; auto.
Qed.

Lemma extends_ok_same s s' : trace s' = trace s → extends_ok s s'.
Proof. intros H. exists []. rewrite app_nil_r. split; [done|]. set_solver. Qed.

Ltac quiet_trace :=
  unfold extends_ok; cbn; rewrite <-?app_assoc;
  first [ exists []; rewrite app_nil_r; split; [reflexivity|set_solver]
        | eexists; split; [reflexivity|]; set_solver ].

Lemma iteration_extends maxTransactions s l :
  extends_ok s (outcome_state (λ r, r.1.2) (iteration maxTransactions s l)).
Proof.
  destruct (iteration maxTransactions s l) as [[[f s'] l']|s'|s'] eqn:H;
    pass_cases H; quiet_trace.
Qed.

Lemma selection_extends fuel maxTransactions s l :
  extends_ok s (outcome_state fst (selection fuel maxTransactions s l)).
Proof.
  revert s l. induction fuel as [|fuel IH]; intros s l; cbn [selection].
  { apply extends_ok_refl. }
  pose proof (iteration_extends maxTransactions s l) as Hit.
  destruct (iteration maxTransactions s l) as [[[[] s'] l']|s'|s'];
    cbn in Hit |- *; try done.
  eapply extends_ok_trans; [exact Hit|apply IH].
Qed.

Lemma selection_locals_ok fuel maxTransactions s l s' l' :
  locals_ok l → selection fuel maxTransactions s l = Ok (s', l') →
  locals_ok l'.
Proof.
  revert s l. induction fuel as [|fuel IH]; intros s l Hl; cbn [selection];
    [done|].
  destruct (iteration maxTransactions s l) as [[[f s1] l1]|s1|s1] eqn:Hit;
    [|done..].
  apply (iteration_locals_ok _ _ _ _ _ _ Hl) in Hit.
  destruct f; intros H; simplify_eq; eauto.
Qed.

Lemma locals_ok_block_gas_ok l : locals_ok l → block_gas_ok (blockData l).
Proof. intros (_ & Htx & Hsum & Hgas). split_and!; [done..|lia]. Qed.

Lemma locals_ok_initial keep blk :
  locals_ok (mkLocals keep (mkBlockData [] [] [] 0 (header_timestamp blk))
               0 blockGasLimit blk).
Proof. split_and!; try done; cbn; lia. Qed.

Lemma block_gas_ok_empty ts : block_gas_ok (mkBlockData [] [] [] 0 ts).
Proof. split_and!; try done; cbn; lia. Qed.

Lemma mineTxs_extends fuel blk maxTransactions onlyOneBlock s :
  extends_ok s
    (outcome_state fst (mineTxs fuel blk maxTransactions onlyOneBlock s)).
Proof.
  revert blk maxTransactions s.
  induction fuel as [|fuel IH]; intros blk maxTransactions s; cbn [mineTxs].
  { apply extends_ok_refl. }
  destruct (maxTransactions =? 0)%Z.
  { unfold extends_ok. cbn. rewrite <-!app_assoc.
    eexists. split; [reflexivity|].
    intros b Hb. repeat (apply elem_of_cons in Hb as [Hb|Hb]; [simplify_eq|]).
    - apply block_gas_ok_empty.
    - by apply elem_of_nil in Hb. }
  set (s0 := checkpoint (set_isBusy true s)).
  set (l0 := mkLocals false _ 0 blockGasLimit blk).
  assert (extends_ok s s0) as Hs0 by quiet_trace.
  pose proof (selection_extends (selection_fuel s0) maxTransactions s0 l0) as Hsel.
  destruct (selection (selection_fuel s0) maxTransactions s0 l0)
    as [[s1 l1]|s1|s1] eqn:Hrun; cbn [outcome_state fst] in Hsel |- *;
    [|by eapply extends_ok_trans..].
  assert (locals_ok l1) as Hl1
    by (eapply selection_locals_ok; [apply locals_ok_initial|exact Hrun]).
  set (s2 := set_currentlyExecutingPrice 0
               (emit (EmitBlock (blockData l1)) (commit s1))).
  assert (extends_ok s s2) as Hs2.
  { eapply extends_ok_trans; [exact Hs0|].
    eapply extends_ok_trans; [exact Hsel|].
    unfold extends_ok. cbn. rewrite <-!app_assoc.
    eexists. split; [reflexivity|].
    intros b Hb. repeat (apply elem_of_cons in Hb as [Hb|Hb]; [simplify_eq|]).
    - by apply locals_ok_block_gas_ok.
    - by apply elem_of_nil in Hb. }
  destruct onlyOneBlock.
  { cbn. eapply extends_ok_trans; [exact Hs2|]. by apply extends_ok_same. }
  assert (extends_ok s (updatePricedHeap s2)) as Hs3.
  { eapply extends_ok_trans; [exact Hs2|].
    apply extends_ok_same, updatePricedHeap_surroundings. }
  destruct (negb _); destruct (keepMining l1); cbn [outcome_state fst].
  - eapply extends_ok_trans; [exact Hs3|apply IH].
  - done.
  - eapply extends_ok_trans; [|apply IH].
    eapply extends_ok_trans; [exact Hs3|]. by apply extends_ok_same.
  - eapply extends_ok_trans; [exact Hs3|]. by apply extends_ok_same.
Qed.

Lemma mine_private_extends fuel blk maxTransactions onlyOneBlock s :
  extends_ok s
    (outcome_state fst (mine_private fuel blk maxTransactions onlyOneBlock s)).
Proof.
  revert blk maxTransactions onlyOneBlock s.
  induction fuel as [|fuel IH]; intros blk maxTransactions onlyOneBlock s.
  { apply extends_ok_refl. }
  cbn [mine_private].
  pose proof (mineTxs_extends (S fuel) blk maxTransactions onlyOneBlock s) as H1.
  destruct (mineTxs (S fuel) blk maxTransactions onlyOneBlock s)
    as [[s1 [lastBlock transactions]]|s1|s1]; cbn [outcome_state fst] in *;
    [|done..].
  destruct (negb onlyOneBlock && pending s1); [|done].
  set (s2 := set_pending false (setPricedHeap s1)).
  pose proof (IH (createBlock lastBlock) (if instamine then 1 else -1)%Z
                false s2) as H2.
  assert (extends_ok s s2) as Hs2.
  { eapply extends_ok_trans; [exact H1|].
    apply extends_ok_same. apply (setPricedHeap_surroundings s1). }
  destruct (mine_private fuel _ _ false s2) as [[s3 r]|s3|s3];
    cbn [outcome_state fst] in *; by eapply extends_ok_trans.
Qed.

(** C2: whatever a call of [mine] does and however it ends, every block
    it emits lists the transactions of its receipts, the gas used by these
    adds up to the block's [gasUsed], and that total is within
    [blockGasLimit]; and a pass of the selection loop that writes to the
    block under construction does so for the best transaction with a
    result whose gas fits into the gas left, which it takes off the gas
    left and adds to the gas used. *)
Theorem C2_block_gas_within_limit :
  (∀ fuel blk maxTransactions onlyOneBlock s,
     ∃ evs,
       trace (outcome_state fst (mine fuel blk maxTransactions onlyOneBlock s))
       = trace s ++ evs
       ∧ ∀ b, EmitBlock b ∈ evs →
              blockTransactions b = (λ r, receipt_tx r.2) <$> receiptTrie b
              ∧ receipts_gas (receiptTrie b) = gasUsed b
              ∧ gasUsed b ≤ blockGasLimit)
  ∧ (∀ maxTransactions s l f s' l',
       iteration maxTransactions s l = Ok (f, s', l') →
       blockData l' ≠ blockData l →
       ∃ best result,
         Heap.peek (priced s) = Some best
         ∧ result_gasUsed result ≤ blockGasLeft l
         ∧ blockGasLeft l' = blockGasLeft l - result_gasUsed result
         ∧ gasUsed (blockData l')
           = gasUsed (blockData l) + result_gasUsed result
         ∧ blockTransactions (blockData l')
           = array_set (blockTransactions (blockData l))
               (numTransactions l) best
         ∧ receiptTrie (blockData l')
           = receiptTrie (blockData l)
             ++ [(numTransactions l,
                  mkReceipt best result (gasUsed (blockData l')))]).
Proof.
  split.
  - intros fuel blk maxTransactions onlyOneBlock s.
    change (extends_ok s
      (outcome_state fst (mine fuel blk maxTransactions onlyOneBlock s))).
    unfold mine. destruct (isBusy s).
    { cbn. apply extends_ok_same.
      apply (updatePricedHeap_surroundings (set_pending true s)). }
    pose proof (mine_private_extends fuel blk maxTransactions onlyOneBlock
                  (setPricedHeap s)) as H.
    assert (extends_ok s (setPricedHeap s)) as H0
      by apply extends_ok_same, setPricedHeap_surroundings.
    destruct (mine_private fuel _ _ _ (setPricedHeap s)) as [[s1 r]|s1|s1];
      cbn [outcome_state fst] in *.
    + eapply extends_ok_trans; [exact H0|].
      eapply extends_ok_trans; [exact H|]. quiet_trace.
    + by eapply extends_ok_trans.
    + by eapply extends_ok_trans.
  - intros maxTransactions s l f s' l' H Hne. pass_cases H; try done.
    all: match goal with E : (_ <=? _) = true |- _ => apply N.leb_le in E end.
    all: by eexists _, _.
Qed.

(** ** The checkpoint discipline *)

















(** ** The selection loop comes to an end *)

Definition heaps_size (m : list (string * list Transaction)) : nat :=
  sum_list (map (λ mapping, length mapping.2) m).

Lemma heaps_size_map_set k v m h :
  map_get k m = Some h →
  (heaps_size (map_set k v m) + length h = heaps_size m + length v)%nat.
Proof.
  induction m as [|[k' h'] m IH]; [done|]. cbn.
  destruct (decide (k' = k)); intros H; simplify_eq.
  - cbn. lia.
  - specialize (IH H). cbn. unfold heaps_size in IH. lia.
Qed.

Lemma iteration_decreases maxTransactions s l s' l' :
  iteration maxTransactions s l = Ok (Next, s', l') →
  (length (priced s') + pool_size s' < length (priced s) + pool_size s)%nat.
Proof.
  intros H. pass_cases H.
  all: match goal with
       | E : Heap.peek (priced _) = Some _ |- _ =>
           pose proof (peek_Some_length _ _ E) as Hpos
       end.
  all: repeat match goal with
       | E : map_get _ (executables_pending _) = Some ?h |- _ =>
           let Hm := fresh "Hm" in
           pose proof (heaps_size_map_set _ (Heap.removeBest byNonce h).1 _ _ E)
             as Hm;
           rewrite (length_removeBest byNonce h) in Hm;
           cbn in Hm; revert E
       | E : (Heap.removeBest _ ?h).2 = true |- _ =>
           apply removeBest_true in E
       end; intros.
  all: unfold pool_size; cbn;
       rewrite ?length_removeBest, ?length_replaceBest
         by (intros Hnil; rewrite Hnil in Hpos; cbn in Hpos; lia);
       lia.
Qed.

Lemma selection_terminates fuel maxTransactions s l :
  (length (priced s) + pool_size s < fuel)%nat →
  ∀ s', selection fuel maxTransactions s l ≠ OutOfFuel s'.
Proof.
  revert s l. induction fuel as [|fuel IH]; intros s l Hlt s'; [lia|].
  cbn [selection].
  destruct (iteration maxTransactions s l) as [[[[] s1] l1]|s1|s1] eqn:Hit;
    try done.
  { apply iteration_decreases in Hit. apply IH. lia. }
  intros [= ->]. pass_cases Hit.
Qed.

(** The budget that [#mineTxs] hands to the selection loop is enough. *)
Lemma selection_fuel_enough maxTransactions s l :
  ∀ s', selection (selection_fuel s) maxTransactions s l ≠ OutOfFuel s'.
Proof. apply selection_terminates. unfold selection_fuel. lia. Qed.

(** ** Priority *)

(** [byPrice] compares the gas prices of the two slots. *)
Definition price_lt (x y : Transaction) : bool := gasPrice y <? gasPrice x.

Definition price_ordered (a : list Transaction) : Prop := ordered price_lt a.

Lemma byPrice_spec a i j :
  byPrice a i j = match a !! i, a !! j with
                  | Some x, Some y => price_lt x y
                  | _, _ => false
                  end.
Proof. reflexivity. Qed.

Lemma price_lt_asym x y : price_lt x y = true → price_lt y x = false.
Proof. clear vm_runTx World. unfold price_lt. rewrite N.ltb_lt, N.ltb_ge. lia. Qed.

Lemma price_lt_negtrans x y z :
  price_lt y x = false → price_lt z y = false → price_lt z x = false.
Proof. clear vm_runTx World. unfold price_lt. rewrite !N.ltb_ge. lia. Qed.

Lemma price_ordered_push x a :
  price_ordered a → price_ordered (Heap.push byPrice x a).
Proof.
  exact (push_ordered byPrice price_lt byPrice_spec price_lt_asym
           price_lt_negtrans x a).
Qed.

Lemma price_ordered_removeBest a :
  price_ordered a → price_ordered (Heap.removeBest byPrice a).1.
Proof.
  exact (removeBest_ordered byPrice price_lt byPrice_spec price_lt_asym
           price_lt_negtrans a).
Qed.

Lemma price_ordered_replaceBest x a :
  price_ordered a → price_ordered (Heap.replaceBest byPrice x a).1.
Proof.
  exact (replaceBest_ordered byPrice price_lt byPrice_spec price_lt_asym
           price_lt_negtrans x a).
Qed.

(** The root of the priced heap has a greatest gas price. *)
Lemma peek_price_max a best tx :
  price_ordered a → Heap.peek a = Some best → tx ∈ a →
  gasPrice tx ≤ gasPrice best.
Proof.
  intros Ha Hbest [i Hi]%list_elem_of_lookup.
  pose proof (ordered_root price_lt price_lt_asym price_lt_negtrans
                a best Ha Hbest i tx Hi) as H.
  unfold price_lt in H. by apply N.ltb_ge in H.
Qed.

Lemma iteration_ordered maxTransactions s l f s' l' :
  price_ordered (priced s) → iteration maxTransactions s l = Ok (f, s', l') →
  price_ordered (priced s').
Proof.
  intros Ho H. pass_cases H; cbn;
    first [ exact Ho
          | exact (price_ordered_removeBest _ Ho)
          | exact (price_ordered_replaceBest _ _ Ho) ].
Qed.

Lemma setPricedHeap_ordered s :
  price_ordered (priced s) → price_ordered (priced (setPricedHeap s)).
Proof.
  unfold setPricedHeap. generalize (executables_pending s) as ms.
  intros ms. revert s. induction ms as [|m ms IH]; intros s Ho; [done|].
  cbn [foldl]. apply IH. unfold setPricedHeap_body.
  repeat case_match; cbn; first [exact Ho|exact (price_ordered_push _ _ Ho)].
Qed.

Lemma updatePricedHeap_ordered s :
  price_ordered (priced s) → price_ordered (priced (updatePricedHeap s)).
Proof.
  unfold updatePricedHeap. generalize (executables_pending s) as ms.
  intros ms. revert s. induction ms as [|m ms IH]; intros s Ho; [done|].
  cbn [foldl]. apply IH. unfold updatePricedHeap_body.
  repeat case_match; cbn; first [exact Ho|exact (price_ordered_push _ _ Ho)].
Qed.

Lemma reset_ordered s : price_ordered (priced (reset s)).
Proof. apply ordered_nil. Qed.

(** Passes of the selection loop that go on to the next one. *)
Inductive passes (maxTransactions : Z) : State → Locals → State → Locals → Prop :=
| passes_refl s l : passes maxTransactions s l s l
| passes_step s l s1 l1 s2 l2 :
    iteration maxTransactions s l = Ok (Next, s1, l1) →
    passes maxTransactions s1 l1 s2 l2 →
    passes maxTransactions s l s2 l2.

Lemma passes_invariant maxTransactions s0 l0 s l :
  passes maxTransactions s0 l0 s l →
  price_ordered (priced s0) → locals_ok l0 →
  price_ordered (priced s) ∧ locals_ok l.
Proof.
  induction 1 as [|s l s1 l1 s2 l2 Hit _ IH]; [done|].
  intros Ho Hl. apply IH.
  - by eapply iteration_ordered.
  - by eapply iteration_locals_ok.
Qed.

(** C9: in the selection loop of a block, started on a priced heap that is
    in heap order, a transaction that a pass accepts into the block has a
    gas price at least as high as that of every transaction that is in the
    priced heap when the pass selects it: the pass takes the root of the
    heap, which has a greatest gas price.  (This holds for every
    transaction in the heap at that moment, whether or not it is accepted
    later and whatever its origin.)  Heap order holds for the empty heap
    and is kept by the seed phase, by [#updatePricedHeap], by every pass
    and by [#reset]. *)
Theorem C9_priority maxTransactions s0 l0 s l f s' l' tx_i tx_j :
  price_ordered (priced s0) →
  locals_ok l0 →
  passes maxTransactions s0 l0 s l →
  iteration maxTransactions s l = Ok (f, s', l') →
  blockTransactions (blockData l')
  = blockTransactions (blockData l) ++ [tx_i] →
  tx_j ∈ priced s →
  Heap.peek (priced s) = Some tx_i
  ∧ gasPrice tx_j ≤ gasPrice tx_i
  ∧ price_ordered (priced s').
Proof.
  intros Ho Hl Hp Hit Hacc Hj.
  destruct (passes_invariant _ _ _ _ _ Hp Ho Hl) as [Ho' (Hn & _)].
  assert (price_ordered (priced s')) as Ho'' by (by eapply iteration_ordered).
  assert (Heap.peek (priced s) = Some tx_i) as Hpeek.
  { pass_cases Hit; cbn in Hacc.
    all: try (apply (f_equal length) in Hacc; rewrite length_app in Hacc;
              cbn in Hacc; lia).
    all: rewrite Hn, array_set_length in Hacc;
      apply app_inj_tail in Hacc as [_ Heq]; congruence. }
  split; [done|]. split; [|done].
  exact (peek_price_max _ _ _ Ho' Hpeek Hj).
Qed.

(** ** Well-formed pools: no [TypeError] *)

(** The pool keeps one heap per origin, under the origin of its
    transactions. *)
Definition pool_wf (m : list (string * list Transaction)) : Prop :=
  NoDup m.*1 ∧ ∀ k h tx, (k, h) ∈ m → tx ∈ h → from tx = k.

(** The pool has a heap for the origin of every transaction in the priced
    heap. *)
Definition priced_known s : Prop :=
  ∀ tx, tx ∈ priced s → is_Some (map_get (from tx) (executables_pending s)).

Definition wf s : Prop := pool_wf (executables_pending s) ∧ priced_known s.

Lemma map_get_Some_elem {V} k (m : list (string * V)) v :
  map_get k m = Some v → (k, v) ∈ m.
Proof.
  induction m as [|[k' v'] m IH]; [done|]. cbn.
  destruct (decide (k' = k)) as [->|]; intros H; simplify_eq; [left|].
  right. auto.
Qed.

Lemma map_get_elem {V} k (m : list (string * V)) v :
  NoDup m.*1 → (k, v) ∈ m → map_get k m = Some v.
Proof.
  induction m as [|[k' v'] m IH]; intros Hnd Hin; [by apply elem_of_nil in Hin|].
  cbn in *. apply NoDup_cons in Hnd as [Hk Hnd].
  apply elem_of_cons in Hin as [[= -> ->]|Hin].
  - by rewrite decide_True.
  - rewrite decide_False; [auto|]. intros ->. apply Hk.
    apply list_elem_of_fmap. by exists (k, v).
Qed.

Lemma map_set_keys {V} k (v : V) m : (map_set k v m).*1 = m.*1.
Proof.
  induction m as [|[k' v'] m IH]; [done|]. cbn.
  destruct (decide (k' = k)); cbn; [done|]. by rewrite IH.
Qed.

Lemma map_set_elem {V} k (v : V) m k' v' :
  (k', v') ∈ map_set k v m → (k', v') ∈ m ∨ (k' = k ∧ v' = v).
Proof.
  induction m as [|[k0 v0] m IH]; [by intros ?%elem_of_nil|]. cbn.
  destruct (decide (k0 = k)) as [->|].
  - intros [[= -> ->]|?]%elem_of_cons; [by right|]. left. by right.
  - intros [[= -> ->]|?]%elem_of_cons; [left; left|].
    destruct IH as [?|?]; [done|left; by right|by right].
Qed.

Lemma map_get_map_set_is_Some {V} k (v : V) m k' :
  is_Some (map_get k' (map_set k v m)) ↔ is_Some (map_get k' m).
Proof.
  induction m as [|[k0 v0] m IH]; [done|]. cbn.
  destruct (decide (k0 = k)) as [->|]; cbn.
  - destruct (decide (k = k')); [|done]. split; eauto.
  - destruct (decide (k0 = k')); [|done]. split; eauto.
Qed.

Lemma removeBest_subset (less : list Transaction → nat → nat → bool) h tx :
  tx ∈ (Heap.removeBest less h).1 → tx ∈ h.
Proof.
  destruct (Heap.peek h) as [x|] eqn:Hx.
  - rewrite (removeBest_perm less h x Hx) at 2. by right.
  - apply peek_None in Hx as ->. done.
Qed.

Lemma replaceBest_subset (less : list Transaction → nat → nat → bool) h x tx :
  tx ∈ (Heap.replaceBest less x h).1 → tx = x ∨ tx ∈ h.
Proof.
  destruct (Heap.peek h) as [y|] eqn:Hy.
  - intros Hin. assert (tx ∈ y :: (Heap.replaceBest less x h).1) as Hin'
      by (by right).
    rewrite <-(replaceBest_perm less h y x Hy) in Hin'.
    by apply elem_of_cons in Hin'.
  - apply peek_None in Hy as ->. cbn. intros ->%list_elem_of_singleton.
    by left.
Qed.

Lemma peek_elem (h : list Transaction) tx : Heap.peek h = Some tx → tx ∈ h.
Proof. intros H. by eapply list_elem_of_lookup_2. Qed.

Lemma pool_wf_removeBest m k h :
  pool_wf m → map_get k m = Some h →
  pool_wf (map_set k (Heap.removeBest byNonce h).1 m).
Proof.
  intros [Hnd Hkey] Hget. split; [by rewrite map_set_keys|].
  intros k' h' tx [Hin|[-> ->]]%map_set_elem Htx.
  - by eapply Hkey.
  - eapply Hkey; [by apply map_get_Some_elem|]. by eapply removeBest_subset.
Qed.

(** On a well-formed state a pass neither throws nor runs out of budget,
    and leaves a well-formed state. *)
Lemma iteration_wf maxTransactions s l :
  wf s →
  match iteration maxTransactions s l with
  | Ok (_, s', _) => wf s'
  | _ => False
  end.
Proof.
  intros [Hpool Hknown].
  destruct (iteration maxTransactions s l) as [[[f s'] l']|s'|s'] eqn:H;
    pass_cases H; cbn in *.
  all: try match goal with
       | E : Heap.peek (priced _) = Some ?t |- _ =>
           pose proof (Hknown t (peek_elem _ _ E)) as Hbest
       end.
  all: try match goal with
       | E : map_get _ _ = None |- False =>
           rewrite E in Hbest; by destruct Hbest
       end.
  all: unfold wf, priced_known; cbn; split;
    [ first [ exact Hpool | by apply pool_wf_removeBest ] | ].
  all: intros tx Htx; rewrite ?map_get_map_set_is_Some.
  all: try (apply Hknown; first [ exact Htx | by eapply removeBest_subset ]).
  all: apply replaceBest_subset in Htx as [->|Htx]; [|by apply Hknown].
  all: match goal with
       | Eg : map_get (from ?t) _ = Some ?h,
         En : Heap.peek (Heap.removeBest byNonce ?h).1 = Some ?n |- _ =>
           replace (from n) with (from t); [done|];
           symmetry; apply (proj2 Hpool (from t) h n);
           [ by apply map_get_Some_elem
           | eapply removeBest_subset, peek_elem, En ]
       end.
Qed.

Lemma wf_ext s s' :
  priced s' = priced s → executables_pending s' = executables_pending s →
  wf s → wf s'.
Proof.
  intros Hp He [Hpool Hknown]. split; [by rewrite He|].
  intros tx. rewrite Hp, He. apply Hknown.
Qed.

Lemma wf_push s (m : string * list Transaction) next s' :
  wf s → m ∈ executables_pending s → Heap.peek m.2 = Some next →
  priced s' = Heap.push byPrice next (priced s) →
  executables_pending s' = executables_pending s →
  wf s'.
Proof.
  intros [Hpool Hknown] Hin Hpeek Hp He. split; [by rewrite He|].
  intros tx. rewrite Hp, He, (push_perm byPrice next (priced s)).
  intros [->|Htx]%elem_of_cons; [|by apply Hknown].
  destruct m as [k h]. cbn in Hpeek.
  rewrite (proj2 Hpool k h next Hin (peek_elem _ _ Hpeek)).
  rewrite (map_get_elem k _ h (proj1 Hpool) Hin). by eexists.
Qed.

Lemma foldl_setPricedHeap_wf ms s :
  wf s → (∀ m, m ∈ ms → m ∈ executables_pending s) →
  wf (foldl setPricedHeap_body s ms).
Proof.
  revert s. induction ms as [|m ms IH]; intros s Hwf Hms; [done|].
  cbn [foldl].
  assert (m ∈ executables_pending s) as Hm by (apply Hms; left).
  destruct (setPricedHeap_body_surroundings s m) as (_ & _ & _ & _ & _ & He & _).
  apply IH.
  - unfold setPricedHeap_body in *.
    destruct (Heap.peek m.2) as [next|] eqn:Hpeek; [|done].
    destruct (is_locked next s); [done|]. by eapply wf_push.
  - intros m' Hm'. rewrite He. apply Hms. by right.
Qed.

Lemma foldl_updatePricedHeap_wf ms s :
  wf s → (∀ m, m ∈ ms → m ∈ executables_pending s) →
  wf (foldl updatePricedHeap_body s ms).
Proof.
  revert s. induction ms as [|m ms IH]; intros s Hwf Hms; [done|].
  cbn [foldl].
  assert (m ∈ executables_pending s) as Hm by (apply Hms; left).
  destruct (updatePricedHeap_body_surroundings s m)
    as (_ & _ & _ & _ & _ & He & _).
  apply IH.
  - unfold updatePricedHeap_body in *.
    destruct (Heap.peek m.2) as [next|] eqn:Hpeek; [|done].
    repeat (case_match; [done|]). by eapply wf_push.
  - intros m' Hm'. rewrite He. apply Hms. by right.
Qed.

Lemma setPricedHeap_wf s : wf s → wf (setPricedHeap s).
Proof. intros H. by apply foldl_setPricedHeap_wf. Qed.

Lemma updatePricedHeap_wf s : wf s → wf (updatePricedHeap s).
Proof. intros H. by apply foldl_updatePricedHeap_wf. Qed.

Lemma reset_wf s : wf s → wf (reset s).
Proof.
  intros [Hpool _]. split; [done|]. by intros tx ?%elem_of_nil.
Qed.

(** How a call ends on a well-formed state: with a well-formed state, or
    with the budget of the embedding used up, never with a [TypeError]. *)
Definition ends_wf {A} (get : A → State) (o : Outcome State A) : Prop :=
  match o with
  | Ok a => wf (get a)
  | TypeError _ => False
  | OutOfFuel _ => True
  end.

Lemma selection_wf fuel maxTransactions s l :
  wf s → ends_wf fst (selection fuel maxTransactions s l).
Proof.
  revert s l. induction fuel as [|fuel IH]; intros s l Hwf; [done|].
  cbn [selection]. pose proof (iteration_wf maxTransactions s l Hwf) as Hit.
  destruct (iteration maxTransactions s l) as [[[[] s'] l']|s'|s'];
    cbn; try done.
  by apply IH.
Qed.

Lemma mineTxs_wf fuel blk maxTransactions onlyOneBlock s :
  wf s → ends_wf fst (mineTxs fuel blk maxTransactions onlyOneBlock s).
Proof.
  revert blk maxTransactions s.
  induction fuel as [|fuel IH]; intros blk maxTransactions s Hwf; [done|].
  cbn [mineTxs]. destruct (maxTransactions =? 0)%Z.
  { cbn. by apply reset_wf, (wf_ext s). }
  set (s0 := checkpoint (set_isBusy true s)).
  assert (wf s0) as Hwf0 by (by apply (wf_ext s)).
  pose proof (selection_wf (selection_fuel s0) maxTransactions s0
                (mkLocals false
                   (mkBlockData [] [] [] 0 (header_timestamp blk)) 0
                   blockGasLimit blk) Hwf0) as Hsel.
  destruct (selection _ _ s0 _) as [[s1 l1]|s1|s1]; cbn in Hsel; try done.
  set (s2 := set_currentlyExecutingPrice 0
               (emit (EmitBlock (blockData l1)) (commit s1))).
  assert (wf s2) as Hwf2 by (by apply (wf_ext s1)).
  destruct onlyOneBlock; [by apply reset_wf|].
  pose proof (updatePricedHeap_wf s2 Hwf2) as Hwf3.
  destruct (negb _); destruct (keepMining l1); cbn [ends_wf fst];
    auto using reset_wf.
Qed.

Lemma mine_private_wf fuel blk maxTransactions onlyOneBlock s :
  wf s → ends_wf fst (mine_private fuel blk maxTransactions onlyOneBlock s).
Proof.
  revert blk maxTransactions onlyOneBlock s.
  induction fuel as [|fuel IH]; intros blk maxTransactions onlyOneBlock s Hwf;
    [done|].
  cbn [mine_private].
  pose proof (mineTxs_wf (S fuel) blk maxTransactions onlyOneBlock s Hwf) as H1.
  destruct (mineTxs (S fuel) blk maxTransactions onlyOneBlock s)
    as [[s1 [lastBlock transactions]]|s1|s1]; cbn in H1; try done.
  destruct (negb onlyOneBlock && pending s1); [|done].
  set (s2 := set_pending false (setPricedHeap s1)).
  assert (wf s2) as Hwf2
    by (apply (wf_ext (setPricedHeap s1)); [done..|by apply setPricedHeap_wf]).
  pose proof (IH (createBlock lastBlock) (if instamine then 1 else -1)%Z
                false s2 Hwf2) as H2.
  by destruct (mine_private fuel _ _ false s2) as [[s3 r]|s3|s3].
Qed.

Lemma mine_wf fuel blk maxTransactions onlyOneBlock s :
  wf s → ends_wf fst (mine fuel blk maxTransactions onlyOneBlock s).
Proof.
  intros Hwf. unfold mine. destruct (isBusy s).
  { exact (updatePricedHeap_wf _
             (wf_ext s (set_pending true s) eq_refl eq_refl Hwf)). }
  pose proof (mine_private_wf fuel blk maxTransactions onlyOneBlock
                (setPricedHeap s) (setPricedHeap_wf s Hwf)) as H.
  by destruct (mine_private fuel _ _ _ _) as [[s1 r]|s1|s1].
Qed.

(** ** [#mineTxs] comes to an end *)

(** The origins of the pool that are not in the origin set. *)
Definition free_origins s : list string :=
  filter (λ k, k ∉ origins s) (executables_pending s).*1.

(** What is left to do: the transactions in the pool, those in the priced
    heap, and the origins that [#updatePricedHeap] may still take up. *)
Definition potential s : nat :=
  (pool_size s + length (priced s) + length (free_origins s))%nat.

Lemma filter_delete_absent (keys : list string) (X : gset string) k :
  k ∉ keys →
  filter (λ k', k' ∉ X ∖ {[k]}) keys = filter (λ k', k' ∉ X) keys.
Proof.
  induction keys as [|k0 keys IH]; intros Hk; [done|].
  apply not_elem_of_cons in Hk as [Hne Hk]. rewrite !filter_cons, IH by done.
  destruct (decide (k0 ∉ X)).
  - by rewrite decide_True by set_solver.
  - by rewrite decide_False by set_solver.
Qed.

Lemma filter_delete_length (keys : list string) (X : gset string) k :
  NoDup keys →
  (length (filter (λ k', k' ∉ X ∖ {[k]}) keys)
   ≤ S (length (filter (λ k', k' ∉ X) keys)))%nat.
Proof.
  induction keys as [|k0 keys IH]; intros Hnd; [cbn; lia|].
  apply NoDup_cons in Hnd as [Hk0 Hnd]. specialize (IH Hnd).
  rewrite !filter_cons.
  destruct (decide (k0 ∉ X)) as [Hf|Hf].
  - rewrite decide_True by set_solver. cbn. lia.
  - destruct (decide (k0 ∉ X ∖ {[k]})) as [Hd|Hd]; [|lia].
    assert (k0 = k) as -> by (apply dec_stable; set_solver).
    rewrite filter_delete_absent by done. cbn. lia.
Qed.

Lemma filter_insert_length (keys : list string) (X : gset string) k :
  (length (filter (λ k', k' ∉ {[k]} ∪ X) keys)
   ≤ length (filter (λ k', k' ∉ X) keys))%nat.
Proof.
  induction keys as [|k0 keys IH]; [done|]. rewrite !filter_cons.
  destruct (decide (k0 ∉ {[k]} ∪ X)).
  - rewrite decide_True by set_solver. cbn. lia.
  - destruct (decide (k0 ∉ X)); cbn; lia.
Qed.

Lemma filter_insert_length_lt (keys : list string) (X : gset string) k :
  k ∈ keys → k ∉ X →
  (length (filter (λ k', k' ∉ {[k]} ∪ X) keys)
   < length (filter (λ k', k' ∉ X) keys))%nat.
Proof.
  induction keys as [|k0 keys IH]; intros Hin Hk; [by apply elem_of_nil in Hin|].
  rewrite !filter_cons.
  pose proof (filter_insert_length keys X k) as Hle.
  apply elem_of_cons in Hin as [->|Hin].
  - rewrite decide_False by set_solver. rewrite decide_True by done.
    cbn. lia.
  - specialize (IH Hin Hk).
    destruct (decide (k0 ∉ {[k]} ∪ X)).
    + rewrite decide_True by set_solver. cbn. lia.
    + destruct (decide (k0 ∉ X)); cbn; lia.
Qed.

(** A pass never adds to what is left to do, and takes something off
    whenever it assigns [keepMining]. *)
Lemma iteration_potential maxTransactions s l f s' l' :
  NoDup (executables_pending s).*1 →
  iteration maxTransactions s l = Ok (f, s', l') →
  (potential s' ≤ potential s)%nat
  ∧ (keepMining l' = true →
     keepMining l = true ∨ (potential s' < potential s)%nat).
Proof.
  intros Hnd H. pass_cases H.
  all: try match goal with
       | E : Heap.peek (priced _) = Some ?t |- _ =>
           pose proof (peek_Some_length _ _ E) as Hpos;
           pose proof (filter_delete_length _ (origins s) (from t) Hnd) as Hdel
       end.
  all: repeat match goal with
       | E : map_get _ (executables_pending _) = Some ?h |- _ =>
           let Hm := fresh "Hm" in
           pose proof (heaps_size_map_set _ (Heap.removeBest byNonce h).1 _ _ E)
             as Hm;
           rewrite (length_removeBest byNonce h) in Hm;
           cbn in Hm; revert E
       | E : (Heap.removeBest _ ?h).2 = true |- _ =>
           apply removeBest_true in E
       end; intros.
  all: unfold potential, pool_size, free_origins; cbn;
       rewrite ?map_set_keys, ?length_removeBest, ?length_replaceBest
         by (intros Hnil; rewrite Hnil in Hpos; cbn in Hpos; lia).
  all: split; [lia|]; intros Hk; first [by left | right; lia].
Qed.

Lemma selection_potential fuel maxTransactions s l s' l' :
  wf s → selection fuel maxTransactions s l = Ok (s', l') →
  (potential s' ≤ potential s)%nat
  ∧ (keepMining l' = true →
     keepMining l = true ∨ (potential s' < potential s)%nat).
Proof.
  revert s l. induction fuel as [|fuel IH]; intros s l Hwf; [done|].
  cbn [selection].
  pose proof (iteration_wf maxTransactions s l Hwf) as Hwf1.
  destruct (iteration maxTransactions s l) as [[[f s1] l1]|s1|s1] eqn:Hit;
    [|done..].
  apply iteration_potential in Hit as [Hle Hk]; [|apply Hwf].
  destruct f; intros H; simplify_eq; try done.
  apply IH in H as [Hle' Hk']; [|done].
  split; [lia|]. intros Hkeep. destruct (Hk' Hkeep) as [Hk1|?]; [|right; lia].
  destruct (Hk Hk1); [by left|right; lia].
Qed.

(** The pool only shrinks, and the [pending] flag is left alone. *)
Definition shrinks s s' : Prop :=
  pending s' = pending s
  ∧ (pool_size s' ≤ pool_size s)%nat
  ∧ length (executables_pending s') = length (executables_pending s).

Lemma shrinks_trans s1 s2 s3 : shrinks s1 s2 → shrinks s2 s3 → shrinks s1 s3.
Proof.
  intros (? & ? & ?) (? & ? & ?). split_and!; [congruence|lia|congruence].
Qed.

Lemma shrinks_same s s' :
  pending s' = pending s →
  executables_pending s' = executables_pending s → shrinks s s'.
Proof. intros Hp He. unfold shrinks, pool_size. by rewrite Hp, He. Qed.

Lemma length_map_set {V} k (v : V) m : length (map_set k v m) = length m.
Proof. by rewrite <-(length_fmap fst), map_set_keys, length_fmap. Qed.

Lemma iteration_shrinks maxTransactions s l f s' l' :
  iteration maxTransactions s l = Ok (f, s', l') → shrinks s s'.
Proof.
  intros H. pass_cases H.
  all: repeat match goal with
       | E : map_get _ (executables_pending _) = Some ?h |- _ =>
           let Hm := fresh "Hm" in
           pose proof (heaps_size_map_set _ (Heap.removeBest byNonce h).1 _ _ E)
             as Hm;
           rewrite (length_removeBest byNonce h) in Hm;
           cbn in Hm; revert E
       end; intros.
  all: unfold shrinks, pool_size; cbn; rewrite ?length_map_set;
       split_and!; done || lia.
Qed.

Lemma selection_shrinks fuel maxTransactions s l s' l' :
  selection fuel maxTransactions s l = Ok (s', l') → shrinks s s'.
Proof.
  revert s l. induction fuel as [|fuel IH]; intros s l; [done|].
  cbn [selection].
  destruct (iteration maxTransactions s l) as [[[f s1] l1]|s1|s1] eqn:Hit;
    [|done..].
  apply iteration_shrinks in Hit.
  destruct f; intros H; simplify_eq; try done.
  eapply shrinks_trans; [done|by eapply IH].
Qed.

Lemma updatePricedHeap_shrinks s : shrinks s (updatePricedHeap s).
Proof.
  destruct (updatePricedHeap_surroundings s) as (_ & _ & Hp & _ & _ & He & _).
  by apply shrinks_same.
Qed.

Lemma setPricedHeap_shrinks s : shrinks s (setPricedHeap s).
Proof.
  destruct (setPricedHeap_surroundings s) as (_ & _ & Hp & _ & _ & He & _).
  by apply shrinks_same.
Qed.

Lemma free_origins_length s :
  (length (free_origins s) ≤ length (executables_pending s))%nat.
Proof.
  unfold free_origins. rewrite <-(length_fmap fst (executables_pending s)).
  apply length_filter.
Qed.

Lemma updatePricedHeap_body_potential s m :
  wf s → m ∈ executables_pending s →
  (potential (updatePricedHeap_body s m) ≤ potential s)%nat.
Proof. clear vm_runTx.
  intros [[Hnd Hkey] _] Hin. unfold updatePricedHeap_body.
  destruct (Heap.peek m.2) as [next|] eqn:Hpeek; [|done].
  destruct (is_locked next s); [done|].
  destruct (gasPrice next <? currentlyExecutingPrice s); [done|].
  destruct (bool_decide (from next ∈ origins s)) eqn:Ho; [done|].
  apply bool_decide_eq_false in Ho.
  unfold potential, pool_size, free_origins. cbn -[Heap.push].
  rewrite length_push.
  assert (from next ∈ (executables_pending s).*1) as Hk.
  { destruct m as [k h]. cbn in Hpeek.
    rewrite (Hkey k h next Hin (peek_elem _ _ Hpeek)).
    apply list_elem_of_fmap. by exists (k, h). }
  pose proof (filter_insert_length_lt _ (origins s) _ Hk Ho). lia.
Qed.

Lemma foldl_updatePricedHeap_potential ms s :
  wf s → (∀ m, m ∈ ms → m ∈ executables_pending s) →
  (potential (foldl updatePricedHeap_body s ms) ≤ potential s)%nat.
Proof.
  revert s. induction ms as [|m ms IH]; intros s Hwf Hms; [done|].
  cbn [foldl].
  assert (m ∈ executables_pending s) as Hm by (apply Hms; left).
  pose proof (updatePricedHeap_body_potential s m Hwf Hm) as Hle.
  destruct (updatePricedHeap_body_surroundings s m)
    as (_ & _ & _ & _ & _ & He & _).
  etrans; [apply IH|exact Hle].
  - apply (foldl_updatePricedHeap_wf [m] s Hwf).
    by intros m' ->%list_elem_of_singleton.
  - intros m' Hm'. rewrite He. apply Hms. by right.
Qed.

Lemma updatePricedHeap_potential s :
  wf s → (potential (updatePricedHeap s) ≤ potential s)%nat.
Proof. intros H. by apply foldl_updatePricedHeap_potential. Qed.

Lemma setPricedHeap_body_potential s m :
  (potential (setPricedHeap_body s m) ≤ S (potential s))%nat.
Proof. clear vm_runTx.
  unfold setPricedHeap_body.
  destruct (Heap.peek m.2) as [next|] eqn:Hpeek; [|lia].
  destruct (is_locked next s); [lia|].
  unfold potential, pool_size, free_origins. cbn -[Heap.push].
  rewrite length_push.
  pose proof (filter_insert_length (executables_pending s).*1 (origins s)
                (from next)). lia.
Qed.

Lemma foldl_setPricedHeap_potential ms s :
  (potential (foldl setPricedHeap_body s ms) ≤ potential s + length ms)%nat.
Proof.
  revert s. induction ms as [|m ms IH]; intros s; cbn [foldl length]; [lia|].
  pose proof (setPricedHeap_body_potential s m).
  pose proof (IH (setPricedHeap_body s m)). lia.
Qed.

Lemma setPricedHeap_potential s :
  (potential (setPricedHeap s)
   ≤ potential s + length (executables_pending s))%nat.
Proof. apply foldl_setPricedHeap_potential. Qed.

Lemma potential_reset s :
  (potential (reset s) ≤ pool_size s + length (executables_pending s))%nat.
Proof.
  pose proof (free_origins_length (reset s)) as H.
  unfold potential. cbn in *. unfold pool_size. lia.
Qed.

Lemma selection_ok maxTransactions s l :
  wf s →
  ∃ s' l', selection (selection_fuel s) maxTransactions s l = Ok (s', l')
    ∧ wf s' ∧ shrinks s s'
    ∧ (potential s' ≤ potential s)%nat
    ∧ (keepMining l' = true →
       keepMining l = true ∨ (potential s' < potential s)%nat).
Proof.
  intros Hwf.
  pose proof (selection_wf (selection_fuel s) maxTransactions s l Hwf) as H1.
  pose proof (selection_fuel_enough maxTransactions s l) as H2.
  destruct (selection (selection_fuel s) maxTransactions s l)
    as [[s' l']|s'|s'] eqn:Hsel; [|done|by destruct (H2 s')].
  exists s', l'. split; [done|]. split; [done|].
  split; [by eapply selection_shrinks|]. by eapply selection_potential.
Qed.

(** [#mineTxs] returns on every well-formed state, given a budget of two
    passes more than what is left to do (one pass is enough on an empty
    priced heap). *)
Lemma mineTxs_total fuel blk maxTransactions onlyOneBlock s :
  wf s →
  (potential s + 2 ≤ fuel)%nat ∨ (priced s = [] ∧ 1 ≤ fuel)%nat →
  ∃ s' r, mineTxs fuel blk maxTransactions onlyOneBlock s = Ok (s', r)
    ∧ wf s' ∧ shrinks s s'
    ∧ (potential s'
       ≤ potential s `max` (pool_size s + length (executables_pending s)))%nat.
Proof.
  revert blk maxTransactions s.
  induction fuel as [|fuel IH]; intros blk maxTransactions s Hwf Hfuel;
    [lia|].
  cbn [mineTxs].
  set (bound := (potential s `max`
                 (pool_size s + length (executables_pending s)))%nat).
  assert (∀ s1, wf s1 → shrinks s s1 →
            wf (reset s1) ∧ shrinks s (reset s1)
            ∧ (potential (reset s1) ≤ bound)%nat) as Hreset.
  { intros s1 Hwf1 (Hp & Hs & Hl). split; [by apply reset_wf|].
    split; [by split_and!|].
    pose proof (potential_reset s1). subst bound. lia. }
  destruct (maxTransactions =? 0)%Z.
  { eexists _, _. split; [reflexivity|].
    apply Hreset; [by apply (wf_ext s)|by apply shrinks_same]. }
  set (s0 := checkpoint (set_isBusy true s)).
  set (l0 := mkLocals false _ 0 blockGasLimit blk).
  assert (wf s0) as Hwf0 by (by apply (wf_ext s)).
  destruct (selection_ok maxTransactions s0 l0 Hwf0)
    as (s1 & l1 & Hsel & Hwf1 & Hsh1 & Hle1 & Hk1).
  rewrite Hsel.
  assert (keepMining l1 = true → (potential s1 < potential s)%nat
                                  ∧ (potential s + 2 ≤ S fuel)%nat) as Hkeep.
  { intros Hk. destruct Hfuel as [Hfuel|[Hempty _]].
    - destruct (Hk1 Hk) as [?|?]; [done|].
      change (potential s0) with (potential s) in *. by split.
    - subst s0. unfold selection_fuel in Hsel.
      rewrite selection_empty in Hsel by done. by simplify_eq. }
  set (s2 := set_currentlyExecutingPrice 0
               (emit (EmitBlock (blockData l1)) (commit s1))).
  assert (wf s2) as Hwf2 by (by apply (wf_ext s1)).
  assert (shrinks s s2) as Hsh2.
  { apply (shrinks_trans _ s0); [by apply shrinks_same|].
    apply (shrinks_trans _ s1); [done|by apply shrinks_same]. }
  destruct onlyOneBlock.
  { eexists _, _. split; [reflexivity|]. by apply Hreset. }
  set (s3 := updatePricedHeap s2).
  pose proof (updatePricedHeap_wf s2 Hwf2) as Hwf3.
  pose proof (updatePricedHeap_potential s2 Hwf2) as Hle3.
  assert (shrinks s s3) as Hsh3
    by (eapply shrinks_trans; [exact Hsh2|apply updatePricedHeap_shrinks]).
  assert (potential s0 = potential s) as Hp0 by reflexivity.
  assert (potential s2 = potential s1) as Hp2 by reflexivity.
  assert (potential s3 ≤ potential s1)%nat as Hle31 by (subst s3; lia).
  assert (potential s3 ≤ potential s)%nat as Hle by lia.
  assert (∀ s4 blk' maxTransactions',
            wf s4 → shrinks s s4 →
            (potential s4 `max`
               (pool_size s4 + length (executables_pending s4)) ≤ bound)%nat →
            (potential s4 + 2 ≤ fuel)%nat ∨ (priced s4 = [] ∧ 1 ≤ fuel)%nat →
            ∃ s' r, mineTxs fuel blk' maxTransactions' false s4 = Ok (s', r)
              ∧ wf s' ∧ shrinks s s' ∧ (potential s' ≤ bound)%nat) as Hgo.
  { intros s4 blk' maxTransactions' Hwf4 Hsh4 Hb4 Hf4.
    destruct (IH blk' maxTransactions' s4 Hwf4 Hf4)
      as (s' & r & Hrun & Hwf' & Hsh' & Hle').
    exists s', r. split; [done|]. split; [done|].
    split; [by eapply shrinks_trans|]. lia. }
  destruct (negb (length (priced s3) =? 0)%nat) eqn:Hlen;
    destruct (keepMining l1) eqn:Hk.
  - destruct (Hkeep eq_refl). apply Hgo; [done..| |left; lia].
    destruct Hsh3 as (_ & ? & ?). subst bound. lia.
  - exists s3. eexists. split; [reflexivity|]. split; [done|].
    split; [done|]. subst bound. lia.
  - destruct (Hkeep eq_refl). apply Hgo.
    + by apply reset_wf.
    + destruct Hsh3 as (? & ? & ?). by split_and!.
    + pose proof (potential_reset s3). destruct Hsh3 as (_ & ? & ?).
      subst bound. cbn [reset set_isBusy set_priced set_origins
                           executables_pending] in *.
      unfold pool_size in *. cbn in *. lia.
    + right. split; [done|lia].
  - eexists _, _. split; [reflexivity|]. by apply Hreset.
Qed.

(** The budget that is enough for [mine]: what is left to do, and two
    seed phases. *)
Definition mine_budget s : nat :=
  (potential s + 2 * length (executables_pending s) + 3)%nat.

Lemma mine_private_total fuel blk maxTransactions onlyOneBlock s :
  wf s →
  (potential s `max` (pool_size s + length (executables_pending s))
   + length (executables_pending s) + 3 ≤ fuel)%nat →
  ∃ s' r, mine_private fuel blk maxTransactions onlyOneBlock s = Ok (s', r)
    ∧ wf s'.
Proof.
  intros Hwf Hfuel. destruct fuel as [|fuel]; [lia|]. cbn [mine_private].
  destruct (mineTxs_total (S fuel) blk maxTransactions onlyOneBlock s Hwf)
    as (s1 & [lastBlock transactions] & Hrun & Hwf1 & (Hp1 & Hs1 & Hl1) & Hle1);
    [left; lia|].
  rewrite Hrun. destruct (negb onlyOneBlock && pending s1); [|by eexists _, _].
  set (s2 := set_pending false (setPricedHeap s1)).
  assert (wf s2) as Hwf2
    by (apply (wf_ext (setPricedHeap s1)); [done..|by apply setPricedHeap_wf]).
  assert (potential s2 ≤ potential s1 + length (executables_pending s1))%nat
    as Hle2 by apply setPricedHeap_potential.
  destruct fuel as [|fuel]; [lia|]. cbn [mine_private].
  destruct (mineTxs_total (S fuel) (createBlock lastBlock)
              (if instamine then 1 else -1)%Z false s2 Hwf2)
    as (s3 & [lastBlock' transactions'] & Hrun' & Hwf3 & (Hp3 & _) & _);
    [left; lia|].
  rewrite Hrun', Hp3. cbn. by eexists _, _.
Qed.

(** On a well-formed state and with the budget [mine_budget], [mine]
    returns. *)
Lemma mine_total fuel blk maxTransactions onlyOneBlock s :
  wf s → (mine_budget s ≤ fuel)%nat →
  ∃ s' r, mine fuel blk maxTransactions onlyOneBlock s = Ok (s', r) ∧ wf s'.
Proof.
  intros Hwf Hfuel. unfold mine. destruct (isBusy s).
  { eexists _, _. split; [reflexivity|].
    exact (updatePricedHeap_wf _
             (wf_ext s (set_pending true s) eq_refl eq_refl Hwf)). }
  pose proof (setPricedHeap_potential s) as Hle.
  destruct (setPricedHeap_shrinks s) as (_ & Hs & Hl).
  assert (pool_size s ≤ potential s)%nat by (unfold potential; lia).
  destruct (mine_private_total fuel blk maxTransactions onlyOneBlock
              (setPricedHeap s) (setPricedHeap_wf s Hwf))
    as (s1 & r & Hrun & Hwf1); [unfold mine_budget in Hfuel; lia|].
  rewrite Hrun. eexists _, _. split; [reflexivity|]. by apply (wf_ext s1).
Qed.


End miner_facts.

(** * The theorems at work on the small instance *)

Ltac evaluate := first [reflexivity | vm_compute; congruence | lia].

Lemma C4_intrinsic_gas_skip_witness :
  let s := setPricedHeap (Example.idle [("0xee", [Example.tE])]) in
  let l := Example.start 30000 in
  (Heap.peek (priced s) = Some Example.tE
   ∧ blockGasLeft l < intrinsicGas Example.tE)
  ∧ ∃ s', iteration Example.vm 21000 (-1) s l = Ok (Next, s', l)
      ∧ priced s' = []
      ∧ is_locked Example.tE s' = false
      ∧ ("0xee" ∉ origins s')
      ∧ trace s' = []
      ∧ executables_pending s' = [("0xee", [Example.tE])].
Proof.
  intros s l. split; [split; reflexivity|].
  destruct (C4_intrinsic_gas_skip Example.vm 21000 (-1) s l Example.tE)
    as (s' & Hit & Hpriced & _ & Hlocked & _ & Horigins & Htrace & _ & Hpool & _);
    [evaluate..|].
  exists s'. split_and!; try done.
  rewrite Horigins. set_solver.
Defined.

Lemma C7_updatePricedHeap_step_witness :
  let s := Example.idle [("0xaa", [Example.tA]); ("0xbb", [Example.tB])] in
  let s1 := foldl updatePricedHeap_body s [("0xaa", [Example.tA])] in
  let s2 := updatePricedHeap_body s1 ("0xbb", [Example.tB]) in
  executables_pending s
  = [("0xaa", [Example.tA])] ++ ("0xbb", [Example.tB]) :: []
  ∧ updatePricedHeap s = s2
  ∧ admits s1 ("0xbb", [Example.tB]) = true
  ∧ priced s2 = [Example.tB; Example.tA].
Proof.
  intros s s1 s2. split; [reflexivity|].
  destruct (C7_updatePricedHeap_step s [("0xaa", [Example.tA])]
              ("0xbb", [Example.tB]) [])
    as (Hfold & _ & _); [reflexivity|].
  split; [exact Hfold|]. split; reflexivity.
Defined.


Lemma C2_block_gas_within_limit_witness :
  let s := Example.idle [("0xaa", [Example.tA; Example.tA2]);
                         ("0xbb", [Example.tB])] in
  ∃ s' txs b,
    mine Example.vm Example.createBlock 100000 false 21000
      3 Example.genesis (-1) false s = Ok (s', Some txs)
    ∧ EmitBlock b ∈ trace s'
    ∧ blockTransactions b = [Example.tB; Example.tA; Example.tA2]
    ∧ receipts_gas (receiptTrie b) = 64000
    ∧ gasUsed b = 64000
    ∧ gasUsed b ≤ 100000.
Proof.
  intros s.
  destruct (proj1 (C2_block_gas_within_limit Example.vm Example.createBlock
                     100000 false 21000) 3%nat Example.genesis (-1)%Z false s)
    as (evs & Htrace & Hblocks).
  destruct (mine Example.vm Example.createBlock 100000 false 21000
              3 Example.genesis (-1) false s) as [[s' [txs|]]|?|?] eqn:Hmine;
    try (vm_compute in Hmine; discriminate).
  cbn [outcome_state fst] in Htrace.
  assert (trace s' !! 11%nat
          = Some (EmitBlock
                    (mkBlockData [Example.tB; Example.tA; Example.tA2]
                       [(0%nat, Example.tB); (1%nat, Example.tA);
                        (2%nat, Example.tA2)]
                       [(0%nat, mkReceipt Example.tB
                                  (mkRunTxResult 21000 []) 21000);
                        (1%nat, mkReceipt Example.tA
                                  (mkRunTxResult 21000 []) 42000);
                        (2%nat, mkReceipt Example.tA2
                                  (mkRunTxResult 22000 []) 64000)]
                       64000 0))) as Hb.
  { vm_compute in Hmine. injection Hmine as <- _. reflexivity. }
  assert (EmitBlock
            (mkBlockData [Example.tB; Example.tA; Example.tA2]
               [(0%nat, Example.tB); (1%nat, Example.tA);
                (2%nat, Example.tA2)]
               [(0%nat, mkReceipt Example.tB (mkRunTxResult 21000 []) 21000);
                (1%nat, mkReceipt Example.tA (mkRunTxResult 21000 []) 42000);
                (2%nat, mkReceipt Example.tA2 (mkRunTxResult 22000 []) 64000)]
               64000 0) ∈ evs) as Hin.
  { apply list_elem_of_lookup_2 in Hb. rewrite Htrace in Hb.
    by apply elem_of_app in Hb as [?%elem_of_nil|?]. }
  destruct (Hblocks _ Hin) as (_ & Hsum & Hle).
  eexists s', txs, _. split; [reflexivity|].
  split; [by eapply list_elem_of_lookup_2|]. by split_and!.
Defined.


Lemma C9_priority_witness :
  let s := setPricedHeap
             (Example.idle [("0xaa", [Example.tA; Example.tA2]);
                            ("0xbb", [Example.tB])]) in
  let l := Example.start 100000 in
  (price_ordered (priced s)
   ∧ locals_ok 100000 l
   ∧ passes Example.vm 21000 (-1) s l s l
   ∧ Example.tA ∈ priced s)
  ∧ ∃ f s' l',
      iteration Example.vm 21000 (-1) s l = Ok (f, s', l')
      ∧ blockTransactions (blockData l')
        = blockTransactions (blockData l) ++ [Example.tB]
      ∧ gasPrice Example.tA ≤ gasPrice Example.tB.
Proof.
  intros s l.
  assert (price_ordered (priced s)) as Ho
    by apply setPricedHeap_ordered, ordered_nil.
  assert (locals_ok 100000 l) as Hl by (split_and!; evaluate).
  assert (passes Example.vm 21000 (-1) s l s l) as Hp by constructor.
  assert (Example.tA ∈ priced s) as Hj
    by (apply (list_elem_of_lookup_2 _ 1%nat); reflexivity).
  split; [done|].
  destruct (iteration Example.vm 21000 (-1) s l) as [[[f s'] l']|?|?] eqn:Hit;
    try (vm_compute in Hit; discriminate).
  assert (blockTransactions (blockData l')
          = blockTransactions (blockData l) ++ [Example.tB]) as Hacc.
  { vm_compute in Hit. injection Hit as _ _ <-. reflexivity. }
  exists f, s', l'. split; [reflexivity|]. split; [done|].
  by destruct (C9_priority Example.vm 100000 21000 (-1) s l s l f s' l'
                 Example.tB Example.tA Ho Hl Hp Hit Hacc Hj) as (_ & Hle & _).
Defined.

(** C1, on the code: after the seed phase and two passes of the selection
    loop (one accepts the transaction of "0xff", the next runs that of
    "0xcc", which does not fit into the gas left), the priced heap is
    empty and yet "0xcc" and "0xff" are in the origin set;
    [#updatePricedHeap] then passes over the transaction of "0xcc",
    unlocked at the head of its heap in the pool, because its origin is
    still in the set.  The pass that skips a transaction for its intrinsic
    gas deletes the origin (C4); the passes that accept, overflow or
    reject a transaction and drop the root do not. *)
Lemma C1_origin_outlives_priced_tx :
  let s0 := setPricedHeap
              (Example.idle [("0xcc", [Example.tC]); ("0xff", [Example.tF])]) in
  let l0 := Example.start 100000 in
  ∃ s1 l1 s2 l2,
    iteration Example.vm 21000 (-1) s0 l0 = Ok (Next, s1, l1)
    ∧ iteration Example.vm 21000 (-1) s1 l1 = Ok (Next, s2, l2)
    ∧ blockTransactions (blockData l2) = [Example.tF]
    ∧ priced s2 = []
    ∧ elements (origins s2) = ["0xcc"; "0xff"]
    ∧ is_locked Example.tC s2 = false
    ∧ map_get "0xcc" (executables_pending s2) = Some [Example.tC]
    ∧ priced (updatePricedHeap (set_currentlyExecutingPrice 0 s2)) = []
    ∧ ¬ (∀ origin, origin ∈ origins s2
                   ↔ ∃ tx, tx ∈ priced s2 ∧ from tx = origin).
Proof.
  intros s0 l0.
  destruct (iteration Example.vm 21000 (-1) s0 l0)
    as [[[f1 s1] l1]|?|?] eqn:H1; try (vm_compute in H1; discriminate).
  destruct f1; try (vm_compute in H1; discriminate).
  destruct (iteration Example.vm 21000 (-1) s1 l1)
    as [[[f2 s2] l2]|?|?] eqn:H2;
    try (vm_compute in H1; injection H1 as <- <-;
         vm_compute in H2; discriminate).
  destruct f2;
    try (vm_compute in H1; injection H1 as <- <-;
         vm_compute in H2; discriminate).
  exists s1, l1, s2, l2. split; [done|]. split; [done|].
  vm_compute in H1. injection H1 as <- <-.
  vm_compute in H2. injection H2 as <- <-.
  split_and!; try (vm_compute; reflexivity).
  intros H. destruct (proj1 (H "0xcc")) as (tx & Htx & _).
  - apply elem_of_elements. vm_compute. apply list_elem_of_here.
  - by apply elem_of_nil in Htx.
Qed.

(** * Further properties of the miner *)

Section miner_more.
Context {World : Type}.
Variable vm_runTx : Transaction → Block → World → World * VMOutcome.
Variable createBlock : Block → Block.
Variable blockGasLimit : N.
Variable instamine : bool.
Variable TRANSACTION_GAS : N.

Local Abbreviation State := (@State World).
Local Abbreviation runTx := (runTx vm_runTx).
Local Abbreviation iteration := (iteration vm_runTx TRANSACTION_GAS).
Local Abbreviation selection := (selection vm_runTx TRANSACTION_GAS).
Local Abbreviation mineTxs :=
  (mineTxs vm_runTx createBlock blockGasLimit instamine TRANSACTION_GAS).
Local Abbreviation mine_private :=
  (mine_private vm_runTx createBlock blockGasLimit instamine TRANSACTION_GAS).
Local Abbreviation mine :=
  (mine vm_runTx createBlock blockGasLimit instamine TRANSACTION_GAS).

Implicit Types (s : State) (l : Locals) (tx best : Transaction).

#[local] Set Default Proof Using "Type".

(** The locals at the start of a block, and the state in which the block
    is emitted. *)
Local Abbreviation first_locals blk :=
  (mkLocals false (mkBlockData [] [] [] 0 (header_timestamp blk)) 0
     blockGasLimit blk).
Local Abbreviation opened s := (checkpoint (set_isBusy true s)).
Local Abbreviation closed s1 l1 :=
  (set_currentlyExecutingPrice 0
     (emit (EmitBlock (blockData l1)) (commit s1))).

(** The ways a pass of the selection loop can go, read off the code. *)
Ltac pass_cases H :=
  unfold iteration, runTx, refill, replaceFromHeap,
    priced_removeBest in H;
  cbn [fst snd] in H;
  repeat match type of H with
    | context [vm_runTx ?tx ?b ?w] =>
        let Hvm := fresh "Hvm" in
        destruct (vm_runTx tx b w) as [? ?] eqn:Hvm; cbn [fst snd] in H
    | context [match ?x with _ => _ end] =>
        lazymatch x with
        | context [match _ with _ => _ end] => fail
        | _ => let E := fresh "E" in destruct x eqn:E
        end
    end;
  simplify_eq.

(** ** From one pass to a call of [mine] *)

Lemma selection_lift (J : State → Locals → Prop) maxTransactions :
  (∀ s l f s' l',
     J s l → iteration maxTransactions s l = Ok (f, s', l') → J s' l') →
  ∀ fuel s l s' l',
    J s l → selection fuel maxTransactions s l = Ok (s', l') → J s' l'.
Proof.
  intros Hstep fuel. induction fuel as [|fuel IH]; intros s l s' l' HJ;
    cbn [selection]; [done|].
  destruct (iteration maxTransactions s l) as [[[f s1] l1]|s1|s1] eqn:Hit;
    [|done..].
  specialize (Hstep _ _ _ _ _ HJ Hit).
  destruct f; intros H; simplify_eq; eauto.
Qed.

Section lift.
Variable R : State → State → Prop.
(** What is known of [maxTransactions] in every block. *)
Variable M : Z → Prop.
Hypothesis M_next : M (if instamine then 1 else -1)%Z.
Hypothesis R_refl : ∀ s, R s s.
Hypothesis R_trans : ∀ s1 s2 s3, R s1 s2 → R s2 s3 → R s1 s3.
Hypothesis R_seed : ∀ s, R s (setPricedHeap s).
Hypothesis R_update : ∀ s, R s (updatePricedHeap s).
Hypothesis R_reset : ∀ s, R s (reset s).
Hypothesis R_pending : ∀ b s, R s (set_pending b s).
Hypothesis R_idle : ∀ s, R s (emit EmitIdle s).
Hypothesis R_empty : ∀ blk s,
  R s (emit (EmitBlock (mkBlockData [] [] [] 0 (header_timestamp blk)))
         (commit (opened s))).
Hypothesis R_block : ∀ blk maxTransactions s s1 l1,
  M maxTransactions → maxTransactions ≠ 0%Z →
  selection (selection_fuel (opened s)) maxTransactions (opened s)
    (first_locals blk) = Ok (s1, l1) →
  R s (closed s1 l1).

Lemma mineTxs_lift fuel blk maxTransactions onlyOneBlock s s' r :
  M maxTransactions →
  mineTxs fuel blk maxTransactions onlyOneBlock s = Ok (s', r) → R s s'.
Proof using M_next R_refl R_trans R_update R_reset R_empty R_block.
  revert blk maxTransactions s.
  induction fuel as [|fuel IH]; intros blk maxTransactions s HM;
    cbn [mineTxs]; [done|].
  destruct (maxTransactions =? 0)%Z eqn:Hmax.
  { intros H. simplify_eq. eauto. }
  apply Z.eqb_neq in Hmax.
  destruct (selection _ _ _ _) as [[s1 l1]|s1|s1] eqn:Hsel; [|done..].
  apply R_block in Hsel; [|done..].
  destruct onlyOneBlock; [intros H; simplify_eq; eauto|].
  assert (R s (updatePricedHeap (closed s1 l1))) as Hup by eauto.
  destruct (negb _); destruct (keepMining l1); intros H; simplify_eq; eauto.
Qed.

Lemma mine_private_lift fuel blk maxTransactions onlyOneBlock s s' r :
  M maxTransactions →
  mine_private fuel blk maxTransactions onlyOneBlock s = Ok (s', r) →
  R s s'.
Proof using All.
  revert blk maxTransactions onlyOneBlock s s' r.
  induction fuel as [|fuel IH];
    intros blk maxTransactions onlyOneBlock s s' r HM;
    cbn [mine_private]; [done|].
  destruct (mineTxs (S fuel) blk maxTransactions onlyOneBlock s)
    as [[s1 [lastBlock transactions]]|s1|s1] eqn:H1; [|done..].
  apply mineTxs_lift in H1; [|done].
  destruct (negb onlyOneBlock && pending s1);
    [|intros H; simplify_eq; eauto].
  destruct (mine_private fuel _ _ false _) as [[s3 r3]|s3|s3] eqn:H3;
    [|done..].
  apply IH in H3; [|done]. intros H; simplify_eq. eauto.
Qed.

Lemma mine_lift fuel blk maxTransactions onlyOneBlock s s' r :
  M maxTransactions →
  mine fuel blk maxTransactions onlyOneBlock s = Ok (s', r) → R s s'.
Proof using All.
  intros HM. unfold mine. destruct (isBusy s).
  { intros H. simplify_eq. eauto. }
  destruct (mine_private fuel _ _ _ _) as [[s1 r1]|s1|s1] eqn:H1; [|done..].
  apply mine_private_lift in H1; [|done]. intros H. simplify_eq. eauto.
Qed.

End lift.

(** ** What the priced heap holds *)

Lemma map_get_map_set_eq {V} k (v : V) m h :
  map_get k m = Some h → map_get k (map_set k v m) = Some v.
Proof.
  induction m as [|[k' v'] m IH]; simpl; [done|].
  destruct (decide (k' = k)) as [->|Hne]; simpl.
  - by rewrite decide_True.
  - by rewrite decide_False.
Qed.

Lemma map_get_map_set_ne {V} k (v : V) m k' :
  k' ≠ k → map_get k' (map_set k v m) = map_get k' m.
Proof.
  intros Hne. induction m as [|[k0 v0] m IH]; simpl; [done|].
  destruct (decide (k0 = k)) as [->|Hne0]; simpl.
  - by rewrite !decide_False.
  - by rewrite IH.
Qed.

(** Every transaction of the heap [p] is the head of the heap that the
    pool [m] keeps for its origin. *)
Definition heads_of (m : list (string * list Transaction))
    (p : list Transaction) : Prop :=
  ∀ tx, tx ∈ p → ∃ h, map_get (from tx) m = Some h ∧ Heap.peek h = Some tx.

(** The miner and the pool agree: the pool is well formed; the priced heap
    holds heads of the pool's heaps, all of them locked, and no two of one
    origin. *)
Definition agree (m : list (string * list Transaction))
    (p locks : list Transaction) : Prop :=
  pool_wf m ∧ heads_of m p ∧ p ⊆ locks ∧ NoDup (from <$> p).

Definition miner_ok s : Prop :=
  agree (executables_pending s) (priced s) (locked s).

Lemma agree_rest m p locks best rest :
  agree m p locks → p ≡ₚ best :: rest →
  (best ∉ rest) ∧ (∀ tx, tx ∈ rest → from tx ≠ from best)
  ∧ agree m rest locks.
Proof.
  intros (Hpool & Hheads & Hlocks & Hnd) Hperm.
  assert (NoDup (from best :: (from <$> rest))) as Hnd'
    by (by rewrite <-fmap_cons, <-Hperm).
  apply NoDup_cons in Hnd' as [Hnotin Hnd'].
  assert (∀ tx, tx ∈ rest → tx ∈ p) as Hsub
    by (intros tx Htx; rewrite Hperm; by right).
  split; [|split].
  - intros Hin. apply Hnotin, list_elem_of_fmap. by exists best.
  - intros tx Htx Heq. apply Hnotin, list_elem_of_fmap. exists tx. by split.
  - split; [done|]. split; [|split; [|done]].
    + intros tx Htx. by apply Hheads, Hsub.
    + intros tx Htx. by apply Hlocks, Hsub.
Qed.

(** The root leaves the priced heap; its lock may go with it. *)
Lemma agree_drop m p locks best :
  agree m p locks → Heap.peek p = Some best →
  agree m (Heap.removeBest byPrice p).1 locks
  ∧ agree m (Heap.removeBest byPrice p).1 (filter (λ t, t ≠ best) locks).
Proof.
  intros Hok Hpeek.
  destruct (agree_rest _ _ _ _ _ Hok (removeBest_perm byPrice p best Hpeek))
    as (Hnotin & _ & Hpool & Hheads & Hlocks & Hnd).
  split; [done|]. split_and!; try done.
  intros tx Htx. apply list_elem_of_filter. split; [|by apply Hlocks].
  by intros ->.
Qed.

(** The root leaves the priced heap and the pool. *)
Lemma agree_taken m p locks best h :
  agree m p locks → Heap.peek p = Some best →
  map_get (from best) m = Some h →
  agree (map_set (from best) (Heap.removeBest byNonce h).1 m)
    (Heap.removeBest byPrice p).1 locks.
Proof.
  intros Hok Hpeek Hget.
  destruct (agree_rest _ _ _ _ _ Hok (removeBest_perm byPrice p best Hpeek))
    as (Hnotin & Hfrom & Hpool & Hheads & Hlocks & Hnd).
  split_and!; try done.
  - by apply pool_wf_removeBest.
  - intros tx Htx. rewrite map_get_map_set_ne by auto. by apply Hheads.
Qed.

(** The root leaves the priced heap and the pool, and the next
    transaction of its origin takes its place. *)
Lemma agree_replaced m p locks best h next :
  agree m p locks → Heap.peek p = Some best →
  map_get (from best) m = Some h →
  Heap.peek (Heap.removeBest byNonce h).1 = Some next →
  agree (map_set (from best) (Heap.removeBest byNonce h).1 m)
    (Heap.replaceBest byPrice next p).1 (next :: locks).
Proof.
  intros Hok Hpeek Hget Hnext.
  pose proof (removeBest_perm byPrice p best Hpeek) as Hperm.
  destruct (agree_rest _ _ _ _ _ Hok Hperm)
    as (Hnotin & Hfrom & Hpool & Hheads & Hlocks & Hnd).
  assert (from next = from best) as Hsame.
  { apply (proj2 Hpool (from best) h next); [by apply map_get_Some_elem|].
    eapply removeBest_subset, peek_elem, Hnext. }
  assert ((Heap.replaceBest byPrice next p).1
          ≡ₚ next :: (Heap.removeBest byPrice p).1) as Hnew.
  { apply (Permutation_cons_inv (a := best)).
    rewrite <-(replaceBest_perm byPrice p best next Hpeek).
    rewrite Hperm at 1. apply perm_swap. }
  split_and!.
  - by apply pool_wf_removeBest.
  - intros tx Htx. rewrite Hnew in Htx.
    apply elem_of_cons in Htx as [->|Htx].
    + rewrite Hsame. exists (Heap.removeBest byNonce h).1.
      split; [|done]. by eapply map_get_map_set_eq.
    + rewrite map_get_map_set_ne by auto. by apply Hheads.
  - intros tx Htx. rewrite Hnew in Htx.
    apply elem_of_cons in Htx as [->|Htx]; [left|right; by apply Hlocks].
  - rewrite Hnew, fmap_cons. apply NoDup_cons. split; [|done].
    intros (tx & Heq & Htx)%list_elem_of_fmap.
    apply (Hfrom tx Htx). congruence.
Qed.

(** A head of the pool that is not locked enters the priced heap. *)
Lemma agree_pushed m p locks (mapping : string * list Transaction) next :
  agree m p locks → mapping ∈ m → Heap.peek mapping.2 = Some next →
  next ∉ locks →
  agree m (Heap.push byPrice next p) (next :: locks).
Proof.
  intros (Hpool & Hheads & Hlocks & Hnd) Hin Hnext Hfree.
  destruct mapping as [k h]. simpl in Hnext.
  assert (from next = k) as Hk
    by (apply (proj2 Hpool k h next); [done|by apply peek_elem]).
  assert (map_get k m = Some h) as Hget
    by (apply map_get_elem; [apply Hpool|done]).
  split_and!; try done.
  - intros tx Htx. rewrite (push_perm byPrice next p) in Htx.
    apply elem_of_cons in Htx as [->|Htx]; [|by apply Hheads].
    exists h. by rewrite Hk.
  - intros tx Htx. rewrite (push_perm byPrice next p) in Htx.
    apply elem_of_cons in Htx as [->|Htx]; [left|right; by apply Hlocks].
  - rewrite (push_perm byPrice next p), fmap_cons. apply NoDup_cons.
    split; [|done]. intros (tx & Heq & Htx)%list_elem_of_fmap.
    destruct (Hheads tx Htx) as (h' & Hget' & Hpeek').
    rewrite <-Heq, Hk, Hget in Hget'. simplify_eq.
    by apply Hfree, Hlocks.
Qed.

Lemma miner_ok_wf s : miner_ok s → wf s.
Proof.
  intros (Hpool & Hheads & _). split; [done|].
  intros tx Htx. destruct (Hheads tx Htx) as (h & -> & _). by eexists.
Qed.

Lemma iteration_miner_ok maxTransactions s l f s' l' :
  miner_ok s → iteration maxTransactions s l = Ok (f, s', l') →
  miner_ok s'.
Proof.
  intros Hok H. unfold miner_ok in *. pass_cases H; cbn.
  all: try done.
  all: first
    [ by eapply agree_replaced
    | by eapply agree_taken
    | by eapply agree_drop
    | idtac ].
Qed.

Lemma miner_ok_ext s s' :
  executables_pending s' = executables_pending s →
  priced s' = priced s → locked s' = locked s →
  miner_ok s → miner_ok s'.
Proof. unfold miner_ok. by intros -> -> ->. Qed.

Lemma is_locked_false tx s : is_locked tx s = false → tx ∉ locked s.
Proof. unfold is_locked. by intros ?%bool_decide_eq_false. Qed.

Lemma setPricedHeap_body_miner_ok s m :
  m ∈ executables_pending s → miner_ok s →
  miner_ok (setPricedHeap_body s m).
Proof.
  intros Hin Hok. unfold setPricedHeap_body.
  destruct (Heap.peek m.2) as [next|] eqn:Hnext; [|done].
  destruct (is_locked next s) eqn:Hfree; [done|].
  apply is_locked_false in Hfree. unfold miner_ok. cbn.
  by eapply agree_pushed.
Qed.

Lemma updatePricedHeap_body_miner_ok s m :
  m ∈ executables_pending s → miner_ok s →
  miner_ok (updatePricedHeap_body s m).
Proof.
  intros Hin Hok. unfold updatePricedHeap_body.
  destruct (Heap.peek m.2) as [next|] eqn:Hnext; [|done].
  destruct (is_locked next s) eqn:Hfree; [done|].
  repeat (case_match; [done|]).
  apply is_locked_false in Hfree. unfold miner_ok. cbn.
  by eapply agree_pushed.
Qed.

Lemma foldl_miner_ok (body : State → string * list Transaction → State) :
  (∀ s m, same_surroundings s (body s m)) →
  (∀ s m, m ∈ executables_pending s → miner_ok s → miner_ok (body s m)) →
  ∀ ms s, ms ⊆ executables_pending s → miner_ok s →
          miner_ok (foldl body s ms).
Proof.
  intros Hsame Hbody ms.
  induction ms as [|m ms IH]; intros s Hsub Hok; simpl; [done|].
  apply IH.
  - destruct (Hsame s m) as (_ & _ & _ & _ & _ & -> & _).
    intros m' Hm'. apply Hsub. by right.
  - apply Hbody; [|done]. apply Hsub. left.
Qed.

Lemma setPricedHeap_miner_ok s : miner_ok s → miner_ok (setPricedHeap s).
Proof.
  apply foldl_miner_ok;
    auto using setPricedHeap_body_surroundings, setPricedHeap_body_miner_ok.
Qed.

Lemma updatePricedHeap_miner_ok s :
  miner_ok s → miner_ok (updatePricedHeap s).
Proof.
  apply foldl_miner_ok;
    auto using updatePricedHeap_body_surroundings,
      updatePricedHeap_body_miner_ok.
Qed.

Lemma reset_miner_ok s : miner_ok s → miner_ok (reset s).
Proof.
  intros (Hpool & _). split; [done|]. cbn. split_and!.
  - by intros tx ?%elem_of_nil.
  - by intros tx ?%elem_of_nil.
  - constructor.
Qed.

Lemma selection_miner_ok fuel maxTransactions s l s' l' :
  miner_ok s → selection fuel maxTransactions s l = Ok (s', l') →
  miner_ok s'.
Proof.
  apply (selection_lift (λ s _, miner_ok s)).
  intros. by eapply iteration_miner_ok.
Qed.

Lemma new_Miner_ok pool inProgress locks sm :
  pool_wf pool → miner_ok (new_Miner pool inProgress locks sm).
Proof.
  intros Hpool. split; [done|]. cbn. split_and!.
  - by intros tx ?%elem_of_nil.
  - by intros tx ?%elem_of_nil.
  - constructor.
Qed.

(** From its start to its return, a call of [mine] keeps the miner and the
    pool in agreement; a new miner over a well-formed pool starts out so;
    and on a miner in agreement with its pool the call does return,
    without a [TypeError], within the budget [mine_budget]. *)
Lemma mine_agrees :
  (∀ pool inProgress locks sm,
     pool_wf pool → miner_ok (new_Miner pool inProgress locks sm))
  ∧ (∀ fuel blk maxTransactions onlyOneBlock s s' r,
       miner_ok s →
       mine fuel blk maxTransactions onlyOneBlock s = Ok (s', r) →
       miner_ok s')
  ∧ (∀ fuel blk maxTransactions onlyOneBlock s,
       miner_ok s → (mine_budget s ≤ fuel)%nat →
       ∃ s' r, mine fuel blk maxTransactions onlyOneBlock s = Ok (s', r)).
Proof.
  split; [apply new_Miner_ok|]. split.
  - intros fuel blk maxTransactions onlyOneBlock s s' r Hok Hrun.
    pose proof (mine_lift (λ s s', miner_ok s → miner_ok s') (λ _, True))
      as Hlift.
    cbv beta in Hlift.
    eapply Hlift; [..|exact Hrun|exact Hok]; try done.
    + auto.
    + auto using setPricedHeap_miner_ok.
    + auto using updatePricedHeap_miner_ok.
    + auto using reset_miner_ok.
    + intros blk0 maxTransactions0 s0 s1 l1 _ _ Hsel Hok0.
      apply (miner_ok_ext s1); [done..|].
      eapply selection_miner_ok; [|exact Hsel]. by apply (miner_ok_ext s0).
  - intros fuel blk maxTransactions onlyOneBlock s Hok Hfuel.
    destruct (mine_total vm_runTx createBlock blockGasLimit instamine
                TRANSACTION_GAS fuel blk maxTransactions onlyOneBlock s
                (miner_ok_wf s Hok) Hfuel) as (s' & r & Hrun & _).
    by exists s', r.
Qed.

(** ** Where the transactions of the pool go *)

(** The transactions waiting in the pool, over all origins. *)
Definition pool_txs (m : list (string * list Transaction))
  : list Transaction :=
  concat m.*2.

(** The transactions of the blocks emitted in a stretch of the trace. *)
Definition mined (evs : list Event) : list Transaction :=
  evs ≫= λ e, match e with EmitBlock b => blockTransactions b | _ => [] end.

(** The transactions finalized in a stretch of the trace. *)
Definition rejected (evs : list Event) : list Transaction :=
  evs ≫= λ e, match e with Finalize tx _ _ => [tx] | _ => [] end.

Lemma mined_app evs evs' : mined (evs ++ evs') = mined evs ++ mined evs'.
Proof. apply bind_app. Qed.

Lemma rejected_app evs evs' :
  rejected (evs ++ evs') = rejected evs ++ rejected evs'.
Proof. apply bind_app. Qed.

Lemma pool_txs_taken m k h best :
  map_get k m = Some h → Heap.peek h = Some best →
  pool_txs m
  ≡ₚ best :: pool_txs (map_set k (Heap.removeBest byNonce h).1 m).
Proof.
  intros Hget Hpeek. unfold pool_txs.
  induction m as [|[k' h'] m IH]; simpl in *; [done|].
  destruct (decide (k' = k)) as [->|Hne]; simplify_eq; simpl.
  - by rewrite (removeBest_perm byNonce h best Hpeek) at 1.
  - rewrite IH by done. by rewrite Permutation_middle.
Qed.

Ltac new_events :=
  first [ exists []; split; [by rewrite app_nil_r|]
        | eexists; split; [cbn; rewrite <-?app_assoc; reflexivity|] ].

Lemma iteration_accounts maxTransactions s l f s' l' :
  miner_ok s →
  numTransactions l = length (blockTransactions (blockData l)) →
  iteration maxTransactions s l = Ok (f, s', l') →
  numTransactions l' = length (blockTransactions (blockData l'))
  ∧ ∃ evs, trace s' = trace s ++ evs ∧ mined evs = []
      ∧ pool_txs (executables_pending s) ++ blockTransactions (blockData l)
        ≡ₚ pool_txs (executables_pending s')
           ++ blockTransactions (blockData l') ++ rejected evs.
Proof.
  intros (_ & Hheads & _) Hn H. pass_cases H.
  all: try match goal with
       | E : Heap.peek (priced _) = Some ?t |- _ =>
           destruct (Hheads t (peek_elem _ _ E)) as (hd & Hget & Hhd)
       end.
  all: cbn in *; simplify_eq.
  all: rewrite ?Hn, ?array_set_length, ?length_app; cbn.
  all: (split; [done || lia|]); new_events; (split; [done|]); cbn.
  all: rewrite ?app_nil_r; try done.
  all: match goal with
       | Hg : map_get _ _ = Some ?h, Hp : Heap.peek ?h = Some _ |- _ =>
           rewrite (pool_txs_taken _ _ _ _ Hg Hp)
       end.
  all: by rewrite <-?Permutation_middle, ?app_nil_r.
Qed.

(** The account of a stretch of the trace: what has left the pool is in an
    emitted block or has been finalized. *)
Definition accounted s s' : Prop :=
  miner_ok s →
  miner_ok s'
  ∧ ∃ evs, trace s' = trace s ++ evs
      ∧ pool_txs (executables_pending s)
        ≡ₚ pool_txs (executables_pending s') ++ mined evs ++ rejected evs.

Lemma accounted_same s s' :
  trace s' = trace s → executables_pending s' = executables_pending s →
  (miner_ok s → miner_ok s') → accounted s s'.
Proof.
  intros Htr Hpool Hok' Hok. split; [auto|].
  exists []. rewrite app_nil_r, Hpool. split; [done|]. by rewrite !app_nil_r.
Qed.

Lemma accounted_trans s1 s2 s3 :
  accounted s1 s2 → accounted s2 s3 → accounted s1 s3.
Proof.
  intros H12 H23 Hok1.
  destruct (H12 Hok1) as (Hok2 & evs & Htr & Hperm).
  destruct (H23 Hok2) as (Hok3 & evs' & Htr' & Hperm').
  split; [done|]. exists (evs ++ evs').
  split; [by rewrite Htr', Htr, app_assoc|].
  rewrite Hperm, Hperm', mined_app, rejected_app.
  solve_Permutation.
Qed.

Lemma selection_accounts fuel maxTransactions s0 blk s' l' :
  miner_ok s0 →
  selection fuel maxTransactions s0 (first_locals blk) = Ok (s', l') →
  miner_ok s'
  ∧ ∃ evs, trace s' = trace s0 ++ evs ∧ mined evs = []
      ∧ pool_txs (executables_pending s0)
        ≡ₚ pool_txs (executables_pending s')
           ++ blockTransactions (blockData l') ++ rejected evs.
Proof.
  intros Hok0 Hsel.
  pose proof (selection_lift
    (λ s l, miner_ok s
            ∧ numTransactions l = length (blockTransactions (blockData l))
            ∧ ∃ evs, trace s = trace s0 ++ evs ∧ mined evs = []
                ∧ pool_txs (executables_pending s0)
                  ≡ₚ pool_txs (executables_pending s)
                     ++ blockTransactions (blockData l) ++ rejected evs)
    maxTransactions) as Hlift.
  cbv beta in Hlift.
  eapply Hlift in Hsel as (Hok' & _ & Hacc); [done| |].
  - intros s l f s1 l1 (Hok & Hn & evs & Htr & Hmined & Hperm) Hit.
    split; [by eapply iteration_miner_ok|].
    destruct (iteration_accounts _ _ _ _ _ _ Hok Hn Hit)
      as (Hn1 & evs1 & Htr1 & Hmined1 & Hperm1).
    split; [done|]. exists (evs ++ evs1).
    split; [by rewrite Htr1, Htr, app_assoc|].
    split; [by rewrite mined_app, Hmined, Hmined1|].
    rewrite Hperm, rejected_app, !app_assoc, Hperm1. solve_Permutation.
  - split; [done|]. split; [done|]. exists [].
    by rewrite !app_nil_r.
Qed.

(** From its start to its return, a call of [mine] on a miner that agrees
    with its pool loses no transaction and mines none twice. *)
Lemma mine_accounts fuel blk maxTransactions onlyOneBlock s s' r :
  miner_ok s →
  mine fuel blk maxTransactions onlyOneBlock s = Ok (s', r) →
  ∃ evs, trace s' = trace s ++ evs
    ∧ pool_txs (executables_pending s)
      ≡ₚ pool_txs (executables_pending s') ++ mined evs ++ rejected evs
    ∧ (NoDup (pool_txs (executables_pending s)) →
       NoDup (pool_txs (executables_pending s')
              ++ mined evs ++ rejected evs)).
Proof.
  intros Hok Hrun.
  assert (accounted s s') as Hacc.
  { eapply (mine_lift accounted (λ _, True)); [..|done|exact Hrun].
    - done.
    - intros s0. by apply accounted_same.
    - apply accounted_trans.
    - intros s0.
      destruct (setPricedHeap_surroundings s0)
        as (? & _ & _ & _ & _ & ? & _).
      apply accounted_same; auto using setPricedHeap_miner_ok.
    - intros s0.
      destruct (updatePricedHeap_surroundings s0)
        as (? & _ & _ & _ & _ & ? & _).
      apply accounted_same; auto using updatePricedHeap_miner_ok.
    - intros s0. apply accounted_same; [done..|exact (reset_miner_ok s0)].
    - intros b s0. by apply accounted_same.
    - intros s0 Hok0. split; [done|]. exists [EmitIdle].
      split; [done|]. by rewrite !app_nil_r.
    - intros blk0 s0 Hok0. split; [done|]. eexists. cbn.
      rewrite <-!app_assoc. split; [reflexivity|]. by rewrite !app_nil_r.
    - intros blk0 maxTransactions0 s0 s1 l1 _ _ Hsel Hok0.
      apply selection_accounts in Hsel
          as (Hok1 & evs & Htr & Hmined & Hperm);
        [|by apply (miner_ok_ext s0)].
      split; [by apply (miner_ok_ext s1)|].
      exists ([Checkpoint] ++ evs ++ [Commit; EmitBlock (blockData l1)]).
      cbn [trace closed emit commit set_trace set_stateManager
           set_currentlyExecutingPrice] in *.
      split.
      { cbn. rewrite Htr. cbn. by rewrite <-!app_assoc. }
      cbn in Hperm |- *. rewrite Hperm.
      rewrite !mined_app, !rejected_app, Hmined. cbn.
      by rewrite !app_nil_r. }
  destruct (Hacc Hok) as (_ & evs & Htr & Hperm).
  exists evs. split; [done|]. split; [done|]. by rewrite Hperm.
Qed.

(** ** The blocks that are emitted *)

(** A pass of the selection loop emits no block. *)
Lemma iteration_no_block maxTransactions s l f s' l' :
  iteration maxTransactions s l = Ok (f, s', l') →
  ∃ evs, trace s' = trace s ++ evs ∧ ∀ b, EmitBlock b ∉ evs.
Proof.
  intros H. pass_cases H; new_events; intros b Hb.
  all: repeat (apply elem_of_cons in Hb as [Hb|Hb]; [done|]).
  all: by apply elem_of_nil in Hb.
Qed.

Lemma selection_no_block fuel maxTransactions s l s' l' :
  selection fuel maxTransactions s l = Ok (s', l') →
  ∃ evs, trace s' = trace s ++ evs ∧ ∀ b, EmitBlock b ∉ evs.
Proof.
  intros Hsel.
  pose proof (selection_lift
    (λ s1 _, ∃ evs, trace s1 = trace s ++ evs ∧ ∀ b, EmitBlock b ∉ evs)
    maxTransactions) as Hlift.
  cbv beta in Hlift. eapply Hlift; [| |exact Hsel].
  - intros s1 l1 f s2 l2 (evs & Htr & Hno) Hit.
    apply iteration_no_block in Hit as (evs' & Htr' & Hno').
    exists (evs ++ evs'). split; [by rewrite Htr', Htr, app_assoc|].
    intros b [?|?]%elem_of_app; [by eapply Hno|by eapply Hno'].
  - exists []. split; [by rewrite app_nil_r|]. by intros b ?%elem_of_nil.
Qed.

Section blocks.
Variable LI : Locals → Prop.
Variable P : BlockData → Prop.
Hypothesis LI_first : ∀ blk, LI (first_locals blk).
Hypothesis LI_step : ∀ maxTransactions s l f s' l',
  LI l → iteration maxTransactions s l = Ok (f, s', l') → LI l'.
Hypothesis LI_P : ∀ l, LI l → P (blockData l).

(** Every block emitted between [s] and [s'] satisfies [P]. *)
Definition emits s s' : Prop :=
  ∃ evs, trace s' = trace s ++ evs ∧ ∀ b, EmitBlock b ∈ evs → P b.

Lemma emits_same s s' : trace s' = trace s → emits s s'.
Proof using Type.
  intros Htr. exists []. split; [by rewrite app_nil_r|].
  by intros b ?%elem_of_nil.
Qed.

Lemma emits_trans s1 s2 s3 : emits s1 s2 → emits s2 s3 → emits s1 s3.
Proof using Type.
  intros (e1 & H1 & Hb1) (e2 & H2 & Hb2). exists (e1 ++ e2).
  rewrite H2, H1, app_assoc. split; [done|].
  intros b [?|?]%elem_of_app; auto.
Qed.

Lemma mine_emits fuel blk maxTransactions onlyOneBlock s s' r :
  mine fuel blk maxTransactions onlyOneBlock s = Ok (s', r) → emits s s'.
Proof using All.
  apply (mine_lift emits (λ _, True)); [..|done].
  - done.
  - intros s0. by apply emits_same.
  - apply emits_trans.
  - intros s0. apply emits_same, setPricedHeap_surroundings.
  - intros s0. apply emits_same, updatePricedHeap_surroundings.
  - intros s0. by apply emits_same.
  - intros b s0. by apply emits_same.
  - intros s0. exists [EmitIdle]. split; [done|].
    intros b Hb. apply elem_of_cons in Hb as [Hb|Hb]; [done|].
    by apply elem_of_nil in Hb.
  - intros blk0 s0. eexists. cbn. rewrite <-!app_assoc.
    split; [reflexivity|]. intros b Hb.
    repeat (apply elem_of_cons in Hb as [Hb|Hb]; [simplify_eq|]).
    + apply (LI_P (first_locals blk0)), LI_first.
    + by apply elem_of_nil in Hb.
  - intros blk0 maxTransactions0 s0 s1 l1 _ _ Hsel.
    assert (LI l1) as Hl1.
    { pose proof (selection_lift (λ _ l, LI l) maxTransactions0) as Hlift.
      cbv beta in Hlift. eapply Hlift; [|apply (LI_first blk0)|exact Hsel].
      intros. by eapply LI_step. }
    apply selection_no_block in Hsel as (evs & Htr & Hno).
    exists ([Checkpoint] ++ evs ++ [Commit; EmitBlock (blockData l1)]).
    split. { cbn. rewrite Htr. cbn. by rewrite <-!app_assoc. }
    intros b Hb. apply elem_of_cons in Hb as [Hb|Hb]; [done|].
    apply elem_of_app in Hb as [Hb|Hb]; [by apply Hno in Hb|].
    repeat (apply elem_of_cons in Hb as [Hb|Hb]; [simplify_eq|]).
    + by apply LI_P.
    + by apply elem_of_nil in Hb.
Qed.

End blocks.

(** The two tries of a block are filled in step with the list of its
    transactions: transaction [i] is stored under key [i] in the
    transaction trie, its receipt under key [i] in the receipt trie, and
    the receipt carries the gas used by the transactions up to and
    including [i]. *)
Definition block_tries_ok (b : BlockData) : Prop :=
  transactionsTrie b = imap (λ i tx, (i, tx)) (blockTransactions b)
  ∧ (λ r, (r.1, receipt_tx r.2)) <$> receiptTrie b = transactionsTrie b
  ∧ ∀ i r, receiptTrie b !! i = Some r →
      receipt_cumulativeGasUsed r.2
      = receipts_gas (take (S i) (receiptTrie b)).

Definition locals_tries_ok l : Prop :=
  numTransactions l = length (blockTransactions (blockData l))
  ∧ receipts_gas (receiptTrie (blockData l)) = gasUsed (blockData l)
  ∧ block_tries_ok (blockData l).

Lemma iteration_tries_ok maxTransactions s l f s' l' :
  locals_tries_ok l → iteration maxTransactions s l = Ok (f, s', l') →
  locals_tries_ok l'.
Proof.
  intros (Hn & Hsum & Htx & Hrc & Hcum) H. pass_cases H; try done.
  all: unfold locals_tries_ok, block_tries_ok; cbn.
  all: rewrite Hn, array_set_length, length_app, receipts_gas_snoc.
  all: assert (length (receiptTrie (blockData l))
               = length (blockTransactions (blockData l))) as Hlen
         by (by rewrite <-(length_fmap (λ r, (r.1, receipt_tx r.2))), Hrc,
               Htx, length_imap).
  all: split_and!; [cbn; lia|by rewrite Hsum|..].
  all: try (rewrite ?imap_app, ?fmap_app, ?Hrc, ?Htx; cbn;
            by rewrite ?Nat.add_0_r).
  all: intros i r Hi; apply lookup_app_Some in Hi as [Hi|[Hge Hi]].
  all: try (rewrite take_app_le by (apply lookup_lt_Some in Hi; lia);
            by apply Hcum).
  all: apply list_lookup_singleton_Some in Hi as [Hi <-];
       cbn [snd receipt_cumulativeGasUsed].
  all: rewrite take_ge by (rewrite length_app; cbn; lia).
  all: by rewrite receipts_gas_snoc, Hsum.
Qed.

(** X12: Every block that a call of [mine] emits has its tries and receipts
    in step with its transactions. *)
Theorem mine_blocks_tries fuel blk maxTransactions onlyOneBlock s s' r :
  mine fuel blk maxTransactions onlyOneBlock s = Ok (s', r) →
  ∃ evs, trace s' = trace s ++ evs
    ∧ ∀ b, EmitBlock b ∈ evs → block_tries_ok b.
Proof.
  apply (mine_emits locals_tries_ok).
  - intros blk0. by split_and!.
  - apply iteration_tries_ok.
  - by intros l (_ & _ & H).
Qed.

(** ** The state of the EVM after a block *)

#[local] Instance RunTxResult_eq_dec : EqDecision RunTxResult.
Proof. solve_decision. Defined.

(** The block header and the EVM state that come of running the
    transactions of the receipts one after the other, each on the state
    the one before has left and with the bloom filter of the block as the
    ones before have left it; [None] if the VM throws or returns another
    result than the receipt records. *)
Fixpoint replay (receipts : list Receipt) (blk : Block) (w : World)
  : option (Block * World) :=
  match receipts with
  | [] => Some (blk, w)
  | r :: rest =>
      match vm_runTx (receipt_tx r) blk w with
      | (w', Returned result) =>
          if decide (result = receipt_result r) then
            replay rest
              (mkBlock (header_timestamp blk)
                 (bloom_or (header_bloom blk) (result_bloom result))) w'
          else None
      | (_, Thrown _) => None
      end
  end.

Lemma replay_snoc receipts r blk w blk' w' result w'' :
  replay receipts blk w = Some (blk', w') →
  vm_runTx (receipt_tx r) blk' w' = (w'', Returned result) →
  receipt_result r = result →
  replay (receipts ++ [r]) blk w
  = Some (mkBlock (header_timestamp blk')
            (bloom_or (header_bloom blk') (result_bloom result)), w'').
Proof.
  revert blk w. induction receipts as [|r0 receipts IH]; intros blk w; simpl.
  - intros ? Hvm <-. simplify_eq. rewrite Hvm. by rewrite decide_True.
  - destruct (vm_runTx (receipt_tx r0) blk w) as [w1 [result1|]]; [|done].
    destruct (decide _); [|done]. apply IH.
Qed.

Lemma iteration_replays maxTransactions blk0 w0 s l f s' l' :
  replay (receiptTrie (blockData l)).*2 blk0 w0
  = Some (block l, world (stateManager s)) →
  iteration maxTransactions s l = Ok (f, s', l') →
  replay (receiptTrie (blockData l')).*2 blk0 w0
  = Some (block l', world (stateManager s'))
  ∧ checkpoints (stateManager s') = checkpoints (stateManager s).
Proof.
  intros Hre H. pass_cases H; cbn in *; try done.
  all: rewrite fmap_app; cbn.
  all: split; [|done].
  all: by eapply replay_snoc.
Qed.

Lemma selection_replays fuel maxTransactions s blk s' l' :
  selection fuel maxTransactions s (first_locals blk) = Ok (s', l') →
  replay (receiptTrie (blockData l')).*2 blk (world (stateManager s))
  = Some (block l', world (stateManager s'))
  ∧ checkpoints (stateManager s') = checkpoints (stateManager s).
Proof.
  intros Hsel.
  pose proof (selection_lift
    (λ s1 l1,
       replay (receiptTrie (blockData l1)).*2 blk (world (stateManager s))
       = Some (block l1, world (stateManager s1))
       ∧ checkpoints (stateManager s1) = checkpoints (stateManager s))
    maxTransactions) as Hlift.
  cbv beta in Hlift. eapply Hlift; [| |exact Hsel]; [|done].
  intros s1 l1 f s2 l2 [Hre Hcp] Hit.
  destruct (iteration_replays _ _ _ _ _ _ _ _ Hre Hit) as [Hre' Hcp'].
  split; [done|congruence].
Qed.

(** ** A call for one block *)

Lemma iteration_count maxTransactions s l f s' l' :
  iteration maxTransactions s l = Ok (f, s', l') →
  (Z.of_nat (numTransactions l) < maxTransactions)%Z →
  (Z.of_nat (numTransactions l') ≤ maxTransactions)%Z
  ∧ (f = Next → (Z.of_nat (numTransactions l') < maxTransactions)%Z).
Proof.
  intros H Hn. pass_cases H; cbn [numTransactions set_keepMining].
  all: try (split; [lia|done || (intros _; lia)]).
  all: match goal with
       | E : _ || _ = false |- _ =>
           apply orb_false_iff in E as [_ E]; apply Z.eqb_neq in E
       end.
  all: split; [lia|intros _; lia].
Qed.

Lemma selection_count fuel maxTransactions s l s' l' :
  selection fuel maxTransactions s l = Ok (s', l') →
  (Z.of_nat (numTransactions l) < maxTransactions)%Z →
  (Z.of_nat (numTransactions l') ≤ maxTransactions)%Z.
Proof.
  revert s l. induction fuel as [|fuel IH]; intros s l; cbn [selection];
    [done|].
  destruct (iteration maxTransactions s l) as [[[f s1] l1]|s1|s1] eqn:Hit;
    [|done..].
  intros H Hn. destruct (iteration_count _ _ _ _ _ _ Hit Hn) as [Hle Hlt].
  destruct f; simplify_eq; eauto.
Qed.





(** ** How a call leaves the miner *)

Lemma iteration_isBusy maxTransactions s l f s' l' :
  iteration maxTransactions s l = Ok (f, s', l') → isBusy s' = isBusy s.
Proof. intros H. by pass_cases H. Qed.


(** The miner is as [#reset] leaves it. *)
Definition is_reset s : Prop :=
  isBusy s = false ∧ priced s = [] ∧ origins s = ∅.





(** One call of [mine], whatever its arguments. *)
Definition called s s' : Prop :=
  ∃ fuel blk maxTransactions onlyOneBlock r,
    mine fuel blk maxTransactions onlyOneBlock s = Ok (s', r).

(** X8: A busy miner stays busy: whatever calls of [mine] follow one another
    on it, none of them runs the VM, emits an event or touches the state
    manager, the pool or the set of transactions in progress, and each
    returns [undefined].  Only [#reset] clears the flag, and only [#mineTxs]
    calls it. *)
Theorem busy_miner_stays_busy s s' :
  isBusy s = true → rtc called s s' →
  isBusy s' = true ∧ trace s' = trace s
  ∧ stateManager s' = stateManager s
  ∧ executables_pending s' = executables_pending s
  ∧ executables_inProgress s' = executables_inProgress s
  ∧ ∀ fuel blk maxTransactions onlyOneBlock,
      ∃ s'', mine fuel blk maxTransactions onlyOneBlock s' = Ok (s'', None).
Proof.
  intros Hbusy Hcalls.
  assert (isBusy s' = true ∧ trace s' = trace s
          ∧ stateManager s' = stateManager s
          ∧ executables_pending s' = executables_pending s
          ∧ executables_inProgress s' = executables_inProgress s)
    as (Hbusy' & Hrest).
  { induction Hcalls as [s|s1 s2 s3 Hcall _ IH]; [done|].
    destruct Hcall as (fuel & blk & maxTransactions & onlyOneBlock & r & H).
    unfold mine in H. rewrite Hbusy in H. simplify_eq.
    destruct (updatePricedHeap_surroundings (set_pending true s1))
      as (Htr & Hsm & _ & Hb & _ & Hpool & Hprog).
    cbn in *. destruct IH as (? & ? & ? & ? & ?); [congruence|].
    split_and!; congruence. }
  split; [done|]. repeat (split; [apply Hrest|]).
  intros fuel blk maxTransactions onlyOneBlock. unfold mine.
  rewrite Hbusy'. by eexists.
Qed.

Lemma iteration_skip maxTransactions s l best :
  Heap.peek (priced s) = Some best →
  (blockGasLeft l <? intrinsicGas best) = true →
  iteration maxTransactions s l
  = Ok (Next,
        set_origins (origins s ∖ {[from best]})
          (unlock best (priced_removeBest s).1),
        l).
Proof. intros Hpeek Hgas. unfold iteration. by rewrite Hpeek, Hgas. Qed.

(** X7: A transaction whose intrinsic gas is above the block gas limit
    wedges the miner.  On a new miner over a pool that holds just this
    transaction, a call of [mine] for any number of blocks emits one empty
    block and returns an empty list, but leaves the miner busy, with the
    transaction locked and back in the priced heap: the selection loop has
    skipped it, [#updatePricedHeap] has picked it up again, and [continue]
    has led to [while (keepMining)] with [keepMining] false.  Every call of
    [mine] after that returns [undefined]. *)
Theorem oversized_transaction_wedges fuel blk maxTransactions t inProgress sm :
  blockGasLimit < intrinsicGas t → maxTransactions ≠ 0%Z → (1 ≤ fuel)%nat →
  ∃ s',
    mine fuel blk maxTransactions false
      (new_Miner [(from t, [t])] inProgress [] sm)
    = Ok (s', Some [])
    ∧ trace s'
      = [Checkpoint; Commit;
         EmitBlock (mkBlockData [] [] [] 0 (header_timestamp blk)); EmitIdle]
    ∧ isBusy s' = true ∧ priced s' = [t] ∧ locked s' = [t]
    ∧ executables_pending s' = [(from t, [t])]
    ∧ ∀ fuel' blk' maxTransactions' onlyOneBlock',
        ∃ s'', mine fuel' blk' maxTransactions' onlyOneBlock' s'
               = Ok (s'', None).
Proof.
  intros Hgas Hmax Hfuel. destruct fuel as [|fuel]; [lia|].
  apply Z.eqb_neq in Hmax. apply N.ltb_lt in Hgas.
  assert (bool_decide (t ∈ @nil Transaction) = false) as Hfree
    by (apply bool_decide_eq_false, not_elem_of_nil).
  assert ((gasPrice t <? 0) = false) as Hprice by (apply N.ltb_ge; lia).
  set (pool := [(from t, [t])]).
  set (s1 := mkState 0 ({[from t]} ∪ ∅) false false [t] pool inProgress [t]
               sm []).
  set (X := ({[from t]} ∪ ∅) ∖ {[from t]} : gset string).
  set (s2 := mkState 0 X false true [] pool inProgress []
               (sm_checkpoint sm) [Checkpoint]).
  set (bd := mkBlockData [] [] [] 0 (header_timestamp blk)).
  set (s4 := mkState 0 ({[from t]} ∪ X) false true [t] pool inProgress [t]
               (sm_commit (sm_checkpoint sm))
               [Checkpoint; Commit; EmitBlock bd]).
  assert (setPricedHeap (new_Miner pool inProgress [] sm) = s1) as Hseed.
  { unfold setPricedHeap, setPricedHeap_body, is_locked, new_Miner, s1.
    cbn -[union difference]. by rewrite Hfree. }
  assert (selection (selection_fuel (opened s1)) maxTransactions (opened s1)
            (first_locals blk) = Ok (s2, first_locals blk)) as Hsel.
  { change (selection_fuel (opened s1)) with 3%nat. cbn [selection].
    rewrite (iteration_skip _ _ _ t) by done.
    assert (set_origins (origins (opened s1) ∖ {[from t]})
              (unlock t (priced_removeBest (opened s1)).1) = s2) as ->.
    { unfold unlock, set_locked, s1, s2. cbn -[union difference].
      by rewrite decide_False by (by intros ?). }
    by apply (selection_empty vm_runTx TRANSACTION_GAS 1 maxTransactions
                s2 (first_locals blk)). }
  assert (updatePricedHeap (closed s2 (first_locals blk)) = s4) as Hupdate.
  { unfold updatePricedHeap, updatePricedHeap_body, is_locked, s2, s4.
    cbn -[union difference]. rewrite Hfree, Hprice.
    rewrite bool_decide_eq_false_2 by (subst X; set_solver). done. }
  exists (emit EmitIdle s4). split.
  { unfold mine. cbn [isBusy new_Miner]. rewrite Hseed.
    cbn [mine_private mineTxs]. rewrite Hmax, Hsel, Hupdate. done. }
  split_and!; try done.
  intros fuel' blk' maxTransactions' onlyOneBlock'. by eexists.
Qed.

(** ** What [mine] returns *)

Lemma mineTxs_pending fuel blk maxTransactions onlyOneBlock s s' r :
  mineTxs fuel blk maxTransactions onlyOneBlock s = Ok (s', r) →
  pending s' = pending s.
Proof.
  apply (mineTxs_lift (λ s s', pending s' = pending s) (λ _, True));
    try done.
  - intros s1 s2 s3. congruence.
  - intros s0.
    by destruct (updatePricedHeap_surroundings s0) as (_ & _ & ? & _).
  - intros blk0 maxTransactions0 s0 s1 l1 _ _ Hsel.
    by apply selection_shrinks in Hsel as [? _].
Qed.

Lemma mineTxs_result fuel blk maxTransactions onlyOneBlock s s' blk' txs :
  mineTxs fuel blk maxTransactions onlyOneBlock s = Ok (s', (blk', txs)) →
  ∃ evs bd, trace s' = trace s ++ evs ++ [EmitBlock bd]
    ∧ txs = blockTransactions bd.
Proof.
  revert blk maxTransactions s.
  induction fuel as [|fuel IH]; intros blk maxTransactions s;
    cbn [mineTxs]; [done|].
  destruct (maxTransactions =? 0)%Z.
  { intros H. simplify_eq. exists [Checkpoint; Commit], (mkBlockData [] [] [] 0 (header_timestamp blk')).
    cbn. by rewrite <-!app_assoc. }
  destruct (selection _ _ _ _) as [[s1 l1]|s1|s1] eqn:Hsel; [|done..].
  apply selection_no_block in Hsel as (evs & Htr & _).
  assert (trace (closed s1 l1)
          = trace s ++ ([Checkpoint] ++ evs ++ [Commit])
            ++ [EmitBlock (blockData l1)]) as Hclosed
    by (cbn; rewrite Htr; cbn; by rewrite <-!app_assoc).
  destruct onlyOneBlock; [intros H; simplify_eq; by eexists _, _|].
  destruct (updatePricedHeap_surroundings (closed s1 l1)) as (Hup & _).
  rewrite Hclosed in Hup.
  destruct (negb _); destruct (keepMining l1); intros H.
  - apply IH in H as (evs' & bd & Htr' & ->). rewrite Hup in Htr'.
    exists (([Checkpoint] ++ evs ++ [Commit])
            ++ [EmitBlock (blockData l1)] ++ evs'), bd.
    split; [|done]. rewrite Htr'. by rewrite <-!app_assoc.
  - simplify_eq. by eexists _, _.
  - apply IH in H as (evs' & bd & Htr' & ->). cbn [reset trace set_isBusy
      set_priced set_origins] in Htr'. rewrite Hup in Htr'.
    exists (([Checkpoint] ++ evs ++ [Commit])
            ++ [EmitBlock (blockData l1)] ++ evs'), bd.
    split; [|done]. rewrite Htr'. by rewrite <-!app_assoc.
  - simplify_eq. by eexists _, _.
Qed.

(** X5: What [mine] returns on an idle miner are the transactions of the
    block that the [do] loop of [#mineTxs] has emitted last, in the run of
    [#mineTxs] that the call begins with: the trace of that run ends with
    this block.  When the loop has gone round more than once, that is not
    the first block of the call.  When the [pending] flag is not set or
    one block is asked for, nothing but [idle] follows, and it is the last
    block of the call; otherwise the blocks that follow are those of the
    miner starting over, which [mine] does not return. *)
Theorem mine_returns_last_block fuel blk maxTransactions onlyOneBlock s s' r :
  isBusy s = false →
  mine fuel blk maxTransactions onlyOneBlock s = Ok (s', r) →
  ∃ s1 blk1 evs bd evs',
    mineTxs fuel blk maxTransactions onlyOneBlock (setPricedHeap s)
    = Ok (s1, (blk1, blockTransactions bd))
    ∧ trace s1 = trace s ++ evs ++ [EmitBlock bd]
    ∧ trace s' = trace s1 ++ evs' ++ [EmitIdle]
    ∧ r = Some (blockTransactions bd)
    ∧ (pending s = false ∨ onlyOneBlock = true → evs' = []).
Proof.
  intros Hidle. unfold mine. rewrite Hidle.
  destruct fuel as [|fuel]; [done|]. cbn [mine_private].
  destruct (mineTxs (S fuel) blk maxTransactions onlyOneBlock
              (setPricedHeap s))
    as [[s1 [blk' txs]]|s1|s1] eqn:H1; [|done..].
  pose proof (mineTxs_pending _ _ _ _ _ _ _ H1) as Hpend.
  destruct (mineTxs_result _ _ _ _ _ _ _ _ H1) as (evs & bd & Htr & ->).
  destruct (setPricedHeap_surroundings s) as (Htr0 & _ & Hpend0 & _).
  rewrite Htr0 in Htr. rewrite Hpend0 in Hpend.
  destruct (negb onlyOneBlock && pending s1) eqn:Hagain.
  - destruct (mine_private fuel _ _ false _) as [[s3 r3]|s3|s3] eqn:H3;
      [|done..].
    intros H. simplify_eq.
    apply (mine_private_lift (λ s s', ∃ evs, trace s' = trace s ++ evs)
             (λ _, True)) in H3 as (evs' & Htr');
      [|done| | | | | | | | | |done].
    + exists s1, blk', evs, bd, evs'. split_and!; [done|done| |done|].
      * destruct (setPricedHeap_surroundings s1) as (Htr1 & _).
        cbn in Htr'. rewrite Htr1 in Htr'.
        cbn. rewrite Htr'. by rewrite <-!app_assoc.
      * apply andb_true_iff in Hagain as [Ho Hp]. rewrite Hpend in Hp.
        intros [?|?]; [congruence|]. by subst.
    + intros s0. exists []. by rewrite app_nil_r.
    + intros s2 s4 s5 (e1 & ->) (e2 & ->). exists (e1 ++ e2).
      by rewrite app_assoc.
    + intros s0. exists []. rewrite app_nil_r.
      apply setPricedHeap_surroundings.
    + intros s0. exists []. rewrite app_nil_r.
      apply updatePricedHeap_surroundings.
    + intros s0. exists []. by rewrite app_nil_r.
    + intros b s0. exists []. by rewrite app_nil_r.
    + intros s0. by exists [EmitIdle].
    + intros blk0 s0. eexists. cbn. by rewrite <-!app_assoc.
    + intros blk0 maxTransactions0 s0 s2 l2 _ _ Hsel.
      apply selection_no_block in Hsel as (evs2 & Htr2 & _).
      eexists. cbn. rewrite Htr2. cbn. by rewrite <-!app_assoc.
  - intros H. simplify_eq. exists s1, blk', evs, bd, [].
    by split_and!.
Qed.

(** ** A pool without the heap of an origin *)

(** X10: A pass of the selection loop ends in a [TypeError] exactly when the
    pool has no heap for the origin of the best transaction and the pass
    comes to ask for it: the transaction passes the test on its intrinsic
    gas, and the VM throws for it ([#runTx] then calls [removeBest] on
    [undefined] in its catch block) or returns a result that fits into the
    gas left (the loop does after it has committed the transaction).  A pass
    never runs out of the budget of the embedding. *)
Theorem iteration_TypeError_iff maxTransactions s l :
  ((∃ s', iteration maxTransactions s l = TypeError s')
   ↔ ∃ best,
       Heap.peek (priced s) = Some best
       ∧ intrinsicGas best ≤ blockGasLeft l
       ∧ map_get (from best) (executables_pending s) = None
       ∧ match (vm_runTx best (block l) (world (stateManager s))).2 with
         | Thrown _ => True
         | Returned result => result_gasUsed result ≤ blockGasLeft l
         end)
  ∧ ∀ s', iteration maxTransactions s l ≠ OutOfFuel s'.
Proof.
  split; [split|].
  - intros [s' H]. pass_cases H.
    all: match goal with
         | E : Heap.peek _ = Some ?t |- _ => exists t
         end.
    all: cbn in *; rewrite ?Hvm; cbn.
    all: repeat match goal with
         | E : (_ <? _) = false |- _ => apply N.ltb_ge in E
         | E : (_ <=? _) = true |- _ => apply N.leb_le in E
         end.
    all: by split_and!.
  - intros (best & Hpeek & Hgas & Hget & Hvm).
    apply N.ltb_ge in Hgas.
    unfold iteration, runTx. rewrite Hpeek, Hgas. cbn [fst snd].
    cbn [world stateManager checkpoint set_currentlyExecutingPrice emit
         set_stateManager sm_checkpoint set_trace] in *.
    destruct (vm_runTx best (block l) (world (stateManager s)))
      as [w [result|message]]; cbn [fst snd] in *.
    + apply N.leb_le in Hvm. rewrite Hvm. cbn. rewrite Hget. by eexists.
    + cbn. rewrite Hget. by eexists.
  - intros s' H. by pass_cases H.
Qed.

(** The number of checkpoints that are open on the state manager. *)
Definition depth s : nat := length (checkpoints (stateManager s)).

(** What a [TypeError] leaves behind: a transaction in the priced heap
    whose origin has no heap in the pool. *)
Definition orphan s : Prop :=
  ∃ best, best ∈ priced s
    ∧ map_get (from best) (executables_pending s) = None.

Lemma iteration_depth maxTransactions s l f s' l' :
  iteration maxTransactions s l = Ok (f, s', l') → depth s' = depth s.
Proof. intros H. by pass_cases H. Qed.

Lemma iteration_TypeError_state maxTransactions s l s' :
  iteration maxTransactions s l = TypeError s' →
  isBusy s' = isBusy s
  ∧ (depth s' = depth s ∨ depth s' = S (depth s))
  ∧ orphan s'.
Proof.
  intros H. pass_cases H.
  all: split; [done|]; split; [cbn; auto|].
  all: match goal with
       | E : Heap.peek _ = Some ?t |- _ =>
           exists t; split; [exact (peek_elem _ _ E)|done]
       end.
Qed.

Lemma selection_TypeError_state fuel maxTransactions s l s' :
  selection fuel maxTransactions s l = TypeError s' →
  isBusy s' = isBusy s
  ∧ (depth s' = depth s ∨ depth s' = S (depth s))
  ∧ orphan s'.
Proof.
  revert s l. induction fuel as [|fuel IH]; intros s l; cbn [selection];
    [done|].
  destruct (iteration maxTransactions s l) as [[[f s1] l1]|s1|s1] eqn:Hit.
  - pose proof (iteration_isBusy _ _ _ _ _ _ Hit) as Hb.
    pose proof (iteration_depth _ _ _ _ _ _ Hit) as Hd.
    destruct f; [|done..]. intros H. apply IH in H. by rewrite <-Hb, <-Hd.
  - intros H. simplify_eq. by eapply iteration_TypeError_state.
  - done.
Qed.

Lemma mineTxs_depth fuel blk maxTransactions onlyOneBlock s s' r :
  mineTxs fuel blk maxTransactions onlyOneBlock s = Ok (s', r) →
  depth s' = depth s.
Proof.
  apply (mineTxs_lift (λ s s', depth s' = depth s) (λ _, True)); try done.
  - intros s1 s2 s3. congruence.
  - intros s0. destruct (updatePricedHeap_surroundings s0) as (_ & Hsm & _).
    unfold depth. by rewrite Hsm.
  - intros blk0 maxTransactions0 s0 s1 l1 _ _ Hsel.
    apply selection_replays in Hsel as [_ Hcp].
    unfold depth. cbn in *. by rewrite Hcp.
Qed.

Lemma mineTxs_TypeError fuel blk maxTransactions onlyOneBlock s s' :
  mineTxs fuel blk maxTransactions onlyOneBlock s = TypeError s' →
  isBusy s' = true
  ∧ (depth s' = S (depth s) ∨ depth s' = S (S (depth s)))
  ∧ orphan s'.
Proof.
  revert blk maxTransactions s.
  induction fuel as [|fuel IH]; intros blk maxTransactions s;
    cbn [mineTxs]; [done|].
  destruct (maxTransactions =? 0)%Z; [done|].
  destruct (selection _ _ _ _) as [[s1 l1]|s1|s1] eqn:Hsel; [| |done].
  - apply selection_replays in Hsel as [_ Hcp].
    assert (depth (closed s1 l1) = depth s) as Hd
      by (unfold depth; cbn in *; by rewrite Hcp).
    destruct onlyOneBlock; [done|].
    destruct (updatePricedHeap_surroundings (closed s1 l1))
      as (_ & Hsm & _).
    assert (depth (updatePricedHeap (closed s1 l1)) = depth s) as Hd'
      by (unfold depth in *; by rewrite Hsm).
    assert (depth (reset (updatePricedHeap (closed s1 l1))) = depth s)
      as Hd'' by exact Hd'.
    destruct (negb _); destruct (keepMining l1); try done.
    + intros H. apply IH in H. by rewrite Hd' in H.
    + intros H. apply IH in H. by rewrite Hd'' in H.
  - intros H. simplify_eq.
    apply selection_TypeError_state in Hsel as (Hb & Hd & Ho).
    split; [done|]. split; [|done]. unfold depth in *. cbn in Hd.
    destruct Hd as [->| ->]; auto.
Qed.

(** X11: When a call of [mine] ends in a [TypeError], the miner is left as
    the error found it: still marked busy, so that every later call returns
    [undefined]; with the block-level checkpoint open on the state manager,
    and the transaction-level one as well when it was the VM that threw; and
    with the transaction whose origin has no heap in the pool still in the
    priced heap. *)
Theorem mine_TypeError_leaves_busy
    fuel blk maxTransactions onlyOneBlock s s' :
  mine fuel blk maxTransactions onlyOneBlock s = TypeError s' →
  isBusy s' = true
  ∧ (depth s' = S (depth s) ∨ depth s' = S (S (depth s)))
  ∧ orphan s'
  ∧ ∀ fuel' blk' maxTransactions' onlyOneBlock',
      ∃ s'', mine fuel' blk' maxTransactions' onlyOneBlock' s'
             = Ok (s'', None).
Proof.
  intros H.
  assert (isBusy s' = true
          ∧ (depth s' = S (depth s) ∨ depth s' = S (S (depth s)))
          ∧ orphan s') as (Hb & Hd & Ho).
  { unfold mine in H. destruct (isBusy s); [done|].
    destruct (setPricedHeap_surroundings s) as (_ & Hsm & _).
    assert (depth (setPricedHeap s) = depth s) as Hd0
      by (unfold depth; by rewrite Hsm).
    revert H Hd0. generalize (setPricedHeap s). clear Hsm. intros s0.
    destruct (mine_private fuel _ _ _ _) as [[s1 r1]|s1|s1] eqn:H1;
      [done| |done].
    intros H Hd0. simplify_eq. rewrite <-Hd0. clear Hd0 s.
    revert blk maxTransactions onlyOneBlock s0 H1.
    induction fuel as [|fuel IH];
      intros blk maxTransactions onlyOneBlock s0; cbn [mine_private];
      [done|].
    destruct (mineTxs (S fuel) blk maxTransactions onlyOneBlock s0)
      as [[s1 [lastBlock transactions]]|s1|s1] eqn:Hm; [| |done].
    - apply mineTxs_depth in Hm as Hd1.
      destruct (negb onlyOneBlock && pending s1); [|done].
      destruct (mine_private fuel _ _ false _) as [[s3 r3]|s3|s3] eqn:H3;
        [done| |done].
      intros H. simplify_eq. apply IH in H3.
      destruct (setPricedHeap_surroundings s1) as (_ & Hsm & _).
      assert (depth (set_pending false (setPricedHeap s1)) = depth s0)
        as Hd2 by (unfold depth in *; cbn; by rewrite Hsm).
      by rewrite Hd2 in H3.
    - intros H. simplify_eq. by eapply mineTxs_TypeError. }
  split_and!; try done.
  intros fuel' blk' maxTransactions' onlyOneBlock'. unfold mine.
  rewrite Hb. by eexists.
Qed.

(** ** The two loops over the pool *)

(** X14: After [#setPricedHeap] every head of the pool is locked, so that
    neither it nor [#updatePricedHeap] finds anything to push when it is
    called right after. *)
Theorem setPricedHeap_idempotent s :
  heads_locked (executables_pending s) (setPricedHeap s)
  ∧ setPricedHeap (setPricedHeap s) = setPricedHeap s
  ∧ updatePricedHeap (setPricedHeap s) = setPricedHeap s.
Proof.
  pose proof (setPricedHeap_heads_locked s) as Hl.
  destruct (setPricedHeap_surroundings s) as (_ & _ & _ & _ & _ & Hpool & _).
  split; [done|]. split.
  - unfold setPricedHeap at 1. rewrite Hpool.
    by apply foldl_setPricedHeap_idle.
  - unfold updatePricedHeap. rewrite Hpool.
    by apply foldl_updatePricedHeap_idle.
Qed.

(** What [#updatePricedHeap] has added to the heap. *)
Definition picks (ms : list (string * list Transaction)) s s'
    (added : list Transaction) : Prop :=
  priced s' ≡ₚ added ++ priced s
  ∧ locked s' ≡ₚ added ++ locked s
  ∧ origins s' = list_to_set (from <$> added) ∪ origins s
  ∧ currentlyExecutingPrice s' = currentlyExecutingPrice s
  ∧ NoDup (from <$> added)
  ∧ ∀ tx, tx ∈ added →
      (tx ∉ locked s) ∧ (from tx ∉ origins s)
      ∧ currentlyExecutingPrice s ≤ gasPrice tx
      ∧ ∃ m, m ∈ ms ∧ Heap.peek m.2 = Some tx.

Lemma foldl_updatePricedHeap_picks ms s :
  ∃ added, picks ms s (foldl updatePricedHeap_body s ms) added.
Proof. clear vm_runTx.
  revert s. induction ms as [|m ms IH]; intros s; simpl.
  { exists []. split_and!; try done. { set_solver. } { constructor. }
    by intros tx ?%elem_of_nil. }
  destruct (IH (updatePricedHeap_body s m))
    as (added & Hp & Hl & Ho & Hc & Hnd & Hadded).
  unfold updatePricedHeap_body in *.
  destruct (Heap.peek m.2) as [next|] eqn:Hnext;
    [destruct (is_locked next s) eqn:Hfree;
     [|destruct (gasPrice next <? currentlyExecutingPrice s) eqn:Hprice;
       [|destruct (bool_decide (from next ∈ origins s)) eqn:Horigin]]|].
  1-3,5: exists added; split_and!; try done;
    intros tx Htx; destruct (Hadded tx Htx) as (? & ? & ? & m' & ? & ?);
    split_and!; try done; exists m'; split; [by right|done].
  apply is_locked_false in Hfree. apply N.ltb_ge in Hprice.
  apply bool_decide_eq_false in Horigin. cbn in *.
  exists (next :: added). split_and!.
  - rewrite Hp, (push_perm byPrice next (priced s)). solve_Permutation.
  - rewrite Hl. solve_Permutation.
  - rewrite Ho, fmap_cons. set_solver.
  - done.
  - rewrite fmap_cons. apply NoDup_cons. split; [|done].
    intros (tx & Heq & Htx)%list_elem_of_fmap.
    destruct (Hadded tx Htx) as (_ & Hfrom & _). set_solver.
  - intros tx [->|Htx]%elem_of_cons.
    + split_and!; try done. exists m. split; [left|done].
    + destruct (Hadded tx Htx) as (Hlock & Hfrom & Hge & m' & Hm' & Hpeek).
      split_and!; [set_solver|set_solver|done|].
      exists m'. split; [by right|done].
Qed.

(** X15: [#updatePricedHeap] only adds to the priced heap, and what it adds
    are heads of the pool that were not locked, one for an origin at most
    and none for an origin that was in the origin set, each priced at least
    as high as the transaction last executed.  It locks them and adds their
    origins to the set; it removes nothing. *)
Theorem updatePricedHeap_picks s :
  ∃ added, picks (executables_pending s) s (updatePricedHeap s) added.
Proof. apply foldl_updatePricedHeap_picks. Qed.

(** ** The comparator and [replaceFromHeap] *)

(** X17: [byPrice] is a strict weak order on the slots of an array: no slot
    comes before itself, no two slots come before each other, and a slot
    that comes before another comes before every third one or has that one
    before the other.  Transactions of equal gas price are not ordered by
    it. *)
Theorem byPrice_strict_weak_order (values : list Transaction) :
  (∀ a, byPrice values a a = false)
  ∧ (∀ a b, byPrice values a b = true → byPrice values b a = false)
  ∧ (∀ a b c, (b < length values)%nat → byPrice values a c = true →
       byPrice values a b = true ∨ byPrice values b c = true)
  ∧ (∀ a b x y, values !! a = Some x → values !! b = Some y →
       gasPrice x = gasPrice y →
       byPrice values a b = false ∧ byPrice values b a = false).
Proof. clear vm_runTx.
  unfold byPrice. split_and!.
  - intros a. destruct (values !! a); [|done]. apply N.ltb_irrefl.
  - intros a b. destruct (values !! a), (values !! b); try done.
    rewrite N.ltb_lt, N.ltb_ge. lia.
  - intros a b c Hb. apply lookup_lt_is_Some_2 in Hb as [y Hy]. rewrite Hy.
    destruct (values !! a), (values !! c); try done.
    rewrite !N.ltb_lt. lia.
  - intros a b x y -> -> Heq. rewrite Heq, N.ltb_irrefl. done.
Qed.

(** X16: [replaceFromHeap] tells whether the priced heap has a transaction
    left.  With a transaction in [source] it puts that one in the place of
    the root and locks it; [source] itself it leaves as it is, so the
    transaction is then in the priced heap and in the pool.  Without one it
    drops the root. *)
Theorem replaceFromHeap_result source s best :
  Heap.peek (priced s) = Some best →
  let r := replaceFromHeap source s in
  (r.2 = true ↔ priced r.1 ≠ [])
  ∧ executables_pending r.1 = executables_pending s
  ∧ match Heap.peek source with
    | Some next =>
        next :: priced s ≡ₚ best :: priced r.1
        ∧ is_locked next r.1 = true
    | None => priced s ≡ₚ best :: priced r.1 ∧ locked r.1 = locked s
    end.
Proof. clear vm_runTx.
  intros Hpeek. unfold replaceFromHeap.
  destruct (Heap.peek source) as [next|]; cbn.
  - split_and!; try done.
    + split; [|done]. intros _ Hnil.
      pose proof (replaceBest_perm byPrice (priced s) best next Hpeek) as Hp.
      rewrite Hnil in Hp. apply Permutation_length in Hp.
      destruct (priced s); [done|]. cbn in Hp. lia.
    + by apply replaceBest_perm.
    + apply is_locked_lock.
  - split_and!; try done; [|by apply removeBest_perm].
    rewrite removeBest_true.
    pose proof (length_removeBest byPrice (priced s)) as Hlen.
    destruct (Heap.removeBest byPrice (priced s)).1 eqn:E; cbn in *.
    + split; [lia|done].
    + split; [done|lia].
Qed.

(** ** A miner that finds every head of the pool locked *)

Lemma mineTxs_starved fuel blk maxTransactions onlyOneBlock s :
  maxTransactions ≠ 0%Z → priced s = [] →
  heads_locked (executables_pending s) s →
  mineTxs (S fuel) blk maxTransactions onlyOneBlock s
  = Ok (reset (closed (opened s) (first_locals blk)), (blk, [])).
Proof.
  intros Hmax Hpriced Hheads. cbn [mineTxs].
  apply Z.eqb_neq in Hmax. rewrite Hmax. unfold selection_fuel.
  rewrite selection_empty by done. cbn [keepMining blockData block].
  destruct onlyOneBlock; [done|]. unfold updatePricedHeap.
  rewrite foldl_updatePricedHeap_idle by (by eapply heads_locked_ext).
  destruct (negb _) eqn:E; [|done].
  cbn in E. by rewrite Hpriced in E.
Qed.

(** X9: An idle miner with an empty priced heap that finds every head of the
    pool locked mines nothing: a call of [mine] emits one empty block and
    returns an empty list, and leaves the pool, the locks and the state
    manager as they are; so the same holds for the call after it.  [#reset]
    clears the priced heap but not the locks of the transactions that were
    in it, and nothing else in the miner unlocks them. *)
Theorem locked_heads_are_never_mined
    fuel blk maxTransactions onlyOneBlock s :
  isBusy s = false → pending s = false → priced s = [] →
  heads_locked (executables_pending s) s →
  maxTransactions ≠ 0%Z → (1 ≤ fuel)%nat →
  ∃ s',
    mine fuel blk maxTransactions onlyOneBlock s = Ok (s', Some [])
    ∧ trace s'
      = trace s
        ++ [Checkpoint; Commit;
            EmitBlock (mkBlockData [] [] [] 0 (header_timestamp blk));
            EmitIdle]
    ∧ executables_pending s' = executables_pending s
    ∧ locked s' = locked s
    ∧ stateManager s' = stateManager s
    ∧ isBusy s' = false ∧ pending s' = false ∧ priced s' = []
    ∧ heads_locked (executables_pending s') s'.
Proof.
  intros Hidle Hpend Hpriced Hheads Hmax Hfuel.
  destruct fuel as [|fuel]; [lia|].
  assert (setPricedHeap s = s) as Hseed
    by (by apply foldl_setPricedHeap_idle).
  exists (emit EmitIdle (reset (closed (opened s) (first_locals blk)))).
  split.
  { unfold mine. rewrite Hidle, Hseed. cbn [mine_private].
    rewrite mineTxs_starved by done.
    destruct (negb onlyOneBlock && pending _) eqn:E; [|done].
    cbn in E. rewrite Hpend in E. by destruct onlyOneBlock. }
  split; [cbn; by rewrite <-!app_assoc|].
  split; [done|]. split; [done|].
  split; [cbn; by destruct (stateManager s)|].
  split; [done|]. split; [done|]. split; [done|].
  by eapply heads_locked_ext.
Qed.

(** ** Instamine *)

(** X13: With [instamine] set, a call of [mine] with [maxTransactions] 1
    emits blocks of one transaction at most, and so does every block that it
    goes on to mine; in general no block holds more than the greater of
    [maxTransactions] and 1 when [maxTransactions] is not negative. *)
Theorem instamine_blocks_hold_one
    fuel blk maxTransactions onlyOneBlock s s' r :
  instamine = true → (0 ≤ maxTransactions)%Z →
  mine fuel blk maxTransactions onlyOneBlock s = Ok (s', r) →
  ∃ evs, trace s' = trace s ++ evs
    ∧ ∀ b, EmitBlock b ∈ evs →
        (Z.of_nat (length (blockTransactions b))
         ≤ Z.max maxTransactions 1)%Z.
Proof.
  intros Hinsta Hpos.
  set (P := λ b : BlockData,
         (Z.of_nat (length (blockTransactions b))
          ≤ Z.max maxTransactions 1)%Z).
  apply (mine_lift (emits P)
           (λ m, (0 ≤ m ≤ Z.max maxTransactions 1)%Z)); [..|lia].
  - rewrite Hinsta. lia.
  - intros s0. by apply emits_same.
  - apply emits_trans.
  - intros s0. apply emits_same, setPricedHeap_surroundings.
  - intros s0. apply emits_same, updatePricedHeap_surroundings.
  - intros s0. by apply emits_same.
  - intros b s0. by apply emits_same.
  - intros s0. exists [EmitIdle]. split; [done|].
    intros b Hb. apply elem_of_cons in Hb as [Hb|Hb]; [done|].
    by apply elem_of_nil in Hb.
  - intros blk0 s0. eexists. cbn. rewrite <-!app_assoc.
    split; [reflexivity|]. intros b Hb.
    repeat (apply elem_of_cons in Hb as [Hb|Hb]; [simplify_eq|]).
    + unfold P. cbn. lia.
    + by apply elem_of_nil in Hb.
  - intros blk0 m s0 s1 l1 Hm Hm0 Hsel.
    pose proof (selection_locals_ok _ _ _ _ _ _ _ _ _
                  (locals_ok_initial blockGasLimit false blk0) Hsel)
      as (Hlen & _).
    assert (Z.of_nat (numTransactions l1) ≤ m)%Z as Hcount
      by (apply (selection_count _ _ _ _ _ _ Hsel); cbn; lia).
    apply selection_no_block in Hsel as (evs & Htr & Hno).
    exists ([Checkpoint] ++ evs ++ [Commit; EmitBlock (blockData l1)]).
    split. { cbn. rewrite Htr. cbn. by rewrite <-!app_assoc. }
    intros b Hb. apply elem_of_cons in Hb as [Hb|Hb]; [done|].
    apply elem_of_app in Hb as [Hb|Hb]; [by apply Hno in Hb|].
    repeat (apply elem_of_cons in Hb as [Hb|Hb]; [simplify_eq|]).
    + unfold P. rewrite <-Hlen. lia.
    + by apply elem_of_nil in Hb.
Qed.

(** ** When nothing stands in the way *)

(** Every head of the pool is in the priced heap. *)
Definition heads_in (m : list (string * list Transaction))
    (p : list Transaction) : Prop :=
  ∀ k h tx, (k, h) ∈ m → Heap.peek h = Some tx → tx ∈ p.

Lemma pool_txs_elem m k (h : list Transaction) tx :
  (k, h) ∈ m → tx ∈ h → tx ∈ pool_txs m.
Proof. clear vm_runTx.
  intros Hin Htx. unfold pool_txs. apply list_elem_of_In, in_concat.
  exists h. split; [|by apply list_elem_of_In].
  apply list_elem_of_In, list_elem_of_fmap. by exists (k, h).
Qed.

Lemma removeBest_more_iff (less : list Transaction → nat → nat → bool) h :
  (Heap.removeBest less h).2 = true ↔ (Heap.removeBest less h).1 ≠ [].
Proof. clear vm_runTx.
  rewrite removeBest_true.
  pose proof (length_removeBest less h) as Hlen.
  destruct (Heap.removeBest less h).1; cbn in *.
  - split; [lia|done].
  - split; [done|lia].
Qed.

Lemma heads_in_rest m p best h (h' : list Transaction) p' :
  pool_wf m → heads_in m p → NoDup (from <$> p) →
  Heap.peek p = Some best → map_get (from best) m = Some h →
  (∀ tx, tx ∈ p → tx ≠ best → tx ∈ p') →
  (∀ tx, Heap.peek h' = Some tx → tx ∈ p') →
  heads_in (map_set (from best) h' m) p'.
Proof. clear vm_runTx.
  intros Hpool Hin Hnd Hpeek Hget Hrest Hnext k h0 tx Hk Htx.
  assert (map_get k (map_set (from best) h' m) = Some h0) as Hget0.
  { apply map_get_elem; [|done]. rewrite map_set_keys. apply Hpool. }
  destruct (decide (k = from best)) as [->|Hne].
  - rewrite (map_get_map_set_eq _ _ _ _ Hget) in Hget0. simplify_eq. auto.
  - rewrite map_get_map_set_ne in Hget0 by done.
    apply map_get_Some_elem in Hget0.
    apply Hrest; [by eapply Hin|]. intros ->.
    apply Hne. symmetry.
    apply (proj2 Hpool k h0 best); [done|by apply peek_elem].
Qed.

Section plenty.
(** A bound [g] on the gas of every transaction of the pool [pool0], and
    a block gas limit that has room for all of them and more than
    [TRANSACTION_GAS] to spare. *)
Variable pool0 : list (string * list Transaction).
Variable g : N.
Hypothesis vm_returns : ∀ tx blk w,
  tx ∈ pool_txs pool0 →
  intrinsicGas tx ≤ g
  ∧ ∃ result, (vm_runTx tx blk w).2 = Returned result
      ∧ result_gasUsed result ≤ g.
Hypothesis room :
  N.of_nat (length (pool_txs pool0)) * g + TRANSACTION_GAS < blockGasLimit.
Variable maxTransactions : Z.
Hypothesis no_cap :
  (maxTransactions < 0 ∨ Z.of_nat (length (pool_txs pool0)) < maxTransactions)%Z.

(** What holds before and after every pass of the selection loop. *)
Definition all_goes_well s l : Prop :=
  miner_ok s
  ∧ heads_in (executables_pending s) (priced s)
  ∧ numTransactions l = length (blockTransactions (blockData l))
  ∧ pool_txs pool0
    ≡ₚ pool_txs (executables_pending s) ++ blockTransactions (blockData l)
  ∧ blockGasLimit ≤ blockGasLeft l + N.of_nat (numTransactions l) * g
  ∧ (priced s = [] → keepMining l = false).

Lemma iteration_all_goes_well s l f s' l' :
  all_goes_well s l → iteration maxTransactions s l = Ok (f, s', l') →
  all_goes_well s' l' ∧ (f = Exit ∧ priced s' = [] ∨ f = Next).
Proof using vm_returns room no_cap.
  intros (Hok & Hin & Hn & Hperm & Hgas & Hkeep) H.
  destruct (Heap.peek (priced s)) as [best|] eqn:Hpeek.
  2: { unfold iteration in H. rewrite Hpeek in H. simplify_eq.
       split; [done|]. left. split; [done|]. by apply peek_None. }
  destruct Hok as (Hpool & Hheads & Hlocks & Hnd).
  destruct (Hheads best (peek_elem _ _ Hpeek)) as (h & Hget & Hhead).
  assert (best ∈ pool_txs pool0) as Hbest.
  { rewrite Hperm. apply elem_of_app. left.
    eapply pool_txs_elem; [by apply map_get_Some_elem|by apply peek_elem]. }
  assert (numTransactions l < length (pool_txs pool0))%nat as Hless.
  { apply Permutation_length in Hperm. rewrite length_app, <-Hn in Hperm.
    pose proof (pool_txs_taken _ _ _ _ Hget Hhead) as Hp.
    apply Permutation_length in Hp. cbn in Hp. lia. }
  assert (g + TRANSACTION_GAS < blockGasLeft l) as Hroom by nia.
  destruct (vm_returns best (block l) (world (stateManager s)) Hbest)
    as (Hintr & result & Hres & Hused).
  pose proof (iteration_miner_ok _ _ _ _ _ _
                (conj Hpool (conj Hheads (conj Hlocks Hnd))) H) as Hok'.
  pose proof (removeBest_perm byPrice _ _ Hpeek) as Hdrop.
  pose proof (pool_txs_taken _ _ _ _ Hget Hhead) as Htaken.
  pass_cases H; cbn in *.
  all: repeat match goal with
       | E : (_ <? _) = true |- _ => apply N.ltb_lt in E
       | E : (_ <? _) = false |- _ => apply N.ltb_ge in E
       | E : (_ <=? _) = true |- _ => apply N.leb_le in E
       | E : (_ <=? _) = false |- _ => apply N.leb_gt in E
       | E : _ || _ = true |- _ => apply orb_true_iff in E as [E|E]
       | E : (_ =? _)%Z = true |- _ => apply Z.eqb_eq in E
       end.
  all: try lia.
  all: try (rewrite Hvm in Hres; cbn in Hres; simplify_eq; lia).
  all: rewrite Hvm in Hres; cbn in Hres; simplify_eq.
  - split; [|by right].
    pose proof (replaceBest_perm byPrice _ _ t0 E) as Hrep.
    split; [exact Hok'|]. cbn. rewrite Hn, array_set_length.
    split; [|split; [|split; [|split]]].
    + eapply heads_in_rest; try done.
      * intros tx Htx Hne.
        assert (tx ∈ best :: (Heap.replaceBest byPrice t0 (priced s)).1)
          as [?|?]%elem_of_cons by (rewrite <-Hrep; by right); done.
      * intros tx Htx. assert (tx = t0) as -> by congruence.
        destruct (decide (t0 = best)) as [->|Hne].
        -- apply Permutation_cons_inv in Hrep. rewrite <-Hrep.
           by apply peek_elem.
        -- assert (t0 ∈ best :: (Heap.replaceBest byPrice t0 (priced s)).1)
             as [?|?]%elem_of_cons by (rewrite <-Hrep; left); done.
    + rewrite length_app. cbn. lia.
    + rewrite Hperm, Htaken. solve_Permutation.
    + rewrite Nat2N.inj_succ. nia.
    + intros Hnil. rewrite Hnil in Hrep. apply Permutation_length in Hrep.
      apply peek_Some_length in E. cbn in Hrep. lia.
  - split; [|by right].
    split; [exact Hok'|]. cbn. rewrite Hn, array_set_length.
    split; [|split; [|split; [|split]]].
    + eapply heads_in_rest; try done.
      * intros tx Htx Hne.
        by assert (tx ∈ best :: (Heap.removeBest byPrice (priced s)).1)
          as [?|?]%elem_of_cons by (by rewrite <-Hdrop).
      * intros tx Htx. congruence.
    + rewrite length_app. cbn. lia.
    + rewrite Hperm, Htaken. solve_Permutation.
    + rewrite Nat2N.inj_succ. nia.
    + intros Hnil.
      destruct (Heap.removeBest byPrice (priced s)).2 eqn:Hmore; [|done].
      by apply removeBest_more_iff in Hmore.
  - split; [|by right].
    split; [exact Hok'|]. cbn. rewrite Hn, array_set_length.
    split; [|split; [|split; [|split]]].
    + eapply heads_in_rest; try done.
      * intros tx Htx Hne.
        by assert (tx ∈ best :: (Heap.removeBest byPrice (priced s)).1)
          as [?|?]%elem_of_cons by (by rewrite <-Hdrop).
      * intros tx Htx.
        destruct (Heap.removeBest byNonce l0).1 eqn:Hrest; [done|].
        assert ((Heap.removeBest byNonce l0).2 = true); [|congruence].
        apply removeBest_more_iff. by rewrite Hrest.
    + rewrite length_app. cbn. lia.
    + rewrite Hperm, Htaken. solve_Permutation.
    + rewrite Nat2N.inj_succ. nia.
    + intros Hnil.
      destruct (Heap.removeBest byPrice (priced s)).2 eqn:Hmore; [|done].
      by apply removeBest_more_iff in Hmore.
Qed.

Lemma selection_all_goes_well fuel s l s' l' :
  all_goes_well s l → selection fuel maxTransactions s l = Ok (s', l') →
  all_goes_well s' l' ∧ priced s' = [].
Proof using vm_returns room no_cap.
  revert s l. induction fuel as [|fuel IH]; intros s l Hwell;
    cbn [selection]; [done|].
  destruct (iteration maxTransactions s l) as [[[f s1] l1]|s1|s1] eqn:Hit;
    [|done..].
  destruct (iteration_all_goes_well _ _ _ _ _ Hwell Hit)
    as [Hwell1 [[-> Hnil]| ->]]; intros H; simplify_eq; eauto.
Qed.

End plenty.

Lemma heads_in_nil m : heads_in m [] → pool_txs m = [].
Proof. clear vm_runTx.
  unfold pool_txs. induction m as [|[k h] m IH]; intros Hin; [done|].
  cbn. destruct h as [|tx h].
  - apply IH. intros k' h' tx Hk. apply (Hin k' h' tx). by right.
  - exfalso. eapply elem_of_nil, (Hin k (tx :: h) tx); [left|done].
Qed.

Lemma foldl_updatePricedHeap_no_heads ms s :
  pool_txs ms = [] → foldl updatePricedHeap_body s ms = s.
Proof. clear vm_runTx.
  unfold pool_txs. induction ms as [|[k h] ms IH]; [done|].
  cbn. intros [-> Hnil]%app_eq_nil. auto.
Qed.

Lemma mineTxs_last_block fuel blk maxTransactions onlyOneBlock s s1 l1 :
  maxTransactions ≠ 0%Z →
  selection (selection_fuel (opened s)) maxTransactions (opened s)
    (first_locals blk) = Ok (s1, l1) →
  keepMining l1 = false → priced s1 = [] →
  pool_txs (executables_pending s1) = [] →
  mineTxs (S fuel) blk maxTransactions onlyOneBlock s
  = Ok (reset (closed s1 l1), (block l1, blockTransactions (blockData l1))).
Proof.
  intros Hmax Hsel Hkeep Hpriced Hpool. cbn [mineTxs].
  apply Z.eqb_neq in Hmax. rewrite Hmax, Hsel.
  destruct onlyOneBlock; [done|]. unfold updatePricedHeap.
  rewrite foldl_updatePricedHeap_no_heads by done.
  destruct (negb _) eqn:E; [cbn in E; by rewrite Hpriced in E|].
  by rewrite Hkeep.
Qed.

(** X19: An idle miner with an empty priced heap, over a well-formed pool
    none of whose heads is locked, mines the whole pool in one block when
    nothing stands in the way: every transaction of the pool has an
    intrinsic gas of [g] at most and the VM returns for it, using [g] at
    most; the block gas limit has room for all of them with more than
    [TRANSACTION_GAS] to spare; and [maxTransactions] is negative or greater
    than their number.  The call returns the transactions of the pool, in
    some order; it emits one block, which holds them, sends no transaction
    back, and leaves the pool empty and the miner reset. *)
Theorem mine_mines_the_pool fuel blk maxTransactions onlyOneBlock s g :
  isBusy s = false → pending s = false → priced s = [] →
  pool_wf (executables_pending s) →
  (∀ m tx, m ∈ executables_pending s → Heap.peek m.2 = Some tx →
           tx ∉ locked s) →
  (∀ tx blk w,
     tx ∈ pool_txs (executables_pending s) →
     intrinsicGas tx ≤ g
     ∧ ∃ result, (vm_runTx tx blk w).2 = Returned result
         ∧ result_gasUsed result ≤ g) →
  N.of_nat (length (pool_txs (executables_pending s))) * g + TRANSACTION_GAS
  < blockGasLimit →
  (maxTransactions < 0
   ∨ Z.of_nat (length (pool_txs (executables_pending s)))
     < maxTransactions)%Z →
  (1 ≤ fuel)%nat →
  ∃ s' txs evs bd,
    mine fuel blk maxTransactions onlyOneBlock s = Ok (s', Some txs)
    ∧ txs ≡ₚ pool_txs (executables_pending s)
    ∧ trace s'
      = trace s ++ [Checkpoint] ++ evs ++ [Commit; EmitBlock bd; EmitIdle]
    ∧ blockTransactions bd = txs
    ∧ (∀ b, EmitBlock b ∉ evs) ∧ rejected evs = []
    ∧ pool_txs (executables_pending s') = []
    ∧ is_reset s'.
Proof.
  intros Hidle Hpend Hpriced Hpool Hfree Hvm Hroom Hcap Hfuel.
  destruct fuel as [|fuel]; [lia|].
  assert (miner_ok s) as Hok.
  { split; [done|]. rewrite Hpriced. split_and!.
    - by intros tx ?%elem_of_nil.
    - by intros tx ?%elem_of_nil.
    - constructor. }
  pose proof (setPricedHeap_miner_ok s Hok) as Hok0.
  destruct (setPricedHeap_surroundings s)
    as (Htrace & _ & Hpend0 & _ & _ & Hsame & _).
  assert (heads_in (executables_pending s) (priced (setPricedHeap s)))
    as Hheads.
  { intros k h tx Hk Hpeek.
    destruct (foldl_setPricedHeap_seeded (executables_pending s) s)
      as (_ & _ & Hnew).
    apply Hnew; [|by apply (Hfree (k, h))].
    pose proof (setPricedHeap_heads_locked s (k, h) tx Hk Hpeek) as Hl.
    unfold is_locked in Hl. by apply bool_decide_eq_true_1 in Hl. }
  assert (all_goes_well (executables_pending s) g
            (opened (setPricedHeap s)) (first_locals blk)) as Hwell.
  { split; [exact Hok0|]. cbn. rewrite Hsame, app_nil_r.
    split; [done|]. split; [done|]. split; [done|]. split; [lia|done]. }
  destruct (selection (selection_fuel (opened (setPricedHeap s)))
              maxTransactions (opened (setPricedHeap s)) (first_locals blk))
    as [[s1 l1]|s1|s1] eqn:Hsel.
  2: { assert (ends_wf fst
                 (selection (selection_fuel (opened (setPricedHeap s)))
                    maxTransactions (opened (setPricedHeap s))
                    (first_locals blk))) as Hwf
         by (by apply selection_wf, miner_ok_wf).
       by rewrite Hsel in Hwf. }
  2: { by apply selection_fuel_enough in Hsel. }
  destruct (selection_all_goes_well _ _ Hvm Hroom _ Hcap _ _ _ _ _ Hwell Hsel)
    as [(Hok1 & Hheads1 & Hn1 & Hperm1 & _ & Hkeep1) Hpriced1].
  rewrite Hpriced1 in Hheads1. apply heads_in_nil in Hheads1.
  rewrite Hheads1 in Hperm1. cbn in Hperm1.
  destruct (selection_accounts _ _ _ _ _ _
              (Hok0 : miner_ok (opened (setPricedHeap s))) Hsel)
    as (_ & evs & Htr & _ & Hacc).
  destruct (selection_no_block _ _ _ _ _ _ Hsel) as (evs' & Htr' & Hno).
  rewrite Htr in Htr'. apply app_inv_head in Htr'. subst evs'.
  exists (emit EmitIdle (reset (closed s1 l1))),
    (blockTransactions (blockData l1)), evs, (blockData l1).
  split.
  { unfold mine. rewrite Hidle. cbn [mine_private].
    rewrite (mineTxs_last_block _ _ _ _ _ s1 l1) by (auto; lia).
    destruct (negb onlyOneBlock && pending _) eqn:E; [|done].
    apply andb_true_iff in E as [_ E]. cbn in E.
    apply selection_shrinks in Hsel as [Hp _]. cbn in Hp. congruence. }
  split; [by rewrite Hperm1|].
  split.
  { cbn. rewrite Htr. cbn. rewrite Htrace. by rewrite <-!app_assoc. }
  split; [done|]. split; [done|].
  split.
  { cbn in Hacc. rewrite Hheads1, Hsame, Hperm1 in Hacc. cbn in Hacc.
    apply Permutation_length in Hacc. rewrite length_app in Hacc.
    apply length_zero_iff_nil. lia. }
  split; [done|]. done.
Qed.

(** ** The origins of the priced heap *)

(** The set [#origins] holds the origin of every transaction in the priced
    heap. *)
Definition origins_cover s : Prop :=
  ∀ tx, tx ∈ priced s → from tx ∈ origins s.

Lemma iteration_origins_cover maxTransactions s l f s' l' :
  miner_ok s → origins_cover s →
  iteration maxTransactions s l = Ok (f, s', l') →
  origins_cover s'.
Proof.
  intros Hok Hcov H. unfold origins_cover in *.
  pass_cases H; cbn -[union difference].
  all: try done.
  1: { intros tx Htx.
       destruct (agree_rest _ _ _ _ _ Hok (removeBest_perm byPrice _ _ E))
         as (_ & Hfrom & _).
       apply elem_of_difference.
       split; [|by intros ?%elem_of_singleton%Hfrom].
       apply Hcov. rewrite (removeBest_perm byPrice _ _ E). by right. }
  all: intros tx Htx.
  all: try (apply Hcov; rewrite (removeBest_perm byPrice _ _ E); by right).
  all: match goal with
       | Hget : map_get (from _) _ = Some ?h,
         Hnext : Heap.peek (Heap.removeBest byNonce ?h).1 = Some ?next |- _ =>
           assert (from next = from t) as Hsame
             by (apply (proj2 (proj1 Hok) (from t) h next);
                 [by apply map_get_Some_elem
                 |by eapply removeBest_subset, peek_elem]);
           assert (tx ∈ next :: priced s) as [->|?]%elem_of_cons
             by (rewrite (replaceBest_perm byPrice _ _ next E); by right)
       end.
  all: try by apply Hcov.
  all: rewrite Hsame; by apply Hcov, peek_elem.
Qed.

Lemma selection_origins_cover fuel maxTransactions s l s' l' :
  miner_ok s ∧ origins_cover s →
  selection fuel maxTransactions s l = Ok (s', l') →
  miner_ok s' ∧ origins_cover s'.
Proof.
  apply (selection_lift (λ s _, miner_ok s ∧ origins_cover s)).
  intros s1 l1 f s2 l2 [Hok Hcov] Hit. split.
  - by eapply iteration_miner_ok.
  - by eapply iteration_origins_cover.
Qed.

Lemma seed_body_origins_cover s body :
  (body = setPricedHeap_body ∨ body = updatePricedHeap_body) →
  ∀ m, origins_cover s → origins_cover (body s m).
Proof. clear vm_runTx.
  intros Hbody m Hcov.
  assert (∀ next,
    origins_cover
      (lock next
         (set_priced (Heap.push byPrice next (priced s))
            (set_origins ({[from next]} ∪ origins s) s)))) as Hpush.
  { intros next tx Htx. cbn -[union] in *.
    rewrite (push_perm byPrice) in Htx.
    apply elem_of_cons in Htx as [->|Htx]; [set_solver|].
    apply elem_of_union. right. by apply Hcov. }
  destruct Hbody as [-> | ->];
    unfold setPricedHeap_body, updatePricedHeap_body;
    repeat case_match; auto.
Qed.

Lemma foldl_origins_cover (body : State → string * list Transaction → State) :
  (∀ s m, origins_cover s → origins_cover (body s m)) →
  ∀ ms s, origins_cover s → origins_cover (foldl body s ms).
Proof. clear vm_runTx.
  intros Hbody ms. induction ms as [|m ms IH]; intros s Hcov; simpl; auto.
Qed.

Lemma setPricedHeap_origins_cover s :
  origins_cover s → origins_cover (setPricedHeap s).
Proof. clear vm_runTx.
  apply foldl_origins_cover. intros s0 m.
  apply seed_body_origins_cover. by left.
Qed.

Lemma updatePricedHeap_origins_cover s :
  origins_cover s → origins_cover (updatePricedHeap s).
Proof. clear vm_runTx.
  apply foldl_origins_cover. intros s0 m.
  apply seed_body_origins_cover. by right.
Qed.

(** From its start to its return, a call of [mine] on a miner that agrees
    with its pool keeps the origin of every transaction of the priced heap
    in [#origins]. *)
Lemma mine_origins_cover :
  (∀ pool inProgress locks sm,
     origins_cover (new_Miner pool inProgress locks sm))
  ∧ ∀ fuel blk maxTransactions onlyOneBlock s s' r,
      miner_ok s → origins_cover s →
      mine fuel blk maxTransactions onlyOneBlock s = Ok (s', r) →
      origins_cover s'.
Proof.
  split; [by intros pool inProgress locks sm tx ?%elem_of_nil|].
  intros fuel blk maxTransactions onlyOneBlock s s' r Hok Hcov Hrun.
  pose proof (mine_lift
    (λ s s', miner_ok s ∧ origins_cover s → miner_ok s' ∧ origins_cover s')
    (λ _, True)) as Hlift.
  cbv beta in Hlift.
  eapply Hlift; [..|exact Hrun|exact (conj Hok Hcov)]; try done.
  - auto.
  - intros s0 [??].
    auto using setPricedHeap_miner_ok, setPricedHeap_origins_cover.
  - intros s0 [??].
    auto using updatePricedHeap_miner_ok, updatePricedHeap_origins_cover.
  - intros s0 [??]. split; [by apply reset_miner_ok|].
    by intros tx ?%elem_of_nil.
  - intros blk0 maxTransactions0 s0 s1 l1 _ _ Hsel [Hok0 Hcov0].
    assert (miner_ok s1 ∧ origins_cover s1) as [Hok1 Hcov1].
    { eapply selection_origins_cover; [|exact Hsel].
      split; [by apply (miner_ok_ext s0)|exact Hcov0]. }
    split; [by apply (miner_ok_ext s1)|exact Hcov1].
Qed.

(** ** Nonce order *)





(** No transaction of the pool [m] has a nonce below that of a transaction
    of its origin in [txs]. *)
Definition before (txs : list Transaction)
    (m : list (string * list Transaction)) : Prop :=
  ∀ a k h b, a ∈ txs → (k, h) ∈ m → b ∈ h → from a = from b →
             nonce a ≤ nonce b.














End miner_more.

(** * Calls of [mine] that overlap *)

(** The suspension points of the miner, by the line of the [await] in
    miner.ts.  At [A224], [A140], [A148] and [A134] the awaited promise is
    the one of an [async] function of the miner itself, which has ended;
    the others wait for a collaborator. *)
Inductive Await :=
| A134 | A140 | A148
| A178 | A179 | A192
| A222 | A224 | A229 | A290 | A306
| A310 | A311 | A316
| A345.

#[global] Instance Await_eq_dec : EqDecision Await.
Proof. solve_decision. Defined.

Section tasks.
Context {World : Type}.
Variable vm_runTx : Transaction → Block → World → World * VMOutcome.
Variable createBlock : Block → Block.
Variable blockGasLimit : N.
Variable instamine : bool.
Variable TRANSACTION_GAS : N.
(** [options.legacyInstamine] *)
Variable legacyInstamine : bool.

Local Abbreviation State := (@State World).
Local Abbreviation runTx := (runTx vm_runTx).
Local Abbreviation iteration := (iteration vm_runTx TRANSACTION_GAS).
Local Abbreviation selection := (selection vm_runTx TRANSACTION_GAS).
Local Abbreviation mineTxs :=
  (mineTxs vm_runTx createBlock blockGasLimit instamine TRANSACTION_GAS).
Local Abbreviation mine_private :=
  (mine_private vm_runTx createBlock blockGasLimit instamine TRANSACTION_GAS).
Local Abbreviation mine :=
  (mine vm_runTx createBlock blockGasLimit instamine TRANSACTION_GAS).

Implicit Types (s : State) (l : Locals) (tx best : Transaction).

#[local] Set Default Proof Using "Type".

(** What a stretch of code comes to when it is run on a state: it ends
    with a value, with a [TypeError] or out of budget, or it is suspended
    at an [await], with the state it leaves to whoever runs next and the
    rest of the code, to be resumed on the state found then. *)
Inductive Res (A : Type) : Type :=
| Finished (s : State) (a : A)
| Raised (s : State)
| Starved (s : State)
| Suspended (at_ : Await) (s : State) (k : State → Res A).
Arguments Finished {A} s a.
Arguments Raised {A} s.
Arguments Starved {A} s.
Arguments Suspended {A} at_ s k.

Definition Task (A : Type) : Type := State → Res A.

Fixpoint res_bind {A B} (r : Res A) (f : A → Task B) : Res B :=
  match r with
  | Finished s a => f a s
  | Raised s => Raised s
  | Starved s => Starved s
  | Suspended a s k => Suspended a s (λ s', res_bind (k s') f)
  end.

#[local] Instance task_ret : MRet Task := λ A a s, Finished s a.
#[local] Instance task_bind : MBind Task := λ A B f m s, res_bind (m s) f.

Definition read {A} (f : State → A) : Task A := λ s, Finished s (f s).
Definition update (f : State → State) : Task unit := λ s, Finished (f s) tt.
Definition await (a : Await) : Task unit :=
  λ s, Suspended a s (λ s', Finished s' tt).
Definition act {A} (f : State → State * A) : Task A :=
  λ s, let r := f s in Finished r.1 r.2.
Definition raise {A} : Task A := λ s, Raised s.
Definition starve {A} : Task A := λ s, Starved s.

(** [#runTx]: the VM is called, and what it does to the state manager is
    entered with its outcome, before the miner waits at line 345; the
    catch block runs when the miner is resumed, on the state it finds
    then. *)
Definition runTx_task (tx : Transaction) (blk : Block) (origin : string)
  : Task (option RunTxResult) :=
  r ← read (λ s, vm_runTx tx blk (world (stateManager s)));
  update (λ s, emit (RunTx tx r.2)
                 (set_stateManager
                    (mkStateManager r.1 (checkpoints (stateManager s))) s));;
  await A345;;
  match r.2 with
  | Returned result => mret (Some result)
  | Thrown errorMessage =>
      pendingOrigin ← read (λ s, map_get origin (executables_pending s));
      match pendingOrigin with
      | None => raise
      | Some pendingOrigin =>
          let po := Heap.removeBest byNonce pendingOrigin in
          update (λ s, set_executables_pending
                         (map_set origin po.1 (executables_pending s)) s);;
          update (λ s, if po.2 then (replaceFromHeap po.1 s).1
                       else (priced_removeBest s).1);;
          update (emit (Finalize tx "rejected"
                          (mkRuntimeError (hash tx) 0 errorMessage []
                             TRANSACTION_HASH)));;
          mret None
      end
  end.

(** One pass through the [while ((best = priced.peek()))] loop of
    [#mineTxs]. *)
Definition iteration_task (maxTransactions : Z) (l : Locals)
  : Task (Flow * Locals) :=
  best ← read (λ s, Heap.peek (priced s));
  match best with
  | None => mret (Exit, l)
  | Some best =>
      let origin := from best in
      if blockGasLeft l <? intrinsicGas best then
        update (λ s, (priced_removeBest s).1);;
        update (unlock best);;
        update (λ s, set_origins (origins s ∖ {[origin]}) s);;
        mret (Next, l)
      else
        update (set_currentlyExecutingPrice (gasPrice best));;
        update checkpoint;;
        await A222;;
        result ← runTx_task best (block l) origin;
        await A224;;
        match result with
        | Some result =>
            let used := result_gasUsed result in
            if used <=? blockGasLeft l then
              update commit;;
              await A229;;
              let bd := blockData l in
              let n := numTransactions l in
              let left := blockGasLeft l - used in
              let total := gasUsed bd + used in
              let bd := mkBlockData
                          (array_set (blockTransactions bd) n best)
                          (transactionsTrie bd ++ [(n, best)])
                          (receiptTrie bd ++ [(n, mkReceipt best result total)])
                          total (timestamp bd) in
              let blk := mkBlock (header_timestamp (block l))
                           (bloom_or (header_bloom (block l))
                                     (result_bloom result)) in
              let n := S n in
              pendingOrigin ←
                read (λ s, map_get origin (executables_pending s));
              match pendingOrigin with
              | None => raise
              | Some pendingOrigin =>
                  let po := Heap.removeBest byNonce pendingOrigin in
                  update (λ s, set_executables_pending
                                 (map_set origin po.1 (executables_pending s))
                                 s);;
                  update (λ s, set_executables_inProgress
                                 (inProgress_add best
                                    (executables_inProgress s)) s);;
                  more ← act (refill po.1 po.2);
                  let l := mkLocals more bd n left blk in
                  if (left <=? TRANSACTION_GAS)
                     || (Z.of_nat n =? maxTransactions)%Z
                  then mret (Break, l)
                  else mret (Next, l)
              end
            else
              update revert;;
              await A290;;
              update (unlock best);;
              more ← act priced_removeBest;
              mret (Next, set_keepMining more l)
        | None =>
            update revert;;
            await A306;;
            mret (Next, l)
        end
  end.

(** The [while] loop. *)
Fixpoint selection_task (fuel : nat) (maxTransactions : Z) (l : Locals)
  : Task Locals :=
  match fuel with
  | O => starve
  | S fuel' =>
      '(f, l) ← iteration_task maxTransactions l;
      match f with
      | Next => selection_task fuel' maxTransactions l
      | _ => mret l
      end
  end.

(** [#mineTxs] *)
Fixpoint mineTxs_task (fuel : nat) (blk : Block) (maxTransactions : Z)
    (onlyOneBlock : bool) : Task (Block * list Transaction) :=
  match fuel with
  | O => starve
  | S fuel' =>
      update (set_isBusy true);;
      let blockData0 := mkBlockData [] [] [] 0 (header_timestamp blk) in
      if (maxTransactions =? 0)%Z then
        update checkpoint;;
        await A178;;
        update commit;;
        await A179;;
        update (emit (EmitBlock blockData0));;
        update reset;;
        mret (blk, [])
      else
        let l := mkLocals false blockData0 0 blockGasLimit blk in
        update checkpoint;;
        await A192;;
        budget ← read selection_fuel;
        l ← selection_task budget maxTransactions l;
        await A310;;
        update commit;;
        await A311;;
        update (emit (EmitBlock (blockData l)));;
        (if legacyInstamine then await A316 else mret tt);;
        update (set_currentlyExecutingPrice 0);;
        if onlyOneBlock then
          update reset;;
          mret (block l, blockTransactions (blockData l))
        else
          update updatePricedHeap;;
          len ← read (λ s, length (priced s));
          if negb (len =? 0)%nat then
            let blk' := createBlock (block l) in
            let maxTransactions' := (if instamine then 1 else -1)%Z in
            if keepMining l
            then mineTxs_task fuel' blk' maxTransactions' onlyOneBlock
            else mret (blk', blockTransactions (blockData l))
          else
            update reset;;
            if keepMining l
            then mineTxs_task fuel' (block l) maxTransactions onlyOneBlock
            else mret (block l, blockTransactions (blockData l))
  end.

(** [#mine] *)
Fixpoint mine_private_task (fuel : nat) (blk : Block) (maxTransactions : Z)
    (onlyOneBlock : bool) : Task (list Transaction) :=
  match fuel with
  | O => starve
  | S fuel' =>
      '(lastBlock, transactions) ←
        mineTxs_task fuel blk maxTransactions onlyOneBlock;
      await A140;;
      again ← read (λ s, negb onlyOneBlock && pending s);
      if again : bool then
        update setPricedHeap;;
        update (set_pending false);;
        let nextBlock := createBlock lastBlock in
        mine_private_task fuel' nextBlock
          (if instamine then 1 else -1)%Z false;;
        await A148;;
        mret transactions
      else mret transactions
  end.

(** [mine], from the point where the miner is not (or no longer) paused. *)
Definition mine_task (fuel : nat) (blk : Block) (maxTransactions : Z)
    (onlyOneBlock : bool) : Task (option (list Transaction)) :=
  busy ← read isBusy;
  if busy : bool then
    update (set_pending true);;
    update updatePricedHeap;;
    mret None
  else
    update setPricedHeap;;
    result ← mine_private_task fuel blk maxTransactions onlyOneBlock;
    await A134;;
    update (emit EmitIdle);;
    mret (Some result).

(** ** Tasks side by side *)

(** A call of [mine] that has been made: suspended at an [await], ended
    with its result, or ended with a [TypeError] or out of budget. *)
Inductive Slot :=
| Waiting (a : Await) (k : State → Res (option (list Transaction)))
| Done (result : option (list Transaction))
| Threw
| Spent.

(** The miner with the calls of [mine] made so far, in the order in which
    they were made. *)
Record Config := mkConfig {
  shared : State;
  calls : list Slot
}.

(** What happens next: a new call of [mine] is made, or the call at
    [index], suspended at an [await], is resumed. *)
Inductive Move :=
| Call (blk : Block) (maxTransactions : Z) (onlyOneBlock : bool)
| Proceed (index : nat).

Definition land (r : Res (option (list Transaction))) : State * Slot :=
  match r with
  | Finished s result => (s, Done result)
  | Raised s => (s, Threw)
  | Starved s => (s, Spent)
  | Suspended a s k => (s, Waiting a k)
  end.

(** The code runs from one [await] to the next without interruption. *)
Definition move (fuel : nat) (c : Config) (m : Move) : Config :=
  match m with
  | Call blk maxTransactions onlyOneBlock =>
      let r := land (mine_task fuel blk maxTransactions onlyOneBlock
                       (shared c)) in
      mkConfig r.1 (calls c ++ [r.2])
  | Proceed index =>
      match calls c !! index with
      | Some (Waiting _ k) =>
          let r := land (k (shared c)) in
          mkConfig r.1 (<[index := r.2]> (calls c))
      | _ => c
      end
  end.

Definition play (fuel : nat) (c : Config) (moves : list Move) : Config :=
  foldl (move fuel) c moves.

(** The [await]s inside the [do] loop of [#mineTxs]. *)
Definition in_loop (a : Await) : bool :=
  match a with
  | A134 | A140 | A148 => false
  | _ => true
  end.

(** Where each call is suspended. *)
Definition waits (c : Config) : list (option Await) :=
  (λ slot, match slot with Waiting a _ => Some a | _ => None end) <$> calls c.

(** What each call has returned, if it has. *)
Definition returned (c : Config)
  : list (option (option (list Transaction))) :=
  (λ slot, match slot with Done result => Some result | _ => None end)
    <$> calls c.

(** The calls that are inside the [do] loop of [#mineTxs]. *)
Definition active_loops (c : Config) : list Await :=
  omap (λ w, match w with
             | Some a => if in_loop a then Some a else None
             | None => None
             end) (waits c).

(** The moves of a call of [mine] that is made on a miner with no call
    under way and is resumed [n] times, no other call being made. *)
Definition alone (blk : Block) (maxTransactions : Z) (onlyOneBlock : bool)
    (n : nat) : list Move :=
  Call blk maxTransactions onlyOneBlock :: replicate n (Proceed 0).

(** ** A call that runs alone *)

(** The task is resumed at every [await] on the state it left there: no
    other task has run in between. *)
Fixpoint run_alone {A} (r : Res A) : Outcome State (State * A) :=
  match r with
  | Finished s a => Ok (s, a)
  | Raised s => TypeError s
  | Starved s => OutOfFuel s
  | Suspended _ s k => run_alone (k s)
  end.

Definition then_alone {A B} (o : Outcome State (State * A))
    (f : A → Task B) : Outcome State (State * B) :=
  match o with
  | Ok (s, a) => run_alone (f a s)
  | TypeError s => TypeError s
  | OutOfFuel s => OutOfFuel s
  end.

Lemma run_alone_bind {A B} (r : Res A) (f : A → Task B) :
  run_alone (res_bind r f) = then_alone (run_alone r) f.
Proof. induction r as [| | |a s k IH]; cbn; auto. Qed.

Ltac task_simpl :=
  cbv [mbind task_bind mret task_ret read update await act raise starve];
  cbn [res_bind run_alone then_alone fst snd].

Lemma runTx_task_alone tx blk origin s :
  run_alone (runTx_task tx blk origin s) = runTx tx blk origin s.
Proof.
  unfold runTx_task, runTx. task_simpl.
  destruct (vm_runTx tx blk (world (stateManager s))) as [w [result|msg]];
    task_simpl; [done|].
  cbn [executables_pending emit set_trace set_stateManager].
  by destruct (map_get origin (executables_pending s)).
Qed.

(** The outcome of a pass, in the shape of [iteration]. *)
Definition pass_outcome (o : Outcome State (State * (Flow * Locals)))
  : Outcome State (Flow * State * Locals) :=
  match o with
  | Ok (s, (f, l)) => Ok (f, s, l)
  | TypeError s => TypeError s
  | OutOfFuel s => OutOfFuel s
  end.

Lemma iteration_task_alone maxTransactions l s :
  pass_outcome (run_alone (iteration_task maxTransactions l s))
  = iteration maxTransactions s l.
Proof.
  unfold iteration_task, iteration. task_simpl.
  destruct (Heap.peek (priced s)) as [best|]; [|done].
  destruct (blockGasLeft l <? intrinsicGas best); [done|].
  task_simpl. rewrite run_alone_bind, runTx_task_alone.
  destruct (runTx _ _ _ _) as [[s1 [result|]]|s1|s1]; cbn; [|done..].
  destruct (result_gasUsed result <=? blockGasLeft l); task_simpl; [|done].
  cbn [executables_pending commit emit set_trace set_stateManager].
  destruct (map_get (from best) (executables_pending s1)); [|done].
  task_simpl.
  by destruct (_ || _).
Qed.

Lemma selection_task_alone fuel maxTransactions l s :
  run_alone (selection_task fuel maxTransactions l s)
  = selection fuel maxTransactions s l.
Proof.
  revert l s. induction fuel as [|fuel IH]; intros l s; [done|].
  cbn [selection_task selection]. task_simpl.
  rewrite run_alone_bind, <-iteration_task_alone.
  destruct (run_alone (iteration_task maxTransactions l s))
    as [[s1 [f l1]]|s1|s1]; cbn; [|done..].
  destruct f; [apply IH|done..].
Qed.

Lemma mineTxs_task_alone fuel blk maxTransactions onlyOneBlock s :
  run_alone (mineTxs_task fuel blk maxTransactions onlyOneBlock s)
  = mineTxs fuel blk maxTransactions onlyOneBlock s.
Proof.
  revert blk maxTransactions s.
  induction fuel as [|fuel IH]; intros blk maxTransactions s; [done|].
  cbn [mineTxs_task mineTxs]. task_simpl.
  destruct (maxTransactions =? 0)%Z; task_simpl; [done|].
  rewrite run_alone_bind, selection_task_alone.
  destruct (selection _ _ _ _) as [[s1 l1]|s1|s1]; cbn; [|done..].
  destruct legacyInstamine; task_simpl.
  all: destruct onlyOneBlock; task_simpl; [done|].
  all: destruct (negb _); destruct (keepMining l1); task_simpl;
    first [done|apply IH].
Qed.

Lemma mine_private_task_alone fuel blk maxTransactions onlyOneBlock s :
  run_alone (mine_private_task fuel blk maxTransactions onlyOneBlock s)
  = mine_private fuel blk maxTransactions onlyOneBlock s.
Proof.
  revert blk maxTransactions onlyOneBlock s.
  induction fuel as [|fuel IH];
    intros blk maxTransactions onlyOneBlock s; [done|].
  cbn [mine_private_task mine_private]. task_simpl.
  rewrite run_alone_bind, mineTxs_task_alone.
  destruct (mineTxs _ _ _ _ _) as [[s1 [lastBlock transactions]]|s1|s1];
    cbn; [|done..].
  task_simpl. destruct (negb onlyOneBlock && pending s1); [|done].
  task_simpl. rewrite run_alone_bind, IH.
  by destruct (mine_private _ _ _ _ _) as [[s2 r2]|s2|s2].
Qed.

(** A call of [mine] that runs alone comes to what [mine] gives. *)
Lemma mine_task_alone fuel blk maxTransactions onlyOneBlock s :
  run_alone (mine_task fuel blk maxTransactions onlyOneBlock s)
  = mine fuel blk maxTransactions onlyOneBlock s.
Proof.
  unfold mine_task, mine. task_simpl. destruct (isBusy s); [done|].
  task_simpl. rewrite run_alone_bind, mine_private_task_alone.
  by destruct (mine_private _ _ _ _ _) as [[s1 r1]|s1|s1].
Qed.

(** A call that runs alone to its end, as moves: the call is made and
    resumed until it has returned. *)
Lemma run_alone_play fuel (r : Res (option (list Transaction))) s' result :
  run_alone r = Ok (s', result) →
  ∃ n, play fuel (mkConfig (land r).1 [(land r).2]) (replicate n (Proceed 0))
       = mkConfig s' [Done result].
Proof.
  induction r as [s a|s|s|a s k IH]; cbn; intros H; simplify_eq.
  - by exists 0%nat.
  - destruct (IH s H) as [n Hn]. by exists (S n).
Qed.

Lemma play_run_alone fuel n s slot s' result :
  play fuel (mkConfig s [slot]) (replicate n (Proceed 0))
  = mkConfig s' [Done result] →
  match slot with
  | Waiting _ k => run_alone (k s) = Ok (s', result)
  | Done result0 => s = s' ∧ result0 = result
  | _ => False
  end.
Proof.
  revert s slot. induction n as [|n IH]; intros s slot; cbn.
  { intros H. simplify_eq. done. }
  destruct slot as [a k|r0| |]; cbn; intros H.
  - apply (IH (land (k s)).1 (land (k s)).2) in H.
    destruct (k s); cbn in *; first [done|by destruct H as [-> ->]].
  - exact (IH s (Done r0) H).
  - exact (IH s Threw H).
  - exact (IH s Spent H).
Qed.

(** The moves [alone] end with the call returned exactly when [mine]
    gives that state and result. *)
Lemma alone_mine fuel blk maxTransactions onlyOneBlock s s' result :
  (∃ n, play fuel (mkConfig s []) (alone blk maxTransactions onlyOneBlock n)
        = mkConfig s' [Done result])
  ↔ mine fuel blk maxTransactions onlyOneBlock s = Ok (s', result).
Proof.
  rewrite <-mine_task_alone. split.
  - intros [n H].
    apply (play_run_alone fuel n
             (land (mine_task fuel blk maxTransactions onlyOneBlock s)).1
             (land (mine_task fuel blk maxTransactions onlyOneBlock s)).2)
      in H.
    destruct (mine_task fuel blk maxTransactions onlyOneBlock s);
      cbn in *; first [done|by destruct H as [-> ->]].
  - intros H. by apply (run_alone_play fuel) in H.
Qed.

(** ** What holds at every [await] *)

(** [P] holds in every state that the code leaves at an [await] when it
    runs alone, and in the state in which it fails if it does; [Q] holds
    when it ends with a value. *)
Fixpoint at_awaits {A} (P : State → Prop) (Q : State → A → Prop)
    (r : Res A) : Prop :=
  match r with
  | Finished s a => Q s a
  | Raised s | Starved s => P s
  | Suspended _ s k => P s ∧ at_awaits P Q (k s)
  end.

Lemma at_awaits_bind {A B} P Q Q' (r : Res A) (f : A → Task B) :
  at_awaits P Q r → (∀ s a, Q s a → at_awaits P Q' (f a s)) →
  at_awaits P Q' (res_bind r f).
Proof.
  intros Hr Hf. induction r as [| | |a s k IH]; cbn in *; auto.
  destruct Hr. auto.
Qed.

Lemma at_awaits_weaken {A} (P P' : State → Prop) (Q Q' : State → A → Prop)
    (r : Res A) :
  (∀ s, P s → P' s) → (∀ s a, Q s a → Q' s a) →
  at_awaits P Q r → at_awaits P' Q' r.
Proof.
  intros HP HQ. induction r as [| | |a s k IH]; cbn; auto.
  intros []. auto.
Qed.

(** The two states differ at most in what the pool, the priced heap, the
    locks and the origin set are not concerned with. *)
Definition same_core s s' : Prop :=
  executables_pending s' = executables_pending s
  ∧ priced s' = priced s ∧ locked s' = locked s ∧ origins s' = origins s.

Ltac in_pass :=
  first [ left; repeat split; reflexivity
        | right; eexists _, _, _; split; [reflexivity|];
          repeat split; reflexivity ].

(** Every state that a pass leaves at an [await] is, but for the state
    manager, the trace and the executing price, the state in which the
    pass began or the state in which it ends. *)
Lemma iteration_task_awaits maxTransactions l s :
  at_awaits
    (λ s1, same_core s s1
           ∨ ∃ f s' l', iteration maxTransactions s l = Ok (f, s', l')
                        ∧ same_core s' s1)
    (λ s' fl, iteration maxTransactions s l = Ok (fl.1, s', fl.2))
    (iteration_task maxTransactions l s).
Proof.
  unfold iteration_task, iteration, runTx_task, runTx. task_simpl.
  destruct (Heap.peek (priced s)) as [best|]; [|done].
  destruct (blockGasLeft l <? intrinsicGas best); [done|].
  task_simpl. cbn.
  destruct (vm_runTx best (block l) (world (stateManager s)))
    as [w [result|message]]; cbn.
  - destruct (result_gasUsed result <=? blockGasLeft l); cbn.
    + destruct (map_get (from best) (executables_pending s));
        [destruct (_ || _)|]; cbn.
      all: repeat (split; [in_pass|]); first [reflexivity|in_pass].
    + repeat (split; [in_pass|]); reflexivity.
  - destruct (map_get (from best) (executables_pending s)); cbn.
    + repeat (split; [in_pass|]); reflexivity.
    + repeat (split; [in_pass|]); in_pass.
Qed.


(** An invariant of the pool, the priced heap, the locks and the origin
    set that the seed phase, [#updatePricedHeap], [#reset] and every pass
    of the selection loop keep holds at every [await] of a call of [mine]
    that runs alone, and when the call returns. *)
Ltac awaits_simpl := task_simpl; cbn [at_awaits].

Section invariant.
Variable I : State → Prop.
Hypothesis I_core : ∀ s s', same_core s s' → I s → I s'.
Hypothesis I_pass : ∀ maxTransactions s l f s' l',
  I s → iteration maxTransactions s l = Ok (f, s', l') → I s'.
Hypothesis I_seed : ∀ s, I s → I (setPricedHeap s).
Hypothesis I_update : ∀ s, I s → I (updatePricedHeap s).
Hypothesis I_reset : ∀ s, I s → I (reset s).

Local Abbreviation kept := (λ (s' : State) _, I s').

Lemma iteration_task_keeps maxTransactions l s :
  I s → at_awaits I kept (iteration_task maxTransactions l s).
Proof using I_core I_pass.
  intros HI.
  eapply at_awaits_weaken; [| |apply iteration_task_awaits].
  - intros s1 [Hcore|(f & s' & l' & Hit & Hcore)]; eauto.
  - intros s' [f l'] Hit. eauto.
Qed.

Lemma selection_task_keeps fuel maxTransactions l s :
  I s → at_awaits I kept (selection_task fuel maxTransactions l s).
Proof using I_core I_pass.
  revert l s. induction fuel as [|fuel IH]; intros l s HI; [done|].
  cbn [selection_task].
  apply (at_awaits_bind I kept); [by apply iteration_task_keeps|].
  intros s1 [f l1] HI1. destruct f; cbn; auto.
Qed.

Ltac keeps_core :=
  match goal with
  | H : I ?s |- I _ => apply (I_core s); [by repeat split|exact H]
  end.

Lemma mineTxs_task_keeps fuel blk maxTransactions onlyOneBlock s :
  I s →
  at_awaits I kept (mineTxs_task fuel blk maxTransactions onlyOneBlock s).
Proof using All.
  revert blk maxTransactions s.
  induction fuel as [|fuel IH]; intros blk maxTransactions s HI; [done|].
  cbn [mineTxs_task]. awaits_simpl.
  destruct (maxTransactions =? 0)%Z; awaits_simpl.
  { split; [keeps_core|]. split; [keeps_core|]. apply I_reset. keeps_core. }
  split; [keeps_core|].
  eapply (at_awaits_bind I kept).
  { apply selection_task_keeps. keeps_core. }
  intros s1 l1 HI1. awaits_simpl.
  split; [done|]. split; [keeps_core|].
  assert (I (set_currentlyExecutingPrice 0
               (emit (EmitBlock (blockData l1)) (commit s1)))) as HI2
    by keeps_core.
  destruct legacyInstamine; awaits_simpl.
  all: try (split; [keeps_core|]).
  all: destruct onlyOneBlock; awaits_simpl; [by apply I_reset|].
  all: destruct (negb _); destruct (keepMining l1); awaits_simpl;
    auto using I_update, I_reset.
Qed.

Lemma mine_private_task_keeps fuel blk maxTransactions onlyOneBlock s :
  I s →
  at_awaits I kept
    (mine_private_task fuel blk maxTransactions onlyOneBlock s).
Proof using All.
  revert blk maxTransactions onlyOneBlock s.
  induction fuel as [|fuel IH];
    intros blk maxTransactions onlyOneBlock s HI; [done|].
  cbn [mine_private_task].
  apply (at_awaits_bind I kept); [by apply mineTxs_task_keeps|].
  intros s1 [lastBlock transactions] HI1. awaits_simpl.
  split; [done|].
  destruct (negb onlyOneBlock && pending s1); [|done]. awaits_simpl.
  eapply (at_awaits_bind I kept).
  { apply IH. apply (I_core (setPricedHeap s1)); [by repeat split|auto]. }
  intros s2 r2 HI2. by awaits_simpl.
Qed.

Lemma mine_task_keeps fuel blk maxTransactions onlyOneBlock s :
  I s →
  at_awaits I kept (mine_task fuel blk maxTransactions onlyOneBlock s).
Proof using All.
  intros HI. unfold mine_task. awaits_simpl. destruct (isBusy s); awaits_simpl.
  { apply I_update. keeps_core. }
  eapply (at_awaits_bind I kept).
  { apply mine_private_task_keeps. auto. }
  intros s1 r1 HI1. awaits_simpl. split; [done|]. keeps_core.
Qed.

Definition slot_keeps s (slot : Slot) : Prop :=
  I s ∧ match slot with
        | Waiting _ k => at_awaits I (λ s' _, I s') (k s)
        | _ => True
        end.

Lemma land_keeps r :
  at_awaits I (λ s' _, I s') r → slot_keeps (land r).1 (land r).2.
Proof using Type. destruct r; cbn; [done..|]. by intros []. Qed.

Lemma resumed_keeps fuel n s slot :
  slot_keeps s slot →
  I (shared (play fuel (mkConfig s [slot]) (replicate n (Proceed 0)))).
Proof using Type.
  revert s slot. induction n as [|n IH]; intros s slot [HI Hk]; [done|].
  cbn. destruct slot as [a k| | |]; cbn.
  1: apply IH, land_keeps, Hk.
  all: by apply IH.
Qed.

Lemma alone_keeps fuel blk maxTransactions onlyOneBlock n s :
  I s →
  I (shared (play fuel (mkConfig s [])
               (alone blk maxTransactions onlyOneBlock n))).
Proof using All.
  intros HI. cbn. apply resumed_keeps, land_keeps.
  by apply mine_task_keeps.
Qed.

End invariant.

(** ** A call of [mine] with no other call in between *)

(** X2: While a call of [mine] is under way and no other call of [mine] is
    made, the miner and the pool agree at every [await] of the call and
    when it has returned: the pool has one heap per origin with
    transactions of that origin; each transaction in the priced heap is
    the head of its origin's heap in the pool and is locked; and the
    priced heap never holds two transactions of one origin.  A new miner
    over a well-formed pool starts out so.  And on a miner in agreement
    with its pool such a call does return, without a [TypeError], within
    the budget [mine_budget]. *)
Theorem mine_keeps_agreement :
  (∀ pool inProgress locks (sm : @StateManager World),
     pool_wf pool → miner_ok (new_Miner pool inProgress locks sm))
  ∧ (∀ fuel blk maxTransactions onlyOneBlock n s,
       miner_ok s →
       miner_ok (shared (play fuel (mkConfig s [])
                           (alone blk maxTransactions onlyOneBlock n))))
  ∧ (∀ fuel blk maxTransactions onlyOneBlock s,
       miner_ok s → (mine_budget s ≤ fuel)%nat →
       ∃ n s' result,
         play fuel (mkConfig s []) (alone blk maxTransactions onlyOneBlock n)
         = mkConfig s' [Done result]).
Proof.
  split; [apply new_Miner_ok|]. split.
  - intros fuel blk maxTransactions onlyOneBlock n s.
    apply (alone_keeps miner_ok).
    + intros s0 s1 (Hp & Hpr & Hl & _). by apply miner_ok_ext.
    + intros maxT s0 l f s1 l1 Hok Hit. by eapply iteration_miner_ok.
    + apply setPricedHeap_miner_ok.
    + apply updatePricedHeap_miner_ok.
    + apply reset_miner_ok.
  - intros fuel blk maxTransactions onlyOneBlock s Hok Hfuel.
    destruct (mine_total vm_runTx createBlock blockGasLimit instamine
                TRANSACTION_GAS fuel blk maxTransactions onlyOneBlock s
                (miner_ok_wf s Hok) Hfuel) as (s' & r & Hrun & _).
    apply alone_mine in Hrun as [n Hn]. by exists n, s', r.
Qed.

(** X1: A call of [mine] during which no other call of [mine] is made
    loses no transaction and mines none twice: when it has returned, on a
    miner that agreed with its pool, every transaction that was in the
    pool is still there, or is in exactly one of the blocks the call has
    emitted, or has been finalized as rejected by the call; counted with
    multiplicity.  So if the pool held no transaction twice, no
    transaction is in two blocks or twice in one. *)
Theorem mine_conserves_transactions
    fuel blk maxTransactions onlyOneBlock n s s' result :
  miner_ok s →
  play fuel (mkConfig s []) (alone blk maxTransactions onlyOneBlock n)
  = mkConfig s' [Done result] →
  ∃ evs, trace s' = trace s ++ evs
    ∧ pool_txs (executables_pending s)
      ≡ₚ pool_txs (executables_pending s') ++ mined evs ++ rejected evs
    ∧ (NoDup (pool_txs (executables_pending s)) →
       NoDup (pool_txs (executables_pending s')
              ++ mined evs ++ rejected evs)).
Proof.
  intros Hok Hplay.
  apply (mine_accounts vm_runTx createBlock blockGasLimit instamine
           TRANSACTION_GAS fuel blk maxTransactions onlyOneBlock s s' result
           Hok).
  apply alone_mine. by exists n.
Qed.

(** X20: While a call of [mine] is under way and no other call of [mine]
    is made, the set [#origins] holds the origin of every transaction in
    the priced heap at every [await] of the call and when it has returned,
    on a miner that agrees with its pool; a new miner starts out so.  (The
    set can hold more: an origin stays in it when its transaction leaves
    the heap in any way but the one for too high an intrinsic gas.) *)
Theorem origins_cover_priced :
  (∀ pool inProgress locks (sm : @StateManager World),
     origins_cover (new_Miner pool inProgress locks sm))
  ∧ ∀ fuel blk maxTransactions onlyOneBlock n s,
      miner_ok s → origins_cover s →
      origins_cover (shared (play fuel (mkConfig s [])
                               (alone blk maxTransactions onlyOneBlock n))).
Proof.
  split; [by intros pool inProgress locks sm tx ?%elem_of_nil|].
  intros fuel blk maxTransactions onlyOneBlock n s Hok Hcov.
  apply (alone_keeps (λ s, miner_ok s ∧ origins_cover s)); [..|done].
  - intros s0 s1 (Hp & Hpr & Hl & Ho) [Hok0 Hcov0].
    split; [by apply (miner_ok_ext s0)|].
    intros tx. rewrite Hpr, Ho. apply Hcov0.
  - intros maxT s0 l f s1 l1 [Hok0 Hcov0] Hit. split.
    + by eapply iteration_miner_ok.
    + by eapply iteration_origins_cover.
  - intros s0 [??].
    auto using setPricedHeap_miner_ok, setPricedHeap_origins_cover.
  - intros s0 [??].
    auto using updatePricedHeap_miner_ok, updatePricedHeap_origins_cover.
  - intros s0 [??]. split; [by apply reset_miner_ok|].
    by intros tx ?%elem_of_nil.
Qed.

End tasks.

(** * The theorems at work on the small instance *)

(** [pool_wf], decided. *)
Definition pool_wfb (m : list (string * list Transaction)) : bool :=
  bool_decide (NoDup m.*1)
  && forallb (λ mapping : string * list Transaction,
                forallb (λ tx, bool_decide (from tx = mapping.1)) mapping.2)
       m.

Lemma pool_wfb_correct m : pool_wfb m = true → pool_wf m.
Proof.
  intros [Hnd Hall]%andb_true_iff.
  split; [by apply bool_decide_eq_true_1 in Hnd|].
  intros k h tx Hin Htx. rewrite forallb_forall in Hall.
  apply list_elem_of_In, Hall in Hin. cbn in Hin.
  rewrite forallb_forall in Hin. apply list_elem_of_In, Hin in Htx.
  by apply bool_decide_eq_true_1 in Htx.
Qed.

Module Witness.

Definition sm0 : @StateManager (list N) := mkStateManager [] [].

Definition pool_ab : list (string * list Transaction) :=
  [("0xaa", [Example.tA; Example.tA2]); ("0xbb", [Example.tB])].

Definition pool_a_b : list (string * list Transaction) :=
  [("0xaa", [Example.tA]); ("0xbb", [Example.tB])].

Definition pool_bd : list (string * list Transaction) :=
  [("0xbb", [Example.tB]); ("0xdd", [Example.tD; Example.tD2])].

(** A pool that keeps a transaction of "0xbb" under another origin. *)
Definition pool_astray : list (string * list Transaction) :=
  [("0xzz", [Example.tB])].

Definition fresh (pool : list (string * list Transaction))
  : @State (list N) :=
  new_Miner pool [] [] sm0.

Lemma fresh_ok pool : pool_wfb pool = true → miner_ok (fresh pool).
Proof. intros H. by apply new_Miner_ok, pool_wfb_correct. Qed.

End Witness.

Ltac run_mine H s' r :=
  match goal with
  | |- context [mine ?vm ?cb ?lim ?im ?tg ?fuel ?blk ?m ?o ?s] =>
      destruct (mine vm cb lim im tg fuel blk m o s) as [[s' r]|?|?] eqn:H;
      [|vm_compute in H; discriminate..]
  end.

(** An event that comes after the unknown stretch of a trace. *)
Ltac find_event :=
  repeat first [ apply list_elem_of_here | apply list_elem_of_further
               | apply elem_of_app; right ].

Lemma mine_blocks_tries_witness :
  let s := Witness.fresh Witness.pool_ab in
  ∃ s' r evs,
    mine Example.vm Example.createBlock 100000 false 21000
      12 Example.genesis (-1) false s = Ok (s', r)
    ∧ trace s' = trace s ++ evs
    ∧ ∀ b, EmitBlock b ∈ evs → block_tries_ok b.
Proof.
  intros s. run_mine Hmine s' r.
  destruct (mine_blocks_tries _ _ _ _ _ _ _ _ _ _ _ _ Hmine)
    as (evs & Htr & Hblocks).
  exists s', r, evs. split; [reflexivity|]. split; [exact Htr|exact Hblocks].
Defined.




Lemma busy_miner_stays_busy_witness :
  let s := set_isBusy true (Witness.fresh Witness.pool_ab) in
  let s' := updatePricedHeap (set_pending true s) in
  (isBusy s = true
   ∧ rtc (called Example.vm Example.createBlock 100000 false 21000) s s')
  ∧ isBusy s' = true ∧ trace s' = trace s
  ∧ executables_pending s' = executables_pending s.
Proof.
  intros s s'.
  assert (rtc (called Example.vm Example.createBlock 100000 false 21000)
            s s') as Hcalls.
  { apply rtc_once. by exists 0%nat, Example.genesis, (-1)%Z, false, None. }
  assert (isBusy s = true) as Hbusy0 by reflexivity.
  split; [exact (conj Hbusy0 Hcalls)|].
  destruct (busy_miner_stays_busy _ _ _ _ _ s s' Hbusy0 Hcalls)
    as (Hbusy & Htr & _ & Hpool & _).
  split; [exact Hbusy|]. split; [exact Htr|exact Hpool].
Defined.

Lemma oversized_transaction_wedges_witness :
  (30000 < intrinsicGas Example.tE ∧ (-1)%Z ≠ 0%Z ∧ (1 ≤ 1)%nat)
  ∧ ∃ s',
      mine Example.vm Example.createBlock 30000 false 21000
        1 Example.genesis (-1) false
        (new_Miner [("0xee", [Example.tE])] [] [] Witness.sm0)
      = Ok (s', Some [])
      ∧ isBusy s' = true ∧ priced s' = [Example.tE]
      ∧ ∃ s'',
          mine Example.vm Example.createBlock 30000 false 21000
            12 Example.genesis (-1) false s' = Ok (s'', None).
Proof.
  assert (30000 < intrinsicGas Example.tE) as Hgas by (cbn; lia).
  assert ((-1)%Z ≠ 0%Z) as Hmax by lia.
  split; [by split_and!|].
  destruct (oversized_transaction_wedges Example.vm Example.createBlock
              30000 false 21000 1 Example.genesis (-1) Example.tE []
              Witness.sm0 Hgas Hmax (le_n 1))
    as (s' & Hmine & _ & Hbusy & Hpriced & _ & _ & Hlater).
  exists s'. split; [done|]. split; [done|]. split; [done|]. apply Hlater.
Defined.

(** The part of a list before its last two elements. *)
Lemma app_two_inv {A} (l evs : list A) a b :
  l = evs ++ [a; b] →
  evs = take (length l - 2) l ∧ [a; b] = drop (length l - 2) l.
Proof.
  intros ->. rewrite length_app. cbn [length].
  replace (length evs + 2 - 2)%nat with (length evs) by lia.
  by rewrite take_app_length, drop_app_length.
Qed.

Lemma mine_returns_last_block_witness :
  let s := Witness.fresh Witness.pool_a_b in
  isBusy s = false
  ∧ ∃ s' evs bd bd0,
      mine Example.vm Example.createBlock 30000 false 21000
        12 Example.genesis (-1) false s
      = Ok (s', Some (blockTransactions bd))
      ∧ trace s' = trace s ++ evs ++ [EmitBlock bd; EmitIdle]
      ∧ blockTransactions bd = [Example.tA]
      ∧ EmitBlock bd0 ∈ evs
      ∧ blockTransactions bd0 = [Example.tB].
Proof.
  intros s. assert (isBusy s = false) as Hidle by reflexivity.
  split; [done|]. run_mine Hmine s' r.
  destruct (mine_returns_last_block _ _ _ _ _ _ _ _ _ _ _ _ Hidle Hmine)
    as (s1 & blk1 & evs & bd & evs' & Hrun & Htr1 & Htr & -> & Hlast).
  rewrite (Hlast (or_introl eq_refl)), Htr1 in Htr.
  assert (trace s' = trace s ++ evs ++ [EmitBlock bd; EmitIdle]) as Htr'
    by (by rewrite Htr, <-!app_assoc).
  pose proof Hmine as Hval. vm_compute in Hval.
  injection Hval as Hs' Htxs.
  pose proof Htr' as Hevs. rewrite <-Hs' in Hevs.
  apply app_two_inv in Hevs as [Hevs Hbd]. vm_compute in Hevs.
  exists s', evs, bd. eexists.
  split; [reflexivity|]. split; [exact Htr'|].
  split; [symmetry; exact Htxs|].
  rewrite Hevs. split; [find_event|reflexivity].
Defined.

Lemma iteration_TypeError_iff_witness :
  let s := set_priced [Example.tB] (Witness.fresh Witness.pool_astray) in
  let l := Example.start 30000 in
  (Heap.peek (priced s) = Some Example.tB
   ∧ intrinsicGas Example.tB ≤ blockGasLeft l
   ∧ map_get (from Example.tB) (executables_pending s) = None)
  ∧ ∃ s', iteration Example.vm 21000 (-1) s l = TypeError s'.
Proof.
  intros s l.
  assert (intrinsicGas Example.tB ≤ blockGasLeft l) as Hgas by (cbn; lia).
  split; [by split_and!|].
  apply (iteration_TypeError_iff Example.vm 21000 (-1) s l).
  exists Example.tB. split_and!; [reflexivity|done|reflexivity|cbn; lia].
Defined.

Lemma mine_TypeError_leaves_busy_witness :
  let s := Witness.fresh Witness.pool_astray in
  ∃ s',
    mine Example.vm Example.createBlock 30000 false 21000
      12 Example.genesis (-1) false s = TypeError s'
    ∧ isBusy s' = true
    ∧ depth s' = S (depth s)
    ∧ orphan s'.
Proof.
  intros s.
  destruct (mine Example.vm Example.createBlock 30000 false 21000
              12 Example.genesis (-1) false s) as [[? ?]|s'|?] eqn:Hmine;
    [vm_compute in Hmine; discriminate| |vm_compute in Hmine; discriminate].
  destruct (mine_TypeError_leaves_busy _ _ _ _ _ _ _ _ _ _ _ Hmine)
    as (Hbusy & Hdepth & Horphan & _).
  exists s'. split; [reflexivity|]. split; [exact Hbusy|].
  split; [|exact Horphan].
  destruct Hdepth as [Hd|Hd]; [exact Hd|].
  vm_compute in Hmine. injection Hmine as <-. vm_compute in Hd. discriminate.
Defined.

Lemma byPrice_strict_weak_order_witness :
  let values := [Example.tB; Example.tA; Example.tF] in
  (byPrice values 0 1 = true ∧ values !! 0%nat = Some Example.tB
   ∧ values !! 2%nat = Some Example.tF
   ∧ gasPrice Example.tB = gasPrice Example.tF)
  ∧ byPrice values 1 0 = false
  ∧ byPrice values 0 2 = false ∧ byPrice values 2 0 = false.
Proof.
  intros values. split; [by split_and!|].
  destruct (byPrice_strict_weak_order values) as (_ & Hasym & _ & Htie).
  split; [by apply Hasym|].
  by apply (Htie 0%nat 2%nat Example.tB Example.tF).
Defined.

Lemma replaceFromHeap_result_witness :
  let s := setPricedHeap (Witness.fresh Witness.pool_ab) in
  Heap.peek (priced s) = Some Example.tB
  ∧ (replaceFromHeap [Example.tA2] s).2 = true
  ∧ is_locked Example.tA2 (replaceFromHeap [Example.tA2] s).1 = true
  ∧ executables_pending (replaceFromHeap [Example.tA2] s).1
    = executables_pending s.
Proof.
  intros s.
  assert (Heap.peek (priced s) = Some Example.tB) as Hpeek by reflexivity.
  split; [done|].
  destruct (replaceFromHeap_result [Example.tA2] s Example.tB Hpeek)
    as (Hmore & Hpool & _ & Hlocked).
  split; [|split]; [|exact Hlocked|exact Hpool].
  apply Hmore. vm_compute. discriminate.
Defined.

Lemma locked_heads_are_never_mined_witness :
  let s := outcome_state fst
             (mine Example.vm Example.createBlock 100000 false 21000
                12 Example.genesis 1 true (Witness.fresh Witness.pool_ab)) in
  (isBusy s = false ∧ pending s = false ∧ priced s = []
   ∧ heads_locked (executables_pending s) s
   ∧ (-1)%Z ≠ 0%Z ∧ (1 ≤ 12)%nat)
  ∧ executables_pending s
    = [("0xaa", [Example.tA; Example.tA2]); ("0xbb", [])]
  ∧ ∃ s',
      mine Example.vm Example.createBlock 100000 false 21000
        12 Example.genesis (-1) false s = Ok (s', Some [])
      ∧ executables_pending s' = executables_pending s
      ∧ heads_locked (executables_pending s') s'.
Proof.
  intros s.
  assert (executables_pending s
          = [("0xaa", [Example.tA; Example.tA2]); ("0xbb", [])]) as Hpool0
    by (vm_compute; reflexivity).
  assert (heads_locked (executables_pending s) s) as Hheads.
  { intros m tx Hm Hpeek. rewrite Hpool0 in Hm.
    repeat (apply elem_of_cons in Hm as [->|Hm];
            [cbn in Hpeek; simplify_eq; vm_compute; reflexivity|]).
    by apply elem_of_nil in Hm. }
  assert ((-1)%Z ≠ 0%Z) as Hmax by lia.
  assert (1 ≤ 12)%nat as Hfuel by lia.
  assert (isBusy s = false ∧ pending s = false ∧ priced s = [])
    as (Hidle & Hpend & Hpriced) by (split_and!; vm_compute; reflexivity).
  split.
  { exact (conj Hidle (conj Hpend (conj Hpriced
             (conj Hheads (conj Hmax Hfuel))))). }
  split; [exact Hpool0|].
  destruct (locked_heads_are_never_mined Example.vm Example.createBlock
              100000 false 21000 12 Example.genesis (-1) false s
              Hidle Hpend Hpriced Hheads Hmax Hfuel)
    as (s' & Hmine & _ & Hpool & _ & _ & _ & _ & _ & Hheads').
  exists s'. split; [exact Hmine|]. split; [exact Hpool|exact Hheads'].
Defined.

Lemma instamine_blocks_hold_one_witness :
  let s := Witness.fresh Witness.pool_ab in
  (true = true ∧ (0 ≤ 1)%Z)
  ∧ ∃ s' r evs,
      mine Example.vm Example.createBlock 100000 true 21000
        12 Example.genesis 1 false s = Ok (s', r)
      ∧ trace s' = trace s ++ evs
      ∧ ∀ b, EmitBlock b ∈ evs → (length (blockTransactions b) ≤ 1)%nat.
Proof.
  intros s. split; [split; [reflexivity|lia]|]. run_mine Hmine s' r.
  assert (0 ≤ 1)%Z as Hpos by lia.
  destruct (instamine_blocks_hold_one _ _ _ _ _ _ _ _ _ _ _ _ eq_refl
              Hpos Hmine) as (evs & Htr & Hblocks).
  exists s', r, evs. split; [reflexivity|]. split; [exact Htr|].
  intros b Hb. specialize (Hblocks b Hb). lia.
Defined.

Lemma mine_mines_the_pool_witness :
  let s := Witness.fresh Witness.pool_ab in
  (isBusy s = false ∧ pending s = false ∧ priced s = []
   ∧ pool_wf (executables_pending s)
   ∧ N.of_nat (length (pool_txs (executables_pending s))) * 22000 + 21000
     < 100000)
  ∧ ∃ s' txs,
      mine Example.vm Example.createBlock 100000 false 21000
        1 Example.genesis (-1) false s = Ok (s', Some txs)
      ∧ txs ≡ₚ [Example.tA; Example.tA2; Example.tB]
      ∧ pool_txs (executables_pending s') = [].
Proof.
  intros s.
  assert (isBusy s = false) as Hidle by reflexivity.
  assert (pending s = false) as Hpend by reflexivity.
  assert (priced s = []) as Hpriced by reflexivity.
  assert (pool_wf (executables_pending s)) as Hpool
    by (apply pool_wfb_correct; reflexivity).
  assert (∀ m tx, m ∈ executables_pending s → Heap.peek m.2 = Some tx →
                  tx ∉ locked s) as Hfree
    by (intros m tx _ _; apply not_elem_of_nil).
  assert (∀ tx blk w,
            tx ∈ pool_txs (executables_pending s) →
            intrinsicGas tx ≤ 22000
            ∧ ∃ result, (Example.vm tx blk w).2 = Returned result
                ∧ result_gasUsed result ≤ 22000) as Hvm.
  { intros tx blk w Htx.
    change (tx ∈ [Example.tA; Example.tA2; Example.tB]) in Htx.
    repeat (apply elem_of_cons in Htx as [->|Htx]);
      [..|by apply elem_of_nil in Htx].
    all: split; [cbn; lia|].
    all: eexists; split; [reflexivity|cbn; lia]. }
  assert (N.of_nat (length (pool_txs (executables_pending s))) * 22000
          + 21000 < 100000) as Hroom by reflexivity.
  split; [exact (conj Hidle (conj Hpend (conj Hpriced (conj Hpool Hroom))))|].
  assert (-1 < 0
          ∨ Z.of_nat (length (pool_txs (executables_pending s))) < -1)%Z
    as Hcap by (left; lia).
  assert (1 ≤ 1)%nat as Hfuel by lia.
  destruct (mine_mines_the_pool Example.vm Example.createBlock 100000 false
              21000 1 Example.genesis (-1) false s 22000
              Hidle Hpend Hpriced Hpool Hfree Hvm Hroom Hcap Hfuel)
    as (s' & txs & evs & bd & Hmine & Hperm & _ & _ & _ & _ & Hnil & _).
  exists s', txs. split; [exact Hmine|]. split; [exact Hperm|exact Hnil].
Defined.


(** ** Calls that overlap, on the small instance *)

Module Overlap.

(** uses 60000 gas, at the highest price *)
Definition tTop : Transaction := mkTransaction 10 "0x11" 90 39 21000.
(** needs 90000 gas before it runs *)
Definition tBig : Transaction := mkTransaction 9 "0xee" 60 0 90000.

Definition pool_top_big_c : list (string * list Transaction) :=
  [("0x11", [tTop]); ("0xee", [tBig]); ("0xcc", [Example.tC])].

Definition pool_top_big_d : list (string * list Transaction) :=
  [("0x11", [tTop]); ("0xee", [tBig]);
   ("0xdd", [Example.tD; Example.tD2])].

Definition pool_c_f : list (string * list Transaction) :=
  [("0xcc", [Example.tC]); ("0xff", [Example.tF])].

(** A new miner over [pool] with a block gas limit of 100000, and the
    moves made on it. *)
Definition run (pool : list (string * list Transaction))
    (moves : list Move) : @Config (list N) :=
  play Example.vm Example.createBlock 100000 false 21000 false 5
    (mkConfig (Witness.fresh pool) []) moves.

Definition call : Move := Call Example.genesis (-1) false.

(** A call of [mine] that has accepted the first transaction, has passed
    over the second, and waits for the checkpoint of the third. *)
Definition third_pass : list Move := call :: replicate 5 (Proceed 0).

End Overlap.

(** C5, on the code: a call of [mine] has put [tTop] into the block, which
    leaves 40000 gas, has skipped [tBig] for its intrinsic gas, and waits
    for the checkpoint of [tC] when a second call arrives.  The miner is
    busy, so the second call runs [#updatePricedHeap], which finds [tBig]
    unlocked, of an origin that is not in [#origins] and not cheaper than
    [tC], and pushes it: it is the root now.  The first call goes on: [tC]
    uses 50000 gas and does not fit, so it is reverted and unlocked, and
    [priced.removeBest()] removes the root, which is [tBig].  [tC], the
    transaction that did not fit, is still in the priced heap, unlocked,
    and the next pass peeks it and runs it again for the same block.
    [tBig] is locked and in no heap, and is so still when the calls have
    returned: it stays in the pool, where no seed phase takes it. *)
Theorem C5_overflow_removes_another :
  let run := Overlap.run Overlap.pool_top_big_c in
  let c1 := run Overlap.third_pass in
  let c2 := run (Overlap.third_pass ++ [Overlap.call]) in
  let c3 := run (Overlap.third_pass ++ [Overlap.call]
                 ++ replicate 4 (Proceed 0)) in
  let c4 := run (Overlap.third_pass ++ [Overlap.call]
                 ++ replicate 30 (Proceed 0)) in
  (waits c1 = [Some A222]
   ∧ priced (shared c1) = [Example.tC]
   ∧ locked (shared c1) = [Example.tC; Overlap.tTop]
   ∧ isBusy (shared c1) = true)
  ∧ (returned c2 = [None; Some None]
     ∧ priced (shared c2) = [Overlap.tBig; Example.tC]
     ∧ locked (shared c2) = [Overlap.tBig; Example.tC; Overlap.tTop])
  ∧ (waits c3 = [Some A222; None]
     ∧ trace (shared c3)
       = [Checkpoint; Checkpoint;
          RunTx Overlap.tTop (Returned (mkRunTxResult 60000 []));
          Commit; Checkpoint;
          RunTx Example.tC (Returned (mkRunTxResult 50000 []));
          Revert; Checkpoint]
     ∧ priced (shared c3) = [Example.tC]
     ∧ locked (shared c3) = [Overlap.tBig; Overlap.tTop]
     ∧ executables_pending (shared c3)
       = [("0x11", []); ("0xee", [Overlap.tBig]); ("0xcc", [Example.tC])])
  ∧ (returned c4 = [Some (Some [Overlap.tTop]); Some None]
     ∧ priced (shared c4) = []
     ∧ locked (shared c4) = [Example.tC; Overlap.tBig; Overlap.tTop]
     ∧ executables_pending (shared c4)
       = [("0x11", []); ("0xee", [Overlap.tBig]); ("0xcc", [])]
     ∧ mined (trace (shared c4)) = [Overlap.tTop; Example.tC]).
Proof. vm_compute. by repeat split. Qed.

(** C6, on the code: a call of [mine] has put [tTop] into the block, has
    skipped [tBig] and waits for the checkpoint of [tD] when a second call
    arrives and pushes [tBig], which is the root now.  The VM throws for
    [tD]; the catch block of [#runTx] takes [tD] out of the pool and puts
    [tD2], the next transaction of the origin, in the place of the root,
    which is [tBig]; [tD] is still in the priced heap.  The loop goes on
    with [tD] once more: the VM runs it and throws again, and the catch
    block takes the head of the origin's heap out of the pool, now [tD2],
    which has not been run, and finalizes [tD] a second time.  When the
    calls have returned, [tD2] is not in the pool, is in no block and has
    not been finalized. *)
Theorem C6_thrown_transaction_runs_again :
  let run := Overlap.run Overlap.pool_top_big_d in
  let rejection := Finalize Example.tD "rejected"
                     (mkRuntimeError 5 0 "always failing" []
                        TRANSACTION_HASH) in
  let c2 := run (Overlap.third_pass ++ [Overlap.call]) in
  let c3 := run (Overlap.third_pass ++ [Overlap.call]
                 ++ replicate 2 (Proceed 0)) in
  let c4 := run (Overlap.third_pass ++ [Overlap.call]
                 ++ replicate 6 (Proceed 0)) in
  let c5 := run (Overlap.third_pass ++ [Overlap.call]
                 ++ replicate 30 (Proceed 0)) in
  (waits c2 = [Some A222; None]
   ∧ returned c2 = [None; Some None]
   ∧ priced (shared c2) = [Overlap.tBig; Example.tD])
  ∧ (waits c3 = [Some A224; None]
     ∧ priced (shared c3) = [Example.tD; Example.tD2]
     ∧ executables_pending (shared c3)
       = [("0x11", []); ("0xee", [Overlap.tBig]);
          ("0xdd", [Example.tD2])])
  ∧ (waits c4 = [Some A224; None]
     ∧ trace (shared c4)
       = [Checkpoint; Checkpoint;
          RunTx Overlap.tTop (Returned (mkRunTxResult 60000 []));
          Commit; Checkpoint;
          RunTx Example.tD (Thrown "always failing"); rejection; Revert;
          Checkpoint;
          RunTx Example.tD (Thrown "always failing"); rejection]
     ∧ priced (shared c4) = [Example.tD2]
     ∧ executables_pending (shared c4)
       = [("0x11", []); ("0xee", [Overlap.tBig]); ("0xdd", [])])
  ∧ (returned c5 = [Some (Some [Overlap.tTop]); Some None]
     ∧ executables_pending (shared c5)
       = [("0x11", []); ("0xee", [Overlap.tBig]); ("0xdd", [])]
     ∧ mined (trace (shared c5)) = [Overlap.tTop]
     ∧ rejected (trace (shared c5)) = [Example.tD; Example.tD]).
Proof. vm_compute. by repeat split. Qed.

(** C8, on the code: a second call of [mine] arrives while the first is
    busy: it sets [pending] and returns [undefined].  The first call ends
    its block, with [tF] in it and [tC] left over, and [#mineTxs]
    returns after [#reset] has cleared [#isBusy]; [#mine] has not gone on
    yet (it waits at line 140, behind what was queued before, such as the
    listeners of the block).  A third call arrives: the miner is not
    busy, so the call seeds the heap and enters the loop of [#mineTxs].
    Then [#mine] of the first call goes on: [pending] is set, so it enters
    [#mineTxs] again.  Two calls are inside the loop, and both run [tC]. *)
Theorem C8_two_selection_loops :
  let run := Overlap.run Overlap.pool_c_f in
  let first_block :=
    [Overlap.call; Overlap.call] ++ replicate 11 (Proceed 0) in
  let c1 := run [Overlap.call; Overlap.call] in
  let c2 := run first_block in
  let c3 := run (first_block ++ [Overlap.call]) in
  let c4 := run (first_block ++ [Overlap.call; Proceed 0]) in
  let c5 := run (first_block
                 ++ [Overlap.call; Proceed 0; Proceed 2; Proceed 0;
                     Proceed 2; Proceed 0]) in
  (returned c1 = [None; Some None]
   ∧ isBusy (shared c1) = true ∧ pending (shared c1) = true
   ∧ active_loops c1 = [A192])
  ∧ (waits c2 = [Some A140; None]
     ∧ isBusy (shared c2) = false ∧ pending (shared c2) = true
     ∧ active_loops c2 = [])
  ∧ (waits c3 = [Some A140; None; Some A192]
     ∧ isBusy (shared c3) = true)
  ∧ (waits c4 = [Some A192; None; Some A192]
     ∧ active_loops c4 = [A192; A192])
  ∧ (active_loops c5 = [A345; A345]
     ∧ drop 9 (trace (shared c5))
       = [Checkpoint; Checkpoint; Checkpoint; Checkpoint;
          RunTx Example.tC (Returned (mkRunTxResult 50000 []));
          RunTx Example.tC (Returned (mkRunTxResult 50000 []))]).
Proof. vm_compute. by repeat split. Qed.

Lemma mine_keeps_agreement_witness :
  let s := Witness.fresh Witness.pool_ab in
  let c := play Example.vm Example.createBlock 100000 false 21000 false 12
             (mkConfig s []) (alone Example.genesis (-1) false 9) in
  (pool_wf Witness.pool_ab ∧ (mine_budget s ≤ 12)%nat)
  ∧ waits c = [Some A222]
  ∧ priced (shared c) = [Example.tA2]
  ∧ miner_ok (shared c)
  ∧ ∃ n s' result,
      play Example.vm Example.createBlock 100000 false 21000 false 12
        (mkConfig s []) (alone Example.genesis (-1) false n)
      = mkConfig s' [Done result].
Proof.
  intros s c.
  assert (pool_wf Witness.pool_ab) as Hpool
    by (apply pool_wfb_correct; reflexivity).
  assert (mine_budget s ≤ 12)%nat as Hbudget by (vm_compute; lia).
  destruct (mine_keeps_agreement Example.vm Example.createBlock 100000
              false 21000 false) as (Hnew & Hkeep & Hreturns).
  pose proof (Hnew Witness.pool_ab [] [] Witness.sm0 Hpool) as Hok.
  split; [exact (conj Hpool Hbudget)|].
  split; [reflexivity|]. split; [reflexivity|].
  split; [exact (Hkeep 12%nat Example.genesis (-1)%Z false 9%nat s Hok)|].
  exact (Hreturns 12%nat Example.genesis (-1)%Z false s Hok Hbudget).
Defined.

Lemma mine_conserves_transactions_witness :
  let s := Witness.fresh Witness.pool_bd in
  miner_ok s
  ∧ ∃ n s' result evs,
      play Example.vm Example.createBlock 30000 false 21000 false 12
        (mkConfig s []) (alone Example.genesis (-1) false n)
      = mkConfig s' [Done result]
      ∧ trace s' = trace s ++ evs
      ∧ pool_txs (executables_pending s)
        ≡ₚ pool_txs (executables_pending s') ++ mined evs ++ rejected evs.
Proof.
  intros s.
  assert (miner_ok s) as Hok by (by apply Witness.fresh_ok).
  split; [done|].
  destruct (mine Example.vm Example.createBlock 30000 false 21000 12
              Example.genesis (-1) false s) as [[s' r]|?|?] eqn:Hmine;
    [|vm_compute in Hmine; discriminate..].
  apply (alone_mine Example.vm Example.createBlock 30000 false 21000 false)
    in Hmine as [n Hplay].
  destruct (mine_conserves_transactions Example.vm Example.createBlock
              30000 false 21000 false 12%nat Example.genesis (-1)%Z false
              n s s' r Hok Hplay) as (evs & Htr & Hperm & _).
  exists n, s', r, evs.
  split; [exact Hplay|]. split; [exact Htr|exact Hperm].
Defined.

Lemma origins_cover_priced_witness :
  let s := Witness.fresh Witness.pool_ab in
  let c := play Example.vm Example.createBlock 100000 false 21000 false 12
             (mkConfig s []) (alone Example.genesis (-1) false 5) in
  waits c = [Some A222]
  ∧ priced (shared c) = [Example.tA]
  ∧ origins_cover (shared c).
Proof.
  intros s c.
  destruct (origins_cover_priced Example.vm Example.createBlock 100000
              false 21000 false) as [Hnew Hkeep].
  split; [reflexivity|]. split; [reflexivity|].
  refine (Hkeep 12%nat Example.genesis (-1)%Z false 5%nat s _ _).
  - apply Witness.fresh_ok. reflexivity.
  - apply Hnew.
Defined.

(** * Pausing and resuming *)

Inductive PauseCall := Pause (busy : bool) | Resume.

Definition pause_call (p : Pausing) (c : PauseCall) : Pausing :=
  match c with
  | Pause busy => (pause busy p).1
  | Resume => resume p
  end.

(** All promises but the last are resolved, and the last is pending
    exactly when the miner is paused. *)
Definition pausing_ok (p : Pausing) : Prop :=
  ∃ n, resumers p = replicate n true ++ (if paused p then [false] else []).

Lemma pause_call_ok p c : pausing_ok p → pausing_ok (pause_call p c).
Proof.
  intros [n Hp]. destruct p as [[] rs]; cbn in *; subst rs.
  - destruct c as [busy|]; cbn.
    + by exists n.
    + exists (S n). rewrite length_app, length_replicate. cbn.
      replace (pred (n + 1)) with (length (replicate n true) + 0)%nat
        by (rewrite length_replicate; lia).
      rewrite insert_app_r. cbn. by rewrite app_nil_r, replicate_cons_app.
  - destruct c as [busy|]; cbn.
    + exists n. by rewrite app_nil_r.
    + by exists n.
Qed.

(** X18: Whatever calls of [pause] and [resume] are made on a new miner, no
    call of [mine] is left waiting once [resume] has been called: the
    promise that a call of [mine] awaits on a paused miner is the one that
    the next [resume] resolves, a [pause] on a paused miner makes no new
    promise, and after [resume] every promise made so far is resolved.  A
    call of [pause] awaits the [idle] event exactly when it has just paused
    a busy miner. *)
Theorem resume_releases_every_waiter (calls : list PauseCall) :
  let p := foldl pause_call not_paused calls in
  (∀ i, mine_awaits p = Some i → resumers (resume p) !! i = Some true)
  ∧ (∀ i, i ∈ resumers (resume p) → i = true)
  ∧ paused (resume p) = false
  ∧ mine_awaits (resume p) = None
  ∧ (∀ busy, paused p = true → pause busy p = (p, false))
  ∧ (∀ busy, paused p = false →
       (pause busy p).2 = busy
       ∧ mine_awaits (pause busy p).1 = Some (length (resumers p))).
Proof.
  intros p.
  assert (pausing_ok p) as [n Hp].
  { subst p. induction calls as [|c calls IH] using rev_ind.
    - by exists 0%nat.
    - rewrite foldl_app. cbn. by apply pause_call_ok. }
  clearbody p.
  assert (pausing_ok (resume p)) as [m Hr]
    by (apply (pause_call_ok p Resume); by exists n).
  assert (paused (resume p) = false) as Hoff
    by (by destruct p as [[] rs]).
  rewrite Hoff, app_nil_r in Hr.
  split_and!.
  - unfold mine_awaits. intros i Hi. rewrite Hr.
    destruct (paused p) eqn:Hpaused; [|done]. simplify_eq.
    apply lookup_replicate_2.
    assert (length (resumers (resume p)) = length (resumers p)) as Hlen
      by (unfold resume; rewrite Hpaused; cbn; apply length_insert).
    rewrite Hr, Hp, length_replicate, length_app, length_replicate in Hlen.
    rewrite Hp, length_app, length_replicate. cbn in *. lia.
  - intros i. rewrite Hr. by intros [-> _]%elem_of_replicate.
  - done.
  - unfold mine_awaits. by rewrite Hoff.
  - intros busy Hpaused. unfold pause. by rewrite Hpaused.
  - intros busy Hpaused. unfold pause, mine_awaits. rewrite Hpaused. cbn.
    split; [done|]. rewrite length_app. cbn. f_equal. lia.
Qed.

Lemma resume_releases_every_waiter_witness :
  let p := foldl pause_call not_paused
             [Pause true; Pause false; Resume; Pause false] in
  (paused p = true ∧ mine_awaits p = Some 1%nat)
  ∧ resumers p = [true; false]
  ∧ resumers (resume p) = [true; true]
  ∧ pause true p = (p, false).
Proof.
  intros p.
  assert (paused p = true) as Hpaused by reflexivity.
  assert (mine_awaits p = Some 1%nat) as Hawaits by reflexivity.
  split; [exact (conj Hpaused Hawaits)|].
  destruct (resume_releases_every_waiter
              [Pause true; Pause false; Resume; Pause false])
    as (Hreleased & _ & _ & _ & Hagain & _).
  split; [reflexivity|]. split; [reflexivity|]. exact (Hagain true Hpaused).
Defined.
